(** * Text-signal extraction of alcalor_analysis.nlp

    A shallow embedding of [src/alcalor_analysis/nlp.py] with the parts of
    Python ([str], [re], slices, [sorted], [Counter]), numpy and scikit-learn
    that the module calls, followed by the properties of the analysis
    functions.

    Conventions.
    - A Python [str] is a list of Unicode code points ([N]).
    - The character tables of the interpreter are written out for U+0000 to
      U+00FF (every literal of the module lies there); the tables beyond
      that range are a parameter ([UnicodeExt]).
    - A floating-point column is a column of exact rationals ([Q]).
    - A [polars] data frame is the list of its rows.
    - A function that queries the database takes the frame the query
      returned as its argument. *)

From Stdlib Require Import String Ascii.
From Stdlib Require Import List Bool Arith NArith ZArith QArith Lia.
From Stdlib Require Import Permutation Sorted.
Import ListNotations.

Local Open Scope nat_scope.

(* ================================================================= *)
(** ** Python strings *)

Definition char := N.
Definition str := list char.

(** Reading a literal of this file: its bytes are UTF-8 (sequences of one
    to three bytes). *)
Fixpoint utf8 (bs : list N) : str :=
  match bs with
  | [] => []
  | b :: r =>
      if (b <? 128)%N then b :: utf8 r
      else
        match r with
        | [] => [b]
        | b1 :: r1 =>
            if (b <? 224)%N then ((b - 192) * 64 + (b1 - 128))%N :: utf8 r1
            else
              match r1 with
              | [] => [b]
              | b2 :: r2 =>
                  ((b - 224) * 4096 + (b1 - 128) * 64 + (b2 - 128))%N :: utf8 r2
              end
        end
  end.

Definition str_of (s : string) : str :=
  utf8 (map N_of_ascii (list_ascii_of_string s)).

Definition between (lo hi c : N) : bool := ((lo <=? c) && (c <=? hi))%N.

Definition char_in (cs : list N) (c : N) : bool := existsb (N.eqb c) cs.

(** [str.isspace] and the class [\s] of [re] (the same table,
    [Py_UNICODE_ISSPACE]). *)
Definition is_space (c : char) : bool :=
  between 9 13 c || between 28 32 c
  || char_in [133; 160; 5760; 8232; 8233; 8239; 8287; 12288]%N c
  || between 8192 8202 c.

(** U+0000..U+00FF: the class [\w] ([str.isalnum] or an underscore). *)
Definition latin1_word (c : char) : bool :=
  between 48 57 c || between 65 90 c || (c =? 95)%N || between 97 122 c
  || char_in [170; 178; 179; 181; 185; 186; 188; 189; 190]%N c
  || between 192 214 c || between 216 246 c || between 248 255 c.

(** U+0000..U+00FF: the class [\d] (decimal digits). *)
Definition latin1_digit (c : char) : bool := between 48 57 c.

(** U+0000..U+00FF: the lowercase mapping of one code point. *)
Definition latin1_lower (c : char) : char :=
  if between 65 90 c || between 192 214 c || between 216 222 c
  then (c + 32)%N else c.

(** The tables from U+0100 on. [ext_lower] sees the text around the code
    point (left context nearest first, then the right context), as
    [str.lower] does for the Greek capital sigma; it may return several
    code points. Whatever lowering produces is left alone by lowering. *)
Class UnicodeExt := {
  ext_word : char -> bool;
  ext_digit : char -> bool;
  ext_lower : str -> char -> str -> str;
  ext_lower_stable :
    forall before c after x,
      (256 <= c)%N -> In x (ext_lower before c after) ->
      if (x <? 256)%N then latin1_lower x = x
      else forall before' after', ext_lower before' x after' = [x]
}.

Section Unicode.
Context {U : UnicodeExt}.

Definition is_word (c : char) : bool :=
  if (c <? 256)%N then latin1_word c else ext_word c.

Definition is_digit (c : char) : bool :=
  if (c <? 256)%N then latin1_digit c else ext_digit c.

Definition lower_cp (before : str) (c : char) (after : str) : str :=
  if (c <? 256)%N then [latin1_lower c] else ext_lower before c after.

Fixpoint lower_from (before s : str) : str :=
  match s with
  | [] => []
  | c :: after => lower_cp before c after ++ lower_from (c :: before) after
  end.

(** [s.lower()] *)
Definition lower (s : str) : str := lower_from [] s.

End Unicode.

(** [needle in s] *)
Fixpoint starts_with (p s : str) : bool :=
  match p, s with
  | [], _ => true
  | a :: p', b :: s' => (a =? b)%N && starts_with p' s'
  | _ :: _, [] => false
  end.

Fixpoint contains (needle s : str) : bool :=
  starts_with needle s ||
  match s with
  | [] => false
  | _ :: s' => contains needle s'
  end.

(** [s.lstrip()], [s.rstrip()], [s.strip()] *)
Fixpoint lstrip (s : str) : str :=
  match s with
  | [] => []
  | c :: r => if is_space c then lstrip r else s
  end.

Fixpoint rstrip (s : str) : str :=
  match s with
  | [] => []
  | c :: r =>
      match rstrip r with
      | [] => if is_space c then [] else [c]
      | r' => c :: r'
      end
  end.

Definition strip (s : str) : str := rstrip (lstrip s).

(* ================================================================= *)
(** ** The [re] module *)

(** A pattern, tried at one position of the subject: the text before the
    position (nearest character first, for [\b]) and the text from it on.
    The answer is the length of the match that starts there and what the
    groups captured. No pattern of the module matches the empty string. *)
Definition pattern (G : Type) := str -> str -> option (nat * G).

(** Length of the longest prefix made of characters of a class (a greedy
    [c+] or [c*]). *)
Fixpoint run_length (f : char -> bool) (s : str) : nat :=
  match s with
  | c :: r => if f c then S (run_length f r) else 0
  | [] => 0
  end.

Section Re.
Context {G : Type}.

(** [re.sub(p, repl, s)]: leftmost matches, none overlapping another;
    [inside] counts the characters of the current match still to skip. *)
Fixpoint re_sub_from (p : pattern G) (repl before : str) (inside : nat) (s : str)
  : str :=
  match s with
  | [] => []
  | c :: r =>
      match inside with
      | S k => re_sub_from p repl (c :: before) k r
      | O =>
          match p before s with
          | Some (S k, _) => repl ++ re_sub_from p repl (c :: before) k r
          | _ => c :: re_sub_from p repl (c :: before) 0 r
          end
      end
  end.

Definition re_sub (p : pattern G) (repl s : str) : str :=
  re_sub_from p repl [] 0 s.

(** [p.findall(s)]: the groups of the same matches, left to right. *)
Fixpoint re_findall_from (p : pattern G) (before : str) (inside : nat) (s : str)
  : list G :=
  match s with
  | [] => []
  | c :: r =>
      match inside with
      | S k => re_findall_from p (c :: before) k r
      | O =>
          match p before s with
          | Some (S k, g) => g :: re_findall_from p (c :: before) k r
          | _ => re_findall_from p (c :: before) 0 r
          end
      end
  end.

Definition re_findall (p : pattern G) (s : str) : list G :=
  re_findall_from p [] 0 s.

(** [re.search(p, s) is not None] *)
Fixpoint re_search_from (p : pattern G) (before s : str) : bool :=
  match s with
  | [] => false
  | c :: r =>
      match p before s with
      | Some (S _, _) => true
      | _ => re_search_from p (c :: before) r
      end
  end.

Definition re_search (p : pattern G) (s : str) : bool := re_search_from p [] s.

End Re.

(* ================================================================= *)
(** ** Lists the way Python and numpy use them *)

(** [l[k:]] and [l[:k]] for any integer [k] (a negative [k] counts from
    the end; nothing is ever out of range). *)
Definition slice_from {A} (k : Z) (l : list A) : list A :=
  if (0 <=? k)%Z then skipn (Z.to_nat k) l
  else skipn (length l - Z.to_nat (- k)) l.

Definition slice_to {A} (k : Z) (l : list A) : list A :=
  if (0 <=? k)%Z then firstn (Z.to_nat k) l
  else firstn (length l - Z.to_nat (- k)) l.

Section Sorting.
Context {A : Type} (leb : A -> A -> bool).

(** A stable sort: [x] goes before the first element it is not above, so
    among equal keys the earlier element stays first. *)
Fixpoint insert (x : A) (l : list A) : list A :=
  match l with
  | [] => [x]
  | y :: t => if leb x y then x :: l else y :: insert x t
  end.

Fixpoint sort (l : list A) : list A :=
  match l with
  | [] => []
  | x :: t => insert x (sort t)
  end.

End Sorting.

(** [sorted(l, key=key)] and [sorted(l, key=key, reverse=True)]; both keep
    the order of elements with equal keys. *)
Definition sorted_by {A} (key : A -> Q) (l : list A) : list A :=
  sort (fun x y => Qle_bool (key x) (key y)) l.

Definition sorted_by_reverse {A} (key : A -> Q) (l : list A) : list A :=
  sort (fun x y => Qle_bool (key y) (key x)) l.

(** [a.argsort()]: the indices of [a] in ascending order of value. (numpy
    leaves the order of equal values open; here the smaller index comes
    first.) *)
Definition argsort (a : list Q) : list nat :=
  sorted_by (fun i => nth i a 0%Q) (seq 0 (length a)).

(** Comparison of strings, code point by code point. *)
Fixpoint str_eqb (a b : str) : bool :=
  match a, b with
  | [], [] => true
  | x :: a', y :: b' => (x =? y)%N && str_eqb a' b'
  | _, _ => false
  end.

Fixpoint str_leb (a b : str) : bool :=
  match a, b with
  | [], _ => true
  | _ :: _, [] => false
  | x :: a', y :: b' =>
      if (x <? y)%N then true else if (y <? x)%N then false else str_leb a' b'
  end.

Definition mem (x : str) (l : list str) : bool := existsb (str_eqb x) l.

(** Number of occurrences of [x] in [l]. *)
Definition count (x : str) (l : list str) : Z :=
  Z.of_nat (length (filter (str_eqb x) l)).

(** [sep.join(parts)] *)
Fixpoint join (sep : str) (parts : list str) : str :=
  match parts with
  | [] => []
  | [x] => x
  | x :: rest => x ++ sep ++ join sep rest
  end.

(** The distinct elements in the order in which they first appear (the
    key order of a [dict] filled from [l]). *)
Fixpoint distinct {A} (eqb : A -> A -> bool) (seen l : list A) : list A :=
  match l with
  | [] => []
  | x :: r =>
      if existsb (eqb x) seen then distinct eqb seen r
      else x :: distinct eqb (x :: seen) r
  end.

Definition sum_Z (l : list Z) : Z := fold_right Z.add 0%Z l.
Definition sum_Q (l : list Q) : Q := fold_right Qplus 0%Q l.

Fixpoint zip_with {A B C} (f : A -> B -> C) (a : list A) (b : list B) : list C :=
  match a, b with
  | x :: a', y :: b' => f x y :: zip_with f a' b'
  | _, _ => []
  end.

(* ================================================================= *)
(** ** Exceptions *)

Inductive exn : Type :=
| ValueError (msg : string).

Inductive result (A : Type) : Type :=
| Ok (a : A)
| Raise (e : exn).
Arguments Ok {A} a.
Arguments Raise {A} e.

Definition bind {A B} (m : result A) (k : A -> result B) : result B :=
  match m with
  | Ok a => k a
  | Raise e => Raise e
  end.

(** [try: body  except Exception as e: handler(e)] *)
Definition try_except {A} (body : result A) (handler : exn -> result A) : result A :=
  match body with
  | Ok a => Ok a
  | Raise e => handler e
  end.

Notation "x <- m ;; k" := (bind m (fun x => k))
  (at level 61, m at next level, right associativity).

Definition Qlt_bool (x y : Q) : bool := negb (Qle_bool y x).

(* ================================================================= *)
(** ** scikit-learn: [CountVectorizer], [TfidfVectorizer] *)

(** [min_df] and [max_df]: an [int] is a number of documents, a [float] a
    share of the documents. *)
Inductive df_bound : Type :=
| Docs (n : Z)
| Share (q : Q).

Record Vectorizer : Type := {
  max_features : option nat;
  stop_words : list str;
  min_df : df_bound;
  max_df : df_bound;
  ngram_range : nat * nat
}.

(** A document-term matrix with its vocabulary: the terms in column
    order, each with its column (one entry per document). *)
Definition matrix (V : Type) := list (str * list V).

(** numpy's logarithm and square root, as functions on the rationals. *)
Class FloatOps := {
  ln : Q -> Q;
  sqrt : Q -> Q
}.

Section Sklearn.
Context {U : UnicodeExt}.

(** [token_pattern = r"(?u)\b\w\w+\b"]: the runs of two or more word
    characters. *)
Definition token_pattern : pattern str := fun before s =>
  let at_boundary :=
    match before with
    | b :: _ => negb (is_word b)
    | [] => true
    end in
  let n := run_length is_word s in
  if at_boundary && (2 <=? n) then Some (n, firstn n s) else None.

(** The [n]-grams of [_word_ngrams]: [" ".join(tokens[i : i + n])] for [i]
    in [range(len(tokens) - n + 1)]. *)
Definition ngrams (n : nat) (tokens : list str) : list str :=
  map (fun i => join (str_of " ") (firstn n (skipn i tokens)))
      (seq 0 (length tokens - n + 1)).

(** [_word_ngrams(tokens, stop_words)] *)
Definition word_ngrams (v : Vectorizer) (tokens : list str) : list str :=
  let tokens := filter (fun w => negb (mem w (stop_words v))) tokens in
  let (min_n, max_n) := ngram_range v in
  if max_n =? 1 then tokens
  else
    let original_tokens := tokens in
    let (tokens, min_n) :=
      if min_n =? 1 then (original_tokens, min_n + 1) else ([], min_n) in
    let n_original_tokens := length original_tokens in
    tokens ++
    flat_map (fun n => ngrams n original_tokens)
      (seq min_n (Nat.min (max_n + 1) (n_original_tokens + 1) - min_n)).

(** [build_analyzer()]: lowercase, tokenize, drop stop words, n-grams. *)
Definition analyze (v : Vectorizer) (doc : str) : list str :=
  word_ngrams v (re_findall token_pattern (lower doc)).

(** The counts of the terms of [vocabulary] in the analyzed documents. *)
Definition count_vocab (vocabulary : list str) (docs : list (list str)) : matrix Z :=
  map (fun t => (t, map (count t) docs)) vocabulary.

(** [_document_frequency]: the number of non-zero entries of a column. *)
Definition document_frequency (column : list Z) : Z :=
  Z.of_nat (length (filter (fun c => negb (c =? 0)%Z) column)).

(** [_sort_features]: the columns in alphabetical order of their terms. *)
Definition sort_features (X : matrix Z) : matrix Z :=
  sort (fun a b => str_leb (fst a) (fst b)) X.

(** The elements of [l] whose index satisfies [keep], in order
    ([l[mask]] for a boolean mask). *)
Definition select {A} (keep : nat -> bool) (l : list A) : list A :=
  map snd (filter (fun p => keep (fst p)) (combine (seq 0 (length l)) l)).

(** [_limit_features(X, vocabulary, high, low, limit)] *)
Definition limit_features (X : matrix Z) (high low : Q) (limit : option nat)
  : result (matrix Z) :=
  let dfs := fun col : str * list Z => inject_Z (document_frequency (snd col)) in
  let masked :=
    filter (fun col => Qle_bool (dfs col) high && Qle_bool low (dfs col)) X in
  let kept :=
    match limit with
    | Some limit =>
        if limit <? length masked then
          let tfs := map (fun col => inject_Z (sum_Z (snd col))) masked in
          let mask_inds := firstn limit (argsort (map Qopp tfs)) in
          select (fun i => existsb (Nat.eqb i) mask_inds) masked
        else masked
    | None => masked
    end in
  match kept with
  | [] => Raise (ValueError
            "After pruning, no terms remain. Try a lower min_df or a higher max_df.")
  | _ => Ok kept
  end.

Definition doc_count (b : df_bound) (n_doc : nat) : Q :=
  match b with
  | Docs n => inject_Z n
  | Share q => (q * inject_Z (Z.of_nat n_doc))%Q
  end.

(** [CountVectorizer.fit_transform(raw_documents)]; the vocabulary that
    [fit] learns is the list of terms of the result. *)
Definition fit_transform (v : Vectorizer) (raw_documents : list str)
  : result (matrix Z) :=
  let docs := map (analyze v) raw_documents in
  let vocabulary := distinct str_eqb [] (concat docs) in
  match vocabulary with
  | [] => Raise (ValueError
            "empty vocabulary; perhaps the documents only contain stop words")
  | _ =>
      let X := count_vocab vocabulary docs in
      let n_doc := length raw_documents in
      let max_doc_count := doc_count (max_df v) n_doc in
      let min_doc_count := doc_count (min_df v) n_doc in
      if Qlt_bool max_doc_count min_doc_count then
        Raise (ValueError "max_df corresponds to < documents than min_df")
      else
        match max_features v with
        | Some _ =>
            limit_features (sort_features X) max_doc_count min_doc_count
              (max_features v)
        | None =>
            X' <- limit_features X max_doc_count min_doc_count None ;;
            Ok (sort_features X')
        end
  end.

(** [CountVectorizer.transform(raw_documents)] with a fitted vocabulary. *)
Definition transform (v : Vectorizer) (vocabulary : list str)
    (raw_documents : list str) : matrix Z :=
  count_vocab vocabulary (map (analyze v) raw_documents).

Context {F : FloatOps}.

(** [TfidfTransformer().fit_transform(X)]: smoothed idf, then every row
    divided by its Euclidean norm (a row of zeros is left as it is). *)
Definition tfidf_transform (n_doc : nat) (X : matrix Z) : matrix Q :=
  let n := inject_Z (Z.of_nat n_doc) in
  let weighted :=
    map (fun col : str * list Z =>
           let df := inject_Z (document_frequency (snd col)) in
           let idf := (ln ((1 + n) / (1 + df)) + 1)%Q in
           (fst col, map (fun c => inject_Z c * idf)%Q (snd col))) X in
  let norms :=
    map (fun i =>
           sqrt (sum_Q (map (fun col : str * list Q =>
                               nth i (snd col) 0 * nth i (snd col) 0)%Q weighted)))
        (seq 0 n_doc) in
  map (fun col : str * list Q =>
         (fst col,
          zip_with (fun w norm => if Qeq_bool norm 0 then w else w / norm)%Q
            (snd col) norms)) weighted.

(** [TfidfVectorizer.fit_transform(raw_documents)] *)
Definition tfidf_fit_transform (v : Vectorizer) (raw_documents : list str)
  : result (matrix Q) :=
  X <- fit_transform v raw_documents ;;
  Ok (tfidf_transform (length raw_documents) X).

End Sklearn.

(* ================================================================= *)
(** ** alcalor_analysis/nlp.py *)

Module Tfidf.
Record row : Type := { term : str; tfidf_score : Q }.
End Tfidf.

Module Emerging.
Record row : Type := {
  term : str;
  emergence_score : Q;
  target_freq : Q;
  baseline_freq : Q
}.
End Emerging.

Module Cooccurrence.
Record row : Type := { cooccurring_term : str; frequency : Z }.
End Cooccurrence.

Module Actors.
(** A row of [SELECT title, body FROM articles]. *)
Record article : Type := { title : option str; body : option str }.
Record row : Type := { actor : str; mentions : Z }.
End Actors.

Module Sentiment.
(** A row of the table [articles]: the year of [publication_date] (the
    date may be NULL) and the body. *)
Record article : Type := { year : option Z; body : option str }.
Record row : Type := {
  año : option Z;
  total_articulos : Z;
  articulos_positivos : Z;
  articulos_negativos : Z;
  pct_positivo : Q;
  pct_negativo : Q;
  balance_sentimiento : Q
}.
End Sentiment.

(** Spanish stopwords (extended list) *)
Definition STOPWORDS_ES : list str := map str_of [
  "de"; "la"; "que"; "el"; "en"; "y"; "a"; "los"; "del"; "se"; "las"; "por";
  "un"; "para"; "con"; "no"; "una"; "su"; "al"; "lo"; "como"; "más"; "pero";
  "sus"; "le"; "ya"; "o"; "este"; "sí"; "porque"; "esta"; "entre"; "cuando";
  "muy"; "sin"; "sobre"; "también"; "me"; "hasta"; "hay"; "donde"; "quien";
  "desde"; "todo"; "nos"; "durante"; "todos"; "uno"; "les"; "ni"; "contra";
  "otros"; "ese"; "eso"; "ante"; "ellos"; "e"; "esto"; "mí"; "antes";
  "algunos"; "qué"; "unos"; "yo"; "otro"; "otras"; "otra"; "él"; "tanto";
  "esa"; "estos"; "mucho"; "quienes"; "nada"; "muchos"; "cual"; "poco";
  "ella"; "estar"; "estas"; "algunas"; "algo"; "nosotros"; "mi"; "mis"; "tú";
  "te"; "ti"; "tu"; "tus"; "ellas"; "nosotras"; "vosotros"; "vosotras"; "os";
  "mío"; "mía"; "míos"; "mías"; "tuyo"; "tuya"; "tuyos"; "tuyas"; "suyo";
  "suya"; "suyos"; "suyas"; "nuestro"; "nuestra"; "nuestros"; "nuestras";
  "vuestro"; "vuestra"; "vuestros"; "vuestras"; "esos"; "esas"; "estoy";
  "estás"; "está"; "estamos"; "estáis"; "están"; "esté"; "estés"; "estemos";
  "estéis"; "estén"; "estaré"; "estarás"; "estará"; "estaremos"; "estaréis";
  "estarán"; "estaría"; "estarías"; "estaríamos"; "estaríais"; "estarían";
  "estaba"; "estabas"; "estábamos"; "estabais"; "estaban"; "estuve";
  "estuviste"; "estuvo"; "estuvimos"; "estuvisteis"; "estuvieron";
  "estuviera"; "estuvieras"; "estuviéramos"; "estuvierais"; "estuvieran";
  "estuviese"; "estuvieses"; "estuviésemos"; "estuvieseis"; "estuviesen";
  "estando"; "estado"; "estada"; "estados"; "estadas"; "estad"; "he"; "has";
  "ha"; "hemos"; "habéis"; "han"; "haya"; "hayas"; "hayamos"; "hayáis";
  "hayan"; "habré"; "habrás"; "habrá"; "habremos"; "habréis"; "habrán";
  "habría"; "habrías"; "habríamos"; "habríais"; "habrían"; "había"; "habías";
  "habíamos"; "habíais"; "habían"; "hube"; "hubiste"; "hubo"; "hubimos";
  "hubisteis"; "hubieron"; "hubiera"; "hubieras"; "hubiéramos"; "hubierais";
  "hubieran"; "hubiese"; "hubieses"; "hubiésemos"; "hubieseis"; "hubiesen";
  "habiendo"; "habido"; "habida"; "habidos"; "habidas"; "soy"; "eres"; "es";
  "somos"; "sois"; "son"; "sea"; "seas"; "seamos"; "seáis"; "sean"; "seré";
  "serás"; "será"; "seremos"; "seréis"; "serán"; "sería"; "serías";
  "seríamos"; "seríais"; "serían"; "era"; "eras"; "éramos"; "erais"; "eran";
  "fui"; "fuiste"; "fue"; "fuimos"; "fuisteis"; "fueron"; "fuera"; "fueras";
  "fuéramos"; "fuerais"; "fueran"; "fuese"; "fueses"; "fuésemos"; "fueseis";
  "fuesen"; "siendo"; "sido"; "tengo"; "tienes"; "tiene"; "tenemos";
  "tenéis"; "tienen"; "tenga"; "tengas"; "tengamos"; "tengáis"; "tengan";
  "tendré"; "tendrás"; "tendrá"; "tendremos"; "tendréis"; "tendrán";
  "tendría"; "tendrías"; "tendríamos"; "tendríais"; "tendrían"; "tenía";
  "tenías"; "teníamos"; "teníais"; "tenían"; "tuve"; "tuviste"; "tuvo";
  "tuvimos"; "tuvisteis"; "tuvieron"; "tuviera"; "tuvieras"; "tuviéramos";
  "tuvierais"; "tuvieran"; "tuviese"; "tuvieses"; "tuviésemos"; "tuvieseis";
  "tuviesen"; "teniendo"; "tenido"; "tenida"; "tenidos"; "tenidas"; "tened";
  "así"; "cada"; "hacer"; "hecho"; "sido"; "puede"; "pueden"; "podría";
  "dijo"; "señaló"; "indicó"; "afirmó"; "explicó"; "comentó"; "añadió";
  "aseguró"; "manifestó"; "expresó"; "destacó"; "informó"; "dijo"; "año";
  "años"; "día"; "días"; "vez"; "veces"; "parte"; "además"; "ahora";
  "después"; "dos"; "tres"; "primer"; "primera"; "segundo"; "nueva"; "nuevo";
  "solo"; "tras"; "siempre"; "menos"; "según"; "ser"; "sido"; "ver"; "hacer";
  "ir"; "dar"; "decir"; "solo"; "mismo"; "misma"; "mismos"; "mismas";
  "luego"; "bien"; "manera"; "forma"; "caso"; "hecho"; "entonces";
  "mientras"; "aunque"; "embargo"; "debe"; "hacia"; "pues"; "pasado"; "sido";
  "haber"; "través"; "medio"; "cuenta"; "punto"; "general"; "tan"; "sido";
  "vez"; "veces"; "ciento"; "mil"; "millones"; "pesos"; "ciudad"
]%string.

(** Sentiment lexicons (simplified Spanish). No function of the module
    reads them: [analyze_sentiment_by_year] has keyword lists of its own
    in its query. *)
Definition POSITIVE_WORDS : list str := map str_of [
  "éxito"; "exito"; "logro"; "lograr"; "avance"; "mejora"; "mejorar";
  "beneficio"; "beneficiar"; "positivo"; "crecimiento"; "crecer";
  "desarrollo"; "desarrollar"; "apoyo"; "apoyar"; "acuerdo"; "colaboración";
  "colaborar"; "progreso"; "progresar"; "inversión"; "invertir";
  "oportunidad"; "solución"; "resolver"; "victoria"; "ganar"; "celebrar";
  "celebración"; "inaugurar"; "inauguración"; "reconocimiento"; "reconocer";
  "premio"; "premiar"; "felicitar"; "felicitación"; "bienestar"; "esperanza";
  "optimismo"; "optimista"; "satisfacción"; "satisfecho"; "excelente";
  "extraordinario"; "notable"; "destacado"; "sobresaliente"; "impresionante";
  "maravilloso"; "fantástico"; "increíble"; "espectacular"; "triunfo";
  "triunfar"
]%string.

Definition NEGATIVE_WORDS : list str := map str_of [
  "crisis"; "problema"; "problemático"; "conflicto"; "violencia"; "violento";
  "muerte"; "muerto"; "matar"; "asesinar"; "asesinato"; "homicidio";
  "ejecutar"; "ejecutado"; "secuestro"; "secuestrar"; "robo"; "robar";
  "asalto"; "asaltar"; "corrupción"; "corrupto"; "fraude"; "fraudulento";
  "desvío"; "malversación"; "escándalo"; "acusación"; "acusar"; "denunciar";
  "denuncia"; "delito"; "crimen"; "criminal"; "narcotráfico"; "narco";
  "cartel"; "zetas"; "cjng"; "balacera"; "enfrentamiento"; "inseguridad";
  "peligro"; "peligroso"; "amenaza"; "amenazar"; "extorsión"; "extorsionar";
  "desaparición"; "desaparecer"; "desaparecido"; "víctima"; "tragedia";
  "trágico"; "desastre"; "devastación"; "destrucción"; "destruir"; "daño";
  "dañar"; "pérdida"; "perder"; "fracaso"; "fracasar"; "rechazo"; "rechazar";
  "protesta"; "protestar"; "manifestación"; "bloqueo"; "bloquear"; "huelga";
  "paro"; "negligencia"; "negligente"; "incompetencia"; "incompetente";
  "impunidad"; "injusticia"; "ilegal"; "irregularidad"
]%string.

Section Nlp.
Context {U : UnicodeExt}.

Definition non_space (c : char) : bool := negb (is_space c).

(** [lit\S+] *)
Definition literal_non_spaces (lit s : str) : option (nat * unit) :=
  if starts_with lit s then
    match run_length non_space (skipn (length lit) s) with
    | O => None
    | n => Some (length lit + n, tt)
    end
  else None.

(** [r'http\S+|www\S+'] *)
Definition url_pattern : pattern unit := fun _ s =>
  match literal_non_spaces (str_of "http") s with
  | Some m => Some m
  | None => literal_non_spaces (str_of "www") s
  end.

(** [r'\S+@\S+']: both [\S+] are greedy, so a match covers the whole run
    of non-space characters that begins at the position; it exists when
    some [@] of the run (U+0040) is neither its first nor its last
    character. *)
Definition email_pattern : pattern unit := fun _ s =>
  let n := run_length non_space s in
  match firstn n s with
  | _ :: rest => if char_in (removelast rest) 64%N then Some (n, tt) else None
  | [] => None
  end.

(** [r'\d+'] *)
Definition digits_pattern : pattern unit := fun _ s =>
  match run_length is_digit s with
  | O => None
  | n => Some (n, tt)
  end.

(** [r'[^\w\sáéíóúüñ]'] *)
Definition special_pattern : pattern unit := fun _ s =>
  match s with
  | c :: _ =>
      if is_word c || is_space c || char_in (str_of "áéíóúüñ") c then None
      else Some (1, tt)
  | [] => None
  end.

(** [r'\s+'] *)
Definition spaces_pattern : pattern unit := fun _ s =>
  match run_length is_space s with
  | O => None
  | n => Some (n, tt)
  end.

Definition clean_text (text : option str) : str :=
  match text with
  | None | Some [] => []
  | Some text =>
      (* Lowercase *)
      let text := lower text in
      (* Remove URLs *)
      let text := re_sub url_pattern [] text in
      (* Remove email addresses *)
      let text := re_sub email_pattern [] text in
      (* Remove numbers *)
      let text := re_sub digits_pattern [] text in
      (* Remove special characters but keep accents *)
      let text := re_sub special_pattern (str_of " ") text in
      (* Remove extra whitespace *)
      strip (re_sub spaces_pattern (str_of " ") text)
  end.

(** [tfidf_matrix.mean(axis=0)], one column at a time. *)
Definition mean (column : list Q) : Q :=
  (sum_Q column / inject_Z (Z.of_nat (length column)))%Q.

Definition tfidf_vectorizer : Vectorizer := {|
  max_features := Some 1000;
  stop_words := STOPWORDS_ES;
  min_df := Docs 5;
  max_df := Share 0.7;
  ngram_range := (1, 2)
|}.

Section WithFloats.
Context {F : FloatOps}.

(** [articles]: the column [body] of the frame the query returned. *)
Definition get_tfidf_by_period (articles : list (option str)) (top_n : Z)
  : result (list Tfidf.row) :=
  if length articles =? 0 then Ok []
  else
    let texts := map clean_text articles in
    let vectorizer := tfidf_vectorizer in
    try_except
      (tfidf_matrix <- tfidf_fit_transform vectorizer texts ;;
       let feature_names := map fst tfidf_matrix in
       (* Average TF-IDF scores across documents *)
       let avg_scores := map (fun col => mean (snd col)) tfidf_matrix in
       let top_indices := rev (slice_from (- top_n) (argsort avg_scores)) in
       Ok (map (fun i => {| Tfidf.term := nth i feature_names [];
                            Tfidf.tfidf_score := nth i avg_scores 0%Q |})
             top_indices))
      (fun e => Ok []).

End WithFloats.

(** The three arrays of [find_emerging_terms] over the fitted vocabulary:
    [target_freq], [comparison_freq] and [emergence_score]. *)
Definition frequencies_per_document (X : matrix Z) (n_texts : nat) : list Q :=
  map (fun col => inject_Z (sum_Z (snd col)) / inject_Z (Z.of_nat n_texts))%Q X.

Definition emergence_scores (target_freq comparison_freq : list Q) : list Q :=
  zip_with (fun t c => (t + 0.001) / (c + 0.001))%Q target_freq comparison_freq.

Definition emerging_vectorizer : Vectorizer := {|
  max_features := Some 2000;
  stop_words := STOPWORDS_ES;
  min_df := Docs 3;
  max_df := Share 1;
  ngram_range := (1, 2)
|}.

(** [target_articles], [comparison_articles]: the column [body] of the
    two frames the queries returned. *)
Definition find_emerging_terms (target_articles comparison_articles : list (option str))
    (top_n : Z) : result (list Emerging.row) :=
  if (length target_articles =? 0) || (length comparison_articles =? 0) then Ok []
  else
    let target_texts := map clean_text target_articles in
    let comparison_texts := map clean_text comparison_articles in
    let vectorizer := emerging_vectorizer in
    try_except
      ((* Fit on combined corpus *)
       let all_texts := target_texts ++ comparison_texts in
       fitted <- fit_transform vectorizer all_texts ;;
       let feature_names := map fst fitted in
       let target_matrix := transform vectorizer feature_names target_texts in
       let comparison_matrix := transform vectorizer feature_names comparison_texts in
       (* Calculate frequencies (normalized by document count) *)
       let target_freq :=
         frequencies_per_document target_matrix (length target_texts) in
       let comparison_freq :=
         frequencies_per_document comparison_matrix (length comparison_texts) in
       (* Calculate emergence score (ratio with smoothing) *)
       let emergence_score := emergence_scores target_freq comparison_freq in
       (* Filter for terms that actually appear enough in target year *)
       let min_target_freq := 0.01%Q in
       let valid_indices :=
         filter (fun i => Qlt_bool min_target_freq (nth i target_freq 0%Q))
           (seq 0 (length target_freq)) in
       (* Sort by emergence score *)
       let sorted_indices :=
         slice_to top_n
           (map (fun k => nth k valid_indices 0)
              (rev (argsort (map (fun i => nth i emergence_score 0%Q) valid_indices)))) in
       Ok (map (fun i => {| Emerging.term := nth i feature_names [];
                            Emerging.emergence_score := nth i emergence_score 0%Q;
                            Emerging.target_freq := nth i target_freq 0%Q;
                            Emerging.baseline_freq := nth i comparison_freq 0%Q |})
             sorted_indices))
      (fun e => Ok []).

Definition cooccurrence_vectorizer : Vectorizer := {|
  max_features := Some 500;
  stop_words := STOPWORDS_ES;
  min_df := Docs 3;
  max_df := Share 1;
  ngram_range := (1, 1)
|}.

(** [articles]: the column [body] of the frame the query returned (the
    rows whose body contains [term]). *)
Definition find_cooccurrences (term : str) (articles : list (option str)) (top_n : Z)
  : result (list Cooccurrence.row) :=
  if length articles =? 0 then Ok []
  else
    let texts := map clean_text articles in
    let vectorizer := cooccurrence_vectorizer in
    try_except
      (count_matrix <- fit_transform vectorizer texts ;;
       let feature_names := map fst count_matrix in
       (* Sum frequencies *)
       let frequencies := map (fun col => sum_Z (snd col)) count_matrix in
       (* Remove the search term itself *)
       let term_lower := lower term in
       let valid_indices :=
         filter (fun i => negb (contains term_lower (nth i feature_names [])))
           (seq 0 (length feature_names)) in
       (* Sort by frequency *)
       let sorted_indices :=
         slice_to top_n
           (sorted_by_reverse (fun i => inject_Z (nth i frequencies 0%Z))
              valid_indices) in
       Ok (map (fun i => {| Cooccurrence.cooccurring_term := nth i feature_names [];
                            Cooccurrence.frequency := nth i frequencies 0%Z |})
             sorted_indices))
      (fun e => Ok []).

(** [[A-ZÁÉÍÓÚÑ]] and [[a-záéíóúñ]] *)
Definition upper_es (c : char) : bool :=
  between 65 90 c || char_in (str_of "ÁÉÍÓÚÑ") c.

Definition lower_es (c : char) : bool :=
  between 97 122 c || char_in (str_of "áéíóúñ") c.

(** [[A-ZÁÉÍÓÚÑ][a-záéíóúñ]+] at the head of [s]: the word and what
    follows it. The [+] is greedy; giving characters back never helps the
    patterns below, since what must follow the word is not a lowercase
    letter. *)
Definition capitalized (s : str) : option (str * str) :=
  match s with
  | c :: r =>
      if upper_es c then
        match run_length lower_es r with
        | O => None
        | n => Some (c :: firstn n r, skipn n r)
        end
      else None
  | [] => None
  end.

(** [r'\b([A-ZÁÉÍÓÚÑ][a-záéíóúñ]+)\s+([A-ZÁÉÍÓÚÑ][a-záéíóúñ]+)\b'] *)
Definition name_pattern : pattern (str * str) := fun before s =>
  let at_boundary :=
    match before with
    | b :: _ => negb (is_word b)
    | [] => true
    end in
  if at_boundary then
    match capitalized s with
    | Some (first, after_first) =>
        match run_length is_space after_first with
        | O => None
        | n =>
            match capitalized (skipn n after_first) with
            | Some (last, after_last) =>
                let at_boundary :=
                  match after_last with
                  | c :: _ => negb (is_word c)
                  | [] => true
                  end in
                if at_boundary
                then Some (length first + n + length last, (first, last))
                else None
            | None => None
            end
        end
    | None => None
    end
  else None.

(** Common false positives to filter *)
Definition false_positives : list str := map str_of [
  "Boca Del"; "Del Río"; "De La"; "La Cruz"; "El Puerto"; "Las Vegas";
  "Los Angeles"; "San Juan"; "Nueva York"; "Estados Unidos"; "Al Calor";
  "Calor Político"; "Monte Alto"; "Paso Del"; "Zona Norte"; "Zona Centro"
]%string.

(** A [collections.Counter]: the keys in insertion order with their
    counts. *)
Definition Counter := list (str * Z).

(** [counts[key] += 1] *)
Fixpoint counter_add (counts : Counter) (key : str) : Counter :=
  match counts with
  | [] => [(key, 1%Z)]
  | (k, n) :: rest =>
      if str_eqb key k then (k, (n + 1)%Z) :: rest
      else (k, n) :: counter_add rest key
  end.

(** [counts.most_common(n)] *)
Definition most_common (n : Z) (counts : Counter) : Counter :=
  if (n <=? 0)%Z then []
  else firstn (Z.to_nat n) (sorted_by_reverse (fun kv => inject_Z (snd kv)) counts).

(** [x or ""] *)
Definition or_empty (x : option str) : str :=
  match x with
  | Some s => s
  | None => []
  end.

(** The loop of [extract_key_actors] over the rows, for a given set of
    false positives. *)
Definition count_names (false_positives : list str) (articles : list Actors.article)
  : Counter :=
  fold_left
    (fun name_counts row =>
       let text :=
         or_empty (Actors.title row) ++ str_of " " ++ or_empty (Actors.body row) in
       let matches := re_findall name_pattern text in
       fold_left
         (fun name_counts (m : str * str) =>
            let (first, last) := m in
            let name := first ++ str_of " " ++ last in
            if negb (mem name false_positives)
               && (2 <? length first) && (2 <? length last)
            then counter_add name_counts name
            else name_counts)
         matches name_counts)
    articles [].

(** [extract_key_actors] for a given set of false positives. *)
Definition key_actors (false_positives : list str) (articles : list Actors.article)
    (top_n : Z) : list Actors.row :=
  let name_counts := count_names false_positives articles in
  let top_names := most_common top_n name_counts in
  map (fun kv => {| Actors.actor := fst kv; Actors.mentions := snd kv |}) top_names.

(** [articles]: the frame the query returned. *)
Definition extract_key_actors (articles : list Actors.article) (top_n : Z)
  : list Actors.row :=
  key_actors false_positives articles top_n.

(** The keywords of the two [FILTER] clauses of [analyze_sentiment_by_year]. *)
Definition positive_keywords : list str := map str_of [
  "éxito"; "logro"; "avance"; "mejora"; "beneficio"; "crecimiento";
  "desarrollo"; "inversión"; "progreso"; "victoria"; "celebra"; "inaugura"
]%string.

Definition negative_keywords : list str := map str_of [
  "crisis"; "problema"; "violencia"; "muerte"; "asesin"; "secuestr";
  "corrupción"; "fraude"; "escándalo"; "denuncia"; "delito"; "crimen";
  "narcotráfico"; "cartel"; "inseguridad"
]%string.

(** [body ILIKE '%keyword%']; on a NULL body the test is NULL, which a
    [FILTER] does not count. *)
Definition ilike (body : option str) (keyword : str) : bool :=
  match body with
  | Some b => contains (lower keyword) (lower b)
  | None => false
  end.

Definition flagged (keywords : list str) (a : Sentiment.article) : bool :=
  existsb (ilike (Sentiment.body a)) keywords.

Definition year_eqb (a b : option Z) : bool :=
  match a, b with
  | Some x, Some y => (x =? y)%Z
  | None, None => true
  | _, _ => false
  end.

(** [ORDER BY año]: ascending, NULL last. *)
Definition year_leb (a b : option Z) : bool :=
  match a, b with
  | Some x, Some y => (x <=? y)%Z
  | _, None => true
  | None, Some _ => false
  end.

(** [COUNT( * )] *)
Definition count_rows {A} (rows : list A) : Z := Z.of_nat (length rows).

(** The query of [analyze_sentiment_by_year]: one row per value of the
    year among the articles, with the three counts of its group. *)
Definition sentiment_query (articles : list Sentiment.article)
  : list (option Z * Z * Z * Z) :=
  map (fun y =>
         let group := filter (fun a => year_eqb (Sentiment.year a) y) articles in
         (y,
          count_rows group,
          count_rows (filter (flagged positive_keywords) group),
          count_rows (filter (flagged negative_keywords) group)))
      (sort year_leb (distinct year_eqb [] (map Sentiment.year articles))).

Definition analyze_sentiment_by_year (articles : list Sentiment.article)
  : list Sentiment.row :=
  let sentiment_data := sentiment_query articles in
  (* Calculate ratios *)
  map (fun r : option Z * Z * Z * Z =>
         let '(y, total_articulos, articulos_positivos, articulos_negativos) := r in
         {| Sentiment.año := y;
            Sentiment.total_articulos := total_articulos;
            Sentiment.articulos_positivos := articulos_positivos;
            Sentiment.articulos_negativos := articulos_negativos;
            Sentiment.pct_positivo :=
              (inject_Z articulos_positivos / inject_Z total_articulos * 100)%Q;
            Sentiment.pct_negativo :=
              (inject_Z articulos_negativos / inject_Z total_articulos * 100)%Q;
            Sentiment.balance_sentimiento :=
              (inject_Z (articulos_positivos - articulos_negativos)
               / inject_Z total_articulos * 100)%Q |})
      sentiment_data.

End Nlp.

(* ================================================================= *)
(** ** Vocabulary of the properties *)

(** [l] is [l'] with some of its elements left out. *)
Inductive sublist {A : Type} : list A -> list A -> Prop :=
| sublist_nil : sublist [] []
| sublist_skip x l l' : sublist l l' -> sublist l (x :: l')
| sublist_keep x l l' : sublist l l' -> sublist (x :: l) (x :: l').

Section Vocabulary.
Context {U : UnicodeExt}.

(** A code point that [str.lower] leaves alone wherever it stands. *)
Definition lower_stable (c : char) : Prop :=
  forall before after, lower_cp before c after = [c].

(** The characters that [special_pattern] does not replace. *)
Definition kept (c : char) : bool :=
  is_word c || is_space c || char_in (str_of "áéíóúüñ") c.

(** What holds of every character of a normalized text. *)
Definition clean_char (c : char) : Prop :=
  lower_stable c /\ is_digit c = false /\ kept c = true.

(** The text does not begin with white space. *)
Definition head_non_space (s : str) : bool :=
  match s with
  | c :: _ => negb (is_space c)
  | [] => true
  end.

(** Every white-space character is a U+0020 that no white space follows. *)
Fixpoint isolated (s : str) : bool :=
  match s with
  | [] => true
  | c :: r =>
      (if is_space c then (c =? 32)%N && head_non_space r else true) && isolated r
  end.

(** The same, and after each U+0020 comes another character. *)
Fixpoint spaced (s : str) : bool :=
  match s with
  | [] => true
  | c :: r =>
      (if is_space c
       then (c =? 32)%N && match r with d :: _ => negb (is_space d) | [] => false end
       else true) && spaced r
  end.

(** The number of documents in which a term occurs (its document
    frequency), counted on the analyzed texts. *)
Definition documents_containing (v : Vectorizer) (t : str) (texts : list str) : Z :=
  Z.of_nat (length (filter (fun d => mem t (analyze v d)) texts)).

(** The number of occurrences of a term in all the documents. *)
Definition total_count (v : Vectorizer) (t : str) (texts : list str) : Z :=
  sum_Z (map (fun d => count t (analyze v d)) texts).

(** The rows that [get_tfidf_by_period] builds from the weights. *)
Definition tfidf_rows (tfidf_matrix : matrix Q) (top_n : Z) : list Tfidf.row :=
  let feature_names := map fst tfidf_matrix in
  let avg_scores := map (fun col => mean (snd col)) tfidf_matrix in
  map (fun i => {| Tfidf.term := nth i feature_names [];
                   Tfidf.tfidf_score := nth i avg_scores 0%Q |})
    (rev (slice_from (- top_n) (argsort avg_scores))).

(** The rows that [find_emerging_terms] builds from the three arrays. *)
Definition emerging_rows (feature_names : list str)
    (target_freq comparison_freq : list Q) (top_n : Z) : list Emerging.row :=
  let emergence_score := emergence_scores target_freq comparison_freq in
  let valid_indices :=
    filter (fun i => Qlt_bool 0.01 (nth i target_freq 0%Q))
      (seq 0 (length target_freq)) in
  let sorted_indices :=
    slice_to top_n
      (map (fun k => nth k valid_indices 0)
         (rev (argsort (map (fun i => nth i emergence_score 0%Q) valid_indices)))) in
  map (fun i => {| Emerging.term := nth i feature_names [];
                   Emerging.emergence_score := nth i emergence_score 0%Q;
                   Emerging.target_freq := nth i target_freq 0%Q;
                   Emerging.baseline_freq := nth i comparison_freq 0%Q |})
    sorted_indices.

(** The rows that [find_cooccurrences] builds from the counts. *)
Definition cooccurrence_rows (term : str) (count_matrix : matrix Z) (top_n : Z)
  : list Cooccurrence.row :=
  let feature_names := map fst count_matrix in
  let frequencies := map (fun col => sum_Z (snd col)) count_matrix in
  let term_lower := lower term in
  let valid_indices :=
    filter (fun i => negb (contains term_lower (nth i feature_names [])))
      (seq 0 (length feature_names)) in
  let sorted_indices :=
    slice_to top_n
      (sorted_by_reverse (fun i => inject_Z (nth i frequencies 0%Z)) valid_indices) in
  map (fun i => {| Cooccurrence.cooccurring_term := nth i feature_names [];
                   Cooccurrence.frequency := nth i frequencies 0%Z |})
    sorted_indices.

(** [Counter.__getitem__]: the count of a key, 0 for a missing key. *)
Fixpoint counter_get (counts : Counter) (key : str) : Z :=
  match counts with
  | [] => 0%Z
  | (k, n) :: rest => if str_eqb key k then n else counter_get rest key
  end.

(** The keys of a counter are distinct and its counts are positive. *)
Definition counter_wf (counts : Counter) : Prop :=
  NoDup (map fst counts) /\ Forall (fun kv => (1 <= snd kv)%Z) counts.

(** The text that [extract_key_actors] scans for a row. *)
Definition scanned_text (row : Actors.article) : str :=
  or_empty (Actors.title row) ++ str_of " " ++ or_empty (Actors.body row).

(** The candidate name of a match. *)
Definition full_name (m : str * str) : str := fst m ++ str_of " " ++ snd m.

(** The test of the loop: not a false positive, both words longer than
    two characters. *)
Definition accepted (false_positives : list str) (m : str * str) : bool :=
  negb (mem (full_name m) false_positives)
  && (2 <? length (fst m)) && (2 <? length (snd m)).

(** The names that the loop counts, in order: for each row, the accepted
    matches that [findall] returns for its text. *)
Definition candidate_names (false_positives : list str)
    (articles : list Actors.article) : list str :=
  flat_map (fun row =>
              map full_name
                (filter (accepted false_positives)
                   (re_findall name_pattern (scanned_text row))))
    articles.

(** Every position of the subject at which the pattern matches, whether
    or not the match overlaps an earlier one. *)
Fixpoint re_occurrences_from {G} (p : pattern G) (before s : str) : list G :=
  match s with
  | [] => []
  | c :: r =>
      match p before s with
      | Some (S _, g) => g :: re_occurrences_from p (c :: before) r
      | _ => re_occurrences_from p (c :: before) r
      end
  end.

(** The articles of one partition: those of a given year. *)
Definition partition_of (y : option Z) (articles : list Sentiment.article)
  : list Sentiment.article :=
  filter (fun a => year_eqb (Sentiment.year a) y) articles.

(** The run of characters other than white space that a text begins
    with. *)
Fixpoint first_token (s : str) : str :=
  match s with
  | c :: r => if is_space c then [] else c :: first_token r
  | [] => []
  end.

(** A run of characters that [url_pattern] matches from its first
    character on: [http] or [www] and at least one character more. *)
Definition url_token (w : str) : bool :=
  (starts_with (str_of "http") w && (4 <? length w))
  || (starts_with (str_of "www") w && (3 <? length w)).

(** No position of the text begins such a run. *)
Fixpoint url_free (s : str) : bool :=
  match s with
  | [] => true
  | _ :: r => negb (url_token (first_token s)) && url_free r
  end.

(** The shape of a normalized text: characters that lowercasing, the
    digit pattern and the special-character pattern leave alone, single
    U+0020 between words, no white space at either end. *)
Definition normalized (t : str) : Prop :=
  Forall clean_char t /\ head_non_space t = true /\ spaced t = true.

(** A word of a normalized text that a vectorizer keeps: two or more word
    characters, none of them a digit, and not a stop word. *)
Definition kept_word (stop : list str) (w : str) : Prop :=
  2 <= length w /\
  Forall (fun c => is_word c = true /\ is_digit c = false) w /\
  mem w stop = false.

(** One to [n] such words, joined by single U+0020. *)
Definition phrase (stop : list str) (n : nat) (t : str) : Prop :=
  exists words,
    t = join (str_of " ") words /\
    1 <= length words <= n /\
    Forall (kept_word stop) words.

(** A word that [[A-ZÁÉÍÓÚÑ][a-záéíóúñ]+] matches and the loop of
    [extract_key_actors] accepts: a capital and two or more lowercase
    letters. *)
Definition name_word (w : str) : Prop :=
  exists c rest,
    w = c :: rest /\ upper_es c = true /\
    2 <= length rest /\ Forall (fun c => lower_es c = true) rest.

End Vocabulary.

(* ================================================================= *)
(** ** A character database and sample inputs to compute with *)

(** The extension that knows one code point beyond Latin-1: U+0130, the
    capital I with a dot above, whose lowercase is U+0069 U+0307. *)
Definition dotted_I_lower (c : char) : str :=
  if (c =? 304)%N then [105; 775]%N else [c].

#[export] Instance dotted_I_ext : UnicodeExt.
Proof.
  refine {| ext_word := fun _ => false;
            ext_digit := fun _ => false;
            ext_lower := fun _ c _ => dotted_I_lower c;
            ext_lower_stable := _ |}.
  intros _ c _ x Hc Hin. unfold dotted_I_lower in Hin.
  destruct (c =? 304)%N eqn:E.
  - simpl in Hin. destruct Hin as [<- | [<- | []]]; vm_compute; trivial.
  - simpl in Hin. destruct Hin as [<- | []].
    destruct (c <? 256)%N eqn:L; [apply N.ltb_lt in L; lia |].
    intros _ _. unfold dotted_I_lower. now rewrite E.
Defined.

(** The floating-point functions play no part in what is proved below;
    this instance only lets the rankers run. *)
#[export] Instance identity_floats : FloatOps := {|
  ln := fun x => x;
  sqrt := fun x => x
|}.

(** Ten documents: ["duarte"] occurs in eight of them, ["clima"] in one,
    ["veracruz"] in six. *)
Definition synthetic_corpus : list (option str) :=
  map (fun text => Some (str_of text)) [
    "duarte rojo veracruz"; "duarte azul veracruz"; "duarte verde veracruz";
    "duarte negro veracruz"; "duarte blanco veracruz"; "duarte"; "duarte";
    "duarte"; "clima"; "veracruz"
  ]%string.

(** The rows of a result, none if it is an exception. *)
Definition ranked {A} (r : result (list A)) : list A :=
  match r with
  | Ok rows => rows
  | Raise _ => []
  end.

(** Five target documents with ["zika"] twice each, five baseline
    documents without it. *)
Definition zika_target : list (option str) :=
  map (fun text => Some (str_of text)) [
    "zika zika brote"; "zika zika brote"; "zika zika brote";
    "zika zika brote"; "zika zika brote"
  ]%string.

(** The baseline of the emergence test. *)
Definition zika_baseline : list (option str) :=
  map (fun text => Some (str_of text)) [
    "brote"; "brote"; "brote"; "brote"; "brote"
  ]%string.

(** The matrix fitted on the ten documents: the columns of ["brote"],
    ["zika"], ["zika brote"] and ["zika zika"]. *)
Definition zika_fitted : matrix Z := [
  (str_of "brote", [1; 1; 1; 1; 1; 1; 1; 1; 1; 1]%Z);
  (str_of "zika", [2; 2; 2; 2; 2; 0; 0; 0; 0; 0]%Z);
  (str_of "zika brote", [1; 1; 1; 1; 1; 0; 0; 0; 0; 0]%Z);
  (str_of "zika zika", [1; 1; 1; 1; 1; 0; 0; 0; 0; 0]%Z)
].

(** Ten documents whose vocabulary is ["puerto"], ["puerto veracruz"] and
    ["veracruz"] (["xalapa"], in four documents, stays below [min_df]). *)
Definition port_corpus : list (option str) :=
  map (fun text => Some (str_of text)) [
    "puerto veracruz"; "puerto veracruz"; "puerto veracruz"; "puerto veracruz";
    "puerto veracruz"; "veracruz"; "xalapa"; "xalapa"; "xalapa"; "xalapa"
  ]%string.

(** The matrix fitted on them. *)
Definition port_fitted : matrix Z := [
  (str_of "puerto", [1; 1; 1; 1; 1; 0; 0; 0; 0; 0]%Z);
  (str_of "puerto veracruz", [1; 1; 1; 1; 1; 0; 0; 0; 0; 0]%Z);
  (str_of "veracruz", [1; 1; 1; 1; 1; 1; 0; 0; 0; 0]%Z)
].

(** Ten documents of stop words: the vocabulary is empty. *)
Definition stop_word_corpus : list (option str) :=
  repeat (Some (str_of "de la que el en y")) 10.

(** Three documents: [max_df = 0.7] allows 2.1 documents, less than
    [min_df = 5]. *)
Definition short_corpus : list (option str) :=
  repeat (Some (str_of "duarte veracruz")) 3.

(** Three documents with no word in common: nothing reaches [min_df = 3]. *)
Definition scattered_corpus : list (option str) :=
  map (fun text => Some (str_of text)) ["duarte"; "veracruz"; "clima"]%string.

(** Seven documents with the same words: both terms and their pair occur
    in every one, which is more than [max_df = 0.7] allows. *)
Definition seven_articles : list (option str) :=
  repeat (Some (str_of "duarte veracruz")) 7.

(** Two documents with the same words. *)
Definition two_articles : list (option str) :=
  repeat (Some (str_of "duarte veracruz")) 2.

(** Four articles that mention ["duarte"]; ["clima"] and ["xalapa"] occur
    three times each, ["puerto"] four times. *)
Definition tie_corpus : list (option str) :=
  map (fun text => Some (str_of text)) [
    "duarte puerto xalapa clima"; "duarte xalapa puerto clima";
    "clima duarte puerto xalapa"; "duarte puerto"
  ]%string.


(* ================================================================= *)
(** ** alcalor_analysis/nlp.py: coverage by month *)

Module Coverage.
(** A row of the table [articles]: the month of [publication_date] (the
    first day of the month as a day number; the date may be NULL) and the
    body. *)
Record article : Type := { month : option Z; body : option str }.
Record row : Type := {
  mes : option Z;
  total : Z;
  violencia : Z;
  corrupcion : Z;
  economia : Z;
  salud : Z;
  educacion : Z;
  pct_violencia : Q;
  pct_corrupcion : Q;
  pct_economia : Q;
  pct_salud : Q;
  pct_educacion : Q
}.
End Coverage.

Section CoverageByMonth.
Context {U : UnicodeExt}.

(** The keywords of the five [FILTER] clauses of
    [detect_anomalies_in_coverage]. *)
Definition violencia_keywords : list str :=
  map str_of ["violencia"; "homicidio"]%string.

Definition corrupcion_keywords : list str :=
  map str_of ["corrupción"; "fraude"]%string.

Definition economia_keywords : list str :=
  map str_of ["economía"; "empleo"; "inversión"]%string.

Definition salud_keywords : list str :=
  map str_of ["salud"; "hospital"; "médico"]%string.

Definition educacion_keywords : list str :=
  map str_of ["educación"; "escuela"; "universidad"]%string.

(** [body ILIKE '%k1%' OR body ILIKE '%k2%' ...] as a [FILTER] reads it. *)
Definition covers (keywords : list str) (a : Coverage.article) : bool :=
  existsb (ilike (Coverage.body a)) keywords.

(** The query of [detect_anomalies_in_coverage]: one row per month among
    the articles, [ORDER BY mes], with the six counts of its group. *)
Definition coverage_query (articles : list Coverage.article)
  : list (option Z * list Coverage.article) :=
  map (fun m => (m, filter (fun a => year_eqb (Coverage.month a) m) articles))
      (sort year_leb (distinct year_eqb [] (map Coverage.month articles))).

(** [pl.col(name) / pl.col("total") * 100] *)
Definition percent (part total : Z) : Q := (inject_Z part / inject_Z total * 100)%Q.

Definition detect_anomalies_in_coverage (articles : list Coverage.article)
  : list Coverage.row :=
  let coverage :=
    map (fun g : option Z * list Coverage.article =>
           let (m, group) := g in
           (m, count_rows group,
            (count_rows (filter (covers violencia_keywords) group),
             count_rows (filter (covers corrupcion_keywords) group),
             count_rows (filter (covers economia_keywords) group),
             count_rows (filter (covers salud_keywords) group),
             count_rows (filter (covers educacion_keywords) group))))
        (coverage_query articles) in
  (* Calculate ratios and find anomalies *)
  map (fun r : option Z * Z * (Z * Z * Z * Z * Z) =>
         let '(m, total, (violencia, corrupcion, economia, salud, educacion)) := r in
         {| Coverage.mes := m;
            Coverage.total := total;
            Coverage.violencia := violencia;
            Coverage.corrupcion := corrupcion;
            Coverage.economia := economia;
            Coverage.salud := salud;
            Coverage.educacion := educacion;
            Coverage.pct_violencia := percent violencia total;
            Coverage.pct_corrupcion := percent corrupcion total;
            Coverage.pct_economia := percent economia total;
            Coverage.pct_salud := percent salud total;
            Coverage.pct_educacion := percent educacion total |})
      coverage.

End CoverageByMonth.

(* ================================================================= *)
(** * Properties *)

(** A property of the code points below U+0100 is checked on the table. *)
Lemma latin1_table (f : char -> bool) :
  forallb f (map N.of_nat (seq 0 256)) = true ->
  forall c, (c < 256)%N -> f c = true.
Proof.
  intros H c Hc. rewrite forallb_forall in H. apply H.
  apply in_map_iff. exists (N.to_nat c). split; [apply N2Nat.id |].
  apply in_seq. lia.
Qed.

(** ** Lowercasing *)

Section LowerFacts.
Context {U : UnicodeExt}.

Lemma latin1_lower_fixed c :
  (c < 256)%N -> (latin1_lower c < 256)%N /\ latin1_lower (latin1_lower c) = latin1_lower c.
Proof.
  intros Hc.
  pose proof (latin1_table
                (fun c => (latin1_lower c <? 256)%N
                          && (latin1_lower (latin1_lower c) =? latin1_lower c)%N)
                eq_refl c Hc) as H.
  apply andb_true_iff in H. destruct H as [H1 H2].
  split; [now apply N.ltb_lt | now apply N.eqb_eq].
Qed.

Lemma lower_cp_stable before c after x :
  In x (lower_cp before c after) -> lower_stable x.
Proof.
  unfold lower_cp. destruct (c <? 256)%N eqn:Hc.
  - intros [<- | []]. apply N.ltb_lt in Hc.
    destruct (latin1_lower_fixed c Hc) as [Hlt Hfix].
    intros b a. unfold lower_cp.
    apply N.ltb_lt in Hlt. now rewrite Hlt, Hfix.
  - intros Hin. apply N.ltb_ge in Hc.
    pose proof (ext_lower_stable before c after x Hc Hin) as H.
    intros b a. unfold lower_cp.
    destruct (x <? 256)%N; [now rewrite H | apply H].
Qed.

Lemma lower_from_stable s : forall before, Forall lower_stable (lower_from before s).
Proof.
  induction s as [|c s IH]; intros before; simpl; [constructor |].
  apply Forall_app. split; [| apply IH].
  apply Forall_forall. intros x. apply lower_cp_stable.
Qed.

Lemma lower_from_fixed t :
  Forall lower_stable t -> forall before, lower_from before t = t.
Proof.
  induction 1 as [|c t Hc _ IH]; intros before; simpl; [reflexivity |].
  now rewrite Hc, IH.
Qed.

Lemma lower_stable_space : lower_stable 32%N.
Proof. intros b a. reflexivity. Qed.

Lemma lower_idempotent s : lower (lower s) = lower s.
Proof. apply lower_from_fixed, lower_from_stable. Qed.

End LowerFacts.

(** ** Substitution *)

Section ReFacts.
Context {G : Type} (p : pattern G) (repl : str).

Lemma re_sub_from_length :
  length repl <= 1 ->
  forall s before inside, length (re_sub_from p repl before inside s) <= length s.
Proof.
  intros Hrepl. induction s as [|c s IH]; intros before inside; simpl; [lia |].
  destruct inside as [|k].
  - destruct (p before (c :: s)) as [[[|k] g]|]; simpl;
      rewrite ?length_app; specialize (IH (c :: before)).
    + specialize (IH 0). lia.
    + specialize (IH k). lia.
    + specialize (IH 0). lia.
  - specialize (IH (c :: before) k). lia.
Qed.

(** What comes out is made of characters of the subject and of the
    replacement. *)
Lemma re_sub_from_Forall (P : char -> Prop) :
  Forall P repl ->
  forall s before inside, Forall P s -> Forall P (re_sub_from p repl before inside s).
Proof.
  intros Hrepl. induction s as [|c s IH]; intros before inside Hs; simpl; [constructor |].
  inversion_clear Hs as [|? ? Hc Hs'].
  destruct inside as [|k]; [| now apply IH].
  destruct (p before (c :: s)) as [[[|k] g]|].
  - constructor; [assumption | now apply IH].
  - apply Forall_app. split; [assumption | now apply IH].
  - constructor; [assumption | now apply IH].
Qed.

(** A character at which the pattern matches is never copied. *)
Lemma re_sub_from_copied (Q : char -> Prop) :
  Forall Q repl ->
  (forall before c r, Q c \/ exists k g, p before (c :: r) = Some (S k, g)) ->
  forall s before inside, Forall Q (re_sub_from p repl before inside s).
Proof.
  intros Hrepl Hp. induction s as [|c s IH]; intros before inside; simpl; [constructor |].
  destruct inside as [|k]; [| apply IH].
  destruct (p before (c :: s)) as [[[|k] g]|] eqn:E.
  - constructor; [| apply IH].
    destruct (Hp before c s) as [? | (k & g' & E')]; [assumption | congruence].
  - apply Forall_app. split; [assumption | apply IH].
  - constructor; [| apply IH].
    destruct (Hp before c s) as [? | (k & g' & E')]; [assumption | congruence].
Qed.

(** Where the pattern is found nowhere, nothing is replaced. *)
Lemma re_sub_from_not_found :
  forall s before, re_search_from p before s = false -> re_sub_from p repl before 0 s = s.
Proof.
  induction s as [|c s IH]; intros before H; simpl in *; [reflexivity |].
  destruct (p before (c :: s)) as [[[|k] g]|]; try discriminate;
    now rewrite IH.
Qed.

Lemma re_search_from_none (I : str -> Prop) :
  (forall c r, I (c :: r) -> I r) ->
  (forall before s, I s -> p before s = None) ->
  forall s before, I s -> re_search_from p before s = false.
Proof.
  intros Htail Hnone. induction s as [|c s IH]; intros before Hs; simpl; [reflexivity |].
  rewrite (Hnone before _ Hs). apply IH. now apply Htail in Hs.
Qed.

End ReFacts.

(** ** Text normalization *)

Section CleanTextFacts.
Context {U : UnicodeExt}.

Lemma lstrip_length s : length (lstrip s) <= length s.
Proof.
  induction s as [|c s IH]; simpl; [lia |].
  destruct (is_space c); simpl; lia.
Qed.

Lemma rstrip_length s : length (rstrip s) <= length s.
Proof.
  induction s as [|c s IH]; simpl; [lia |].
  destruct (rstrip s); [destruct (is_space c) |]; simpl in *; lia.
Qed.

Lemma strip_length s : length (strip s) <= length s.
Proof.
  unfold strip. pose proof (rstrip_length (lstrip s)). pose proof (lstrip_length s). lia.
Qed.

Lemma lstrip_Forall (P : char -> Prop) s : Forall P s -> Forall P (lstrip s).
Proof.
  induction 1 as [|c s Hc Hs IH]; simpl; [constructor |].
  destruct (is_space c); [assumption | now constructor].
Qed.

Lemma rstrip_Forall (P : char -> Prop) s : Forall P s -> Forall P (rstrip s).
Proof.
  induction 1 as [|c s Hc Hs IH]; simpl; [constructor |].
  destruct (rstrip s).
  - destruct (is_space c); [constructor | now repeat constructor].
  - now constructor.
Qed.

(** *** White space after the last two steps *)

Lemma spaces_pattern_head before c s :
  spaces_pattern before (c :: s) =
  if is_space c then Some (S (run_length is_space s), tt) else None.
Proof. unfold spaces_pattern. simpl. now destruct (is_space c). Qed.

Lemma spaces_sub_isolated s :
  forall before k,
    k = 0 \/ run_length is_space s = k ->
    let out := re_sub_from spaces_pattern (str_of " ") before k s in
    isolated out = true /\ (run_length is_space s = k -> head_non_space out = true).
Proof.
  change (str_of " ") with [32%N].
  induction s as [|c s IH]; intros before k Hk; simpl; [split; reflexivity |].
  destruct k as [|k].
  - rewrite spaces_pattern_head.
    destruct (is_space c) eqn:Ec.
    + destruct (IH (c :: before) (run_length is_space s) (or_intror eq_refl)) as [Hi Hh].
      simpl. rewrite Hi, (Hh eq_refl). split; [reflexivity | discriminate].
    + destruct (IH (c :: before) 0 (or_introl eq_refl)) as [Hi _].
      simpl. rewrite Ec, Hi. split; reflexivity.
  - destruct Hk as [Hk | Hk]; [discriminate |].
    simpl in Hk. destruct (is_space c); [| discriminate].
    injection Hk as Hk.
    destruct (IH (c :: before) k (or_intror Hk)) as [Hi Hh].
    split; [assumption | intros _; now apply Hh].
Qed.

Lemma lstrip_isolated s :
  isolated s = true ->
  isolated (lstrip s) = true /\ head_non_space (lstrip s) = true.
Proof.
  induction s as [|c s IH]; simpl; [split; reflexivity |].
  destruct (is_space c) eqn:Ec.
  - intros H. apply andb_true_iff in H. now apply IH.
  - intros H. simpl. rewrite Ec. split; [assumption | reflexivity].
Qed.

Lemma rstrip_head s d r' : rstrip s = d :: r' -> exists r, s = d :: r.
Proof.
  destruct s as [|c s]; simpl; [discriminate |].
  destruct (rstrip s); [destruct (is_space c) |]; intros H;
    try discriminate; injection H as <- _; eauto.
Qed.

Lemma rstrip_head_non_space s :
  head_non_space s = true -> head_non_space (rstrip s) = true.
Proof.
  destruct (rstrip s) as [|d r'] eqn:E; [reflexivity |].
  destruct (rstrip_head _ _ _ E) as [r ->]. trivial.
Qed.

Lemma rstrip_spaced s : isolated s = true -> spaced (rstrip s) = true.
Proof.
  induction s as [|c s IH]; simpl; [reflexivity |].
  intros H. apply andb_true_iff in H. destruct H as [Hc Hs].
  specialize (IH Hs).
  destruct (rstrip s) as [|d r'] eqn:E.
  - destruct (is_space c) eqn:Ec; simpl; [reflexivity | now rewrite Ec].
  - destruct (rstrip_head _ _ _ E) as [r ->].
    change (spaced (c :: d :: r')) with
      ((if is_space c then (c =? 32)%N && negb (is_space d) else true)
       && spaced (d :: r')).
    rewrite IH, andb_true_r. simpl in Hc. exact Hc.
Qed.

Lemma spaces_sub_spaced t :
  spaced t = true ->
  forall before, re_sub_from spaces_pattern (str_of " ") before 0 t = t.
Proof.
  change (str_of " ") with [32%N].
  induction t as [|c t IH]; intros H before; simpl; [reflexivity |].
  simpl in H. apply andb_true_iff in H. destruct H as [Hc Ht].
  rewrite spaces_pattern_head.
  destruct (is_space c) eqn:Ec.
  - apply andb_true_iff in Hc. destruct Hc as [Hc Hn].
    apply N.eqb_eq in Hc. subst c.
    destruct t as [|d t]; [discriminate |].
    simpl run_length. apply negb_true_iff in Hn. rewrite Hn.
    now rewrite IH.
  - now rewrite IH.
Qed.

Lemma lstrip_fixed t : head_non_space t = true -> lstrip t = t.
Proof.
  destruct t as [|c t]; simpl; [reflexivity |].
  intros H. apply negb_true_iff in H. now rewrite H.
Qed.

Lemma rstrip_fixed t : spaced t = true -> rstrip t = t.
Proof.
  induction t as [|c t IH]; simpl; [reflexivity |].
  intros H. apply andb_true_iff in H. destruct H as [Hc Ht].
  rewrite (IH Ht). destruct t as [|d t]; [| reflexivity].
  destruct (is_space c); [| reflexivity].
  now rewrite andb_false_r in Hc.
Qed.

(** After [re.sub(r'\s+', ' ', text).strip()] the text is a fixed point of
    both operations. *)
Lemma collapse_spaces_fixed s :
  let t := strip (re_sub spaces_pattern (str_of " ") s) in
  strip (re_sub spaces_pattern (str_of " ") t) = t.
Proof.
  intros t.
  destruct (spaces_sub_isolated s [] 0 (or_introl eq_refl)) as [Hiso _].
  fold (re_sub spaces_pattern (str_of " ") s) in Hiso.
  destruct (lstrip_isolated _ Hiso) as [Hiso' Hhead].
  assert (Hsp : spaced t = true) by (apply rstrip_spaced, Hiso').
  assert (Hh : head_non_space t = true) by (apply rstrip_head_non_space, Hhead).
  unfold re_sub. rewrite (spaces_sub_spaced t Hsp).
  unfold strip. now rewrite (lstrip_fixed t Hh), (rstrip_fixed t Hsp).
Qed.

End CleanTextFacts.

Section CleanTextClaims.
Context {U : UnicodeExt}.

Lemma clean_text_steps c s :
  clean_text (Some (c :: s)) =
  strip (re_sub spaces_pattern (str_of " ")
           (re_sub special_pattern (str_of " ")
              (re_sub digits_pattern []
                 (re_sub email_pattern []
                    (re_sub url_pattern [] (lower (c :: s))))))).
Proof. reflexivity. Qed.

Lemma clean_char_space : clean_char 32%N.
Proof. split; [apply lower_stable_space | split; reflexivity]. Qed.

Lemma digits_pattern_head before c r :
  is_digit c = true -> exists k g, digits_pattern before (c :: r) = Some (S k, g).
Proof.
  intros H. unfold digits_pattern. simpl. rewrite H. eauto.
Qed.

Lemma special_pattern_head before c r :
  special_pattern before (c :: r) = if kept c then None else Some (1, tt).
Proof. reflexivity. Qed.

Lemma clean_text_chars text : Forall clean_char (clean_text text).
Proof.
  destruct text as [[|c s]|]; try constructor.
  rewrite clean_text_steps. unfold strip.
  apply rstrip_Forall, lstrip_Forall.
  apply re_sub_from_Forall; [repeat constructor; apply clean_char_space |].
  repeat apply Forall_and.
  - repeat (apply re_sub_from_Forall; [repeat constructor; apply lower_stable_space |]).
    apply lower_from_stable.
  - apply re_sub_from_Forall; [now repeat constructor |].
    apply re_sub_from_copied; [constructor |].
    intros before d r. destruct (is_digit d) eqn:E; [right | now left].
    now apply digits_pattern_head.
  - apply re_sub_from_copied; [now repeat constructor |].
    intros before d r. rewrite special_pattern_head.
    destruct (kept d); [now left | right; eauto].
Qed.

Lemma firstn_Forall {A} (P : A -> Prop) n (l : list A) :
  Forall P l -> Forall P (firstn n l).
Proof.
  revert l. induction n as [|n IH]; intros l H; simpl; [constructor |].
  destruct H; constructor; auto.
Qed.

Lemma removelast_Forall {A} (P : A -> Prop) (l : list A) :
  Forall P l -> Forall P (removelast l).
Proof.
  induction 1 as [|x l Hx Hl IH]; simpl; [constructor |].
  destruct l; [constructor | now constructor].
Qed.

Lemma kept_no_at l : Forall clean_char l -> char_in l 64%N = false.
Proof.
  induction 1 as [|c l Hc _ IH]; [reflexivity |].
  unfold char_in in *. cbn [existsb]. rewrite IH, orb_false_r.
  apply N.eqb_neq. intros <-. destruct Hc as (_ & _ & Hk). discriminate Hk.
Qed.

Lemma email_pattern_clean before s :
  Forall clean_char s -> email_pattern before s = None.
Proof.
  intros Hs. unfold email_pattern.
  pose proof (firstn_Forall _ (run_length non_space s) _ Hs) as Hf.
  destruct (firstn _ s) as [|x rest]; [reflexivity |].
  inversion_clear Hf as [|? ? _ Hrest].
  now rewrite (kept_no_at _ (removelast_Forall _ _ Hrest)).
Qed.

Lemma digits_pattern_clean before s :
  Forall clean_char s -> digits_pattern before s = None.
Proof.
  intros [|c r (_ & Hd & _) _]; [reflexivity |].
  unfold digits_pattern. simpl. now rewrite Hd.
Qed.

Lemma special_pattern_clean before s :
  Forall clean_char s -> special_pattern before s = None.
Proof.
  intros [|c r (_ & _ & Hk) _]; [reflexivity |].
  now rewrite special_pattern_head, Hk.
Qed.

Lemma clean_tail c (r : str) : Forall clean_char (c :: r) -> Forall clean_char r.
Proof. now inversion 1. Qed.

(** A pattern that finds nothing in texts of clean characters leaves such
    a text as it is. *)
Lemma re_sub_clean (p : pattern unit) repl t :
  (forall before s, Forall clean_char s -> p before s = None) ->
  Forall clean_char t -> re_sub p repl t = t.
Proof.
  intros Hp Ht. apply re_sub_from_not_found.
  now apply re_search_from_none with (I := Forall clean_char); [apply clean_tail | |].
Qed.

Lemma clean_text_collapsed s :
  let t := clean_text (Some s) in
  strip (re_sub spaces_pattern (str_of " ") t) = t.
Proof.
  destruct s as [|c s]; [reflexivity |].
  rewrite clean_text_steps. apply collapse_spaces_fixed.
Qed.

(** C3, as amended: normalizing a second time changes nothing when the
    normalized text holds no URL-like token, that is, no [http] or [www]
    directly followed by a character that is not white space. (Removing the
    digits of ["ht1tpx"] is what can create such a token.) *)
Theorem clean_text_idempotent_without_url (s : str) :
  re_search url_pattern (clean_text (Some s)) = false ->
  clean_text (Some (clean_text (Some s))) = clean_text (Some s).
Proof.
  intros Hurl.
  pose proof (clean_text_chars (Some s)) as Hchars.
  pose proof (clean_text_collapsed s) as Hfix. cbv zeta in Hfix.
  destruct (clean_text (Some s)) as [|c t] eqn:Et; [reflexivity |].
  rewrite clean_text_steps.
  unfold lower. rewrite (lower_from_fixed _ (Forall_impl _ (fun _ H => proj1 H) Hchars)).
  unfold re_sub at 5. rewrite (re_sub_from_not_found _ _ _ _ Hurl).
  rewrite (re_sub_clean email_pattern), (re_sub_clean digits_pattern),
    (re_sub_clean special_pattern);
    auto using email_pattern_clean, digits_pattern_clean, special_pattern_clean.
Qed.

Lemma clean_text_steps_length c s :
  length (clean_text (Some (c :: s))) <= length (lower (c :: s)).
Proof.
  rewrite clean_text_steps.
  etransitivity; [apply strip_length |].
  unfold re_sub.
  repeat (etransitivity; [apply re_sub_from_length; simpl; lia |]).
  reflexivity.
Qed.

(** Lowercasing keeps the length of a text of code points below U+0100,
    so that normalizing such a text does not lengthen it. *)
Lemma lower_latin1_length s :
  Forall (fun c => (c < 256)%N) s -> length (lower s) = length s.
Proof.
  unfold lower. generalize (@nil char).
  induction s as [|c s IH]; intros before H; [reflexivity |].
  inversion_clear H as [|? ? Hc Hs]. simpl.
  unfold lower_cp. apply N.ltb_lt in Hc. rewrite Hc. simpl. now rewrite IH.
Qed.

Corollary clean_text_length_latin1 s :
  Forall (fun c => (c < 256)%N) s -> length (clean_text (Some s)) <= length s.
Proof.
  intros H. rewrite <- (lower_latin1_length s H).
  destruct s; [simpl; lia | apply clean_text_steps_length].
Qed.

(** C4, as amended: a normalized text is never longer than the lowercased
    text it is computed from (and lowercasing lengthens a text only where
    it holds U+0130, whose lowercase is two code points). *)
Theorem clean_text_length_le_lower (text : option str) :
  length (clean_text text) <= length (lower (or_empty text)).
Proof.
  destruct text as [[|c s]|]; simpl or_empty;
    [simpl; lia | apply clean_text_steps_length | simpl; lia].
Qed.

End CleanTextClaims.

(** C3, witness: a text with punctuation, digits and capitals. *)
Lemma clean_text_idempotent_witness :
  re_search url_pattern (clean_text (Some (str_of "Hola, Mundo 123 ñandú"))) = false /\
  clean_text (Some (clean_text (Some (str_of "Hola, Mundo 123 ñandú"))))
  = clean_text (Some (str_of "Hola, Mundo 123 ñandú")).
Proof.
  split; [reflexivity |].
  apply (clean_text_idempotent_without_url (str_of "Hola, Mundo 123 ñandú")).
  reflexivity.
Defined.

(** C3, counterexample: ["ht1tpx"] is normalized to ["httpx"] (only the
    digit goes), and ["httpx"] to the empty text (it is taken for a URL). *)
Lemma clean_text_not_idempotent :
  clean_text (Some (str_of "ht1tpx")) = str_of "httpx" /\
  clean_text (Some (str_of "httpx")) = [] /\
  clean_text (Some (clean_text (Some (str_of "ht1tpx"))))
  <> clean_text (Some (str_of "ht1tpx")).
Proof.
  repeat split; try reflexivity. vm_compute. discriminate.
Qed.

(** C4, counterexample: U+0130 followed by ["a"] (two characters) is
    lowercased to U+0069 U+0307 ["a"]; the combining dot is no word
    character, so it becomes a space: the result ["i a"] has three. *)
Lemma clean_text_can_lengthen :
  clean_text (Some [304; 97]%N) = str_of "i a" /\
  ~ length (clean_text (Some [304; 97]%N)) <= length [304; 97]%N.
Proof.
  split; [reflexivity |]. vm_compute. lia.
Qed.

(** ** Sorting, slices and indexing *)

Lemma insert_Permutation {A} (f : A -> A -> bool) x l :
  Permutation (insert f x l) (x :: l).
Proof.
  induction l as [|y l IH]; simpl; [reflexivity |].
  destruct (f x y); [reflexivity |].
  rewrite IH. apply perm_swap.
Qed.

Lemma sort_Permutation {A} (f : A -> A -> bool) l : Permutation (sort f l) l.
Proof.
  induction l as [|x l IH]; simpl; [reflexivity |].
  rewrite insert_Permutation. now constructor.
Qed.

Lemma StronglySorted_weaken {A} (R R' : A -> A -> Prop) l :
  (forall x y, R x y -> R' x y) -> StronglySorted R l -> StronglySorted R' l.
Proof.
  intros HR. induction 1 as [|x l Hl IH Hx]; constructor; [assumption |].
  eapply Forall_impl; [| exact Hx]. auto.
Qed.

Section SortFacts.
Context {A : Type} (leb : A -> A -> bool).
Hypothesis leb_total : forall x y, leb x y = false -> leb y x = true.
Hypothesis leb_trans : forall x y z, leb x y = true -> leb y z = true -> leb x z = true.

Lemma insert_sorted x l :
  StronglySorted (fun a b => leb a b = true) l ->
  StronglySorted (fun a b => leb a b = true) (insert leb x l).
Proof.
  induction 1 as [|y l Hl IH Hy]; simpl; [repeat constructor |].
  destruct (leb x y) eqn:E.
  - constructor; [now constructor |].
    constructor; [assumption |].
    eapply Forall_impl; [| exact Hy]. intros z Hz. now apply leb_trans with y.
  - constructor; [assumption |].
    eapply Permutation_Forall; [symmetry; apply insert_Permutation |].
    constructor; [now apply leb_total | assumption].
Qed.

Lemma sort_sorted l : StronglySorted (fun a b => leb a b = true) (sort leb l).
Proof.
  induction l as [|x l IH]; simpl; [constructor | now apply insert_sorted].
Qed.

End SortFacts.

Lemma Qle_bool_total x y : Qle_bool x y = false -> Qle_bool y x = true.
Proof.
  intros H. apply Qle_bool_iff.
  destruct (Qlt_le_dec y x) as [Hlt | Hle]; [now apply Qlt_le_weak |].
  apply Qle_bool_iff in Hle. congruence.
Qed.

Lemma Qle_bool_trans x y z :
  Qle_bool x y = true -> Qle_bool y z = true -> Qle_bool x z = true.
Proof. rewrite !Qle_bool_iff. apply Qle_trans. Qed.

Lemma sorted_by_sorted {A} (key : A -> Q) l :
  StronglySorted (fun x y => (key x <= key y)%Q) (sorted_by key l).
Proof.
  eapply StronglySorted_weaken; [| apply sort_sorted].
  - intros x y H. now apply Qle_bool_iff.
  - intros x y. apply Qle_bool_total.
  - intros x y z. apply Qle_bool_trans.
Qed.

Lemma sorted_by_reverse_sorted {A} (key : A -> Q) l :
  StronglySorted (fun x y => (key y <= key x)%Q) (sorted_by_reverse key l).
Proof.
  eapply StronglySorted_weaken; [| apply sort_sorted].
  - intros x y H. now apply Qle_bool_iff.
  - intros x y. apply Qle_bool_total.
  - intros x y z H1 H2. now apply Qle_bool_trans with (key y).
Qed.

Lemma StronglySorted_app_inv {A} (R : A -> A -> Prop) a b :
  StronglySorted R (a ++ b) -> StronglySorted R a /\ StronglySorted R b.
Proof.
  induction a as [|x a IH]; simpl; intros H; [split; [constructor | assumption] |].
  apply StronglySorted_inv in H. destruct H as [H Hx].
  destruct (IH H) as [Ha Hb]. split; [| assumption].
  constructor; [assumption |].
  apply Forall_app in Hx. tauto.
Qed.

Lemma StronglySorted_snoc {A} (R : A -> A -> Prop) l x :
  StronglySorted R l -> Forall (fun y => R y x) l -> StronglySorted R (l ++ [x]).
Proof.
  induction 1 as [|y l Hl IH Hy]; intros Hx; simpl; [repeat constructor |].
  inversion_clear Hx as [|? ? Hyx Hx'].
  constructor; [now apply IH |].
  apply Forall_app. split; [assumption | now repeat constructor].
Qed.

Lemma StronglySorted_rev {A} (R : A -> A -> Prop) l :
  StronglySorted R l -> StronglySorted (fun x y => R y x) (rev l).
Proof.
  induction 1 as [|x l Hl IH Hx]; simpl; [constructor |].
  apply StronglySorted_snoc; [assumption | now apply Forall_rev].
Qed.

Lemma StronglySorted_map {A B} (f : A -> B) (R : B -> B -> Prop) l :
  StronglySorted (fun x y => R (f x) (f y)) l -> StronglySorted R (map f l).
Proof.
  induction 1 as [|x l Hl IH Hx]; simpl; constructor; [assumption |].
  now apply Forall_map.
Qed.

(** Sortedness within a part of the list where two relations agree. *)
Lemma StronglySorted_within {A} (P : A -> Prop) (R R' : A -> A -> Prop) l :
  (forall x y, P x -> P y -> R x y -> R' x y) ->
  Forall P l -> StronglySorted R l -> StronglySorted R' l.
Proof.
  intros HR HP. induction 1 as [|x l Hl IH Hx]; [constructor |].
  inversion_clear HP as [|? ? Px Pl].
  constructor; [now apply IH |].
  rewrite Forall_forall in *. auto.
Qed.

Lemma slice_from_In {A} k (l : list A) x : In x (slice_from k l) -> In x l.
Proof.
  unfold slice_from. destruct (0 <=? k)%Z; intros H;
    match type of H with In _ (skipn ?n _) => rewrite <- (firstn_skipn n l) end;
    apply in_or_app; now right.
Qed.

Lemma slice_to_In {A} k (l : list A) x : In x (slice_to k l) -> In x l.
Proof.
  unfold slice_to. destruct (0 <=? k)%Z; intros H;
    match type of H with In _ (firstn ?n _) => rewrite <- (firstn_skipn n l) end;
    apply in_or_app; now left.
Qed.

Lemma slice_from_sorted {A} (R : A -> A -> Prop) k l :
  StronglySorted R l -> StronglySorted R (slice_from k l).
Proof.
  intros H. unfold slice_from.
  destruct (0 <=? k)%Z;
    match goal with |- context [skipn ?n l] => rewrite <- (firstn_skipn n l) in H end;
    now apply StronglySorted_app_inv in H.
Qed.

Lemma slice_to_sorted {A} (R : A -> A -> Prop) k l :
  StronglySorted R l -> StronglySorted R (slice_to k l).
Proof.
  intros H. unfold slice_to.
  destruct (0 <=? k)%Z;
    match goal with |- context [firstn ?n l] => rewrite <- (firstn_skipn n l) in H end;
    now apply StronglySorted_app_inv in H.
Qed.

Lemma slice_to_length {A} k (l : list A) :
  (0 <= k)%Z -> (Z.of_nat (length (slice_to k l)) <= k)%Z.
Proof.
  intros Hk. unfold slice_to. rewrite (proj2 (Z.leb_le 0 k) Hk).
  pose proof (firstn_le_length (Z.to_nat k) l). lia.
Qed.

(** [l[-0:]] is the whole of [l]. *)
Lemma slice_from_minus_zero {A} (l : list A) : slice_from (- 0) l = l.
Proof. reflexivity. Qed.

Lemma map_nth_seq {A} (l : list A) d :
  map (fun i => nth i l d) (seq 0 (length l)) = l.
Proof.
  induction l as [|x l IH]; simpl; [reflexivity |].
  rewrite <- seq_shift, map_map. now rewrite IH.
Qed.

Lemma argsort_Permutation a : Permutation (argsort a) (seq 0 (length a)).
Proof. apply sort_Permutation. Qed.

Lemma argsort_bound a i : In i (argsort a) -> i < length a.
Proof.
  intros H. apply (Permutation_in _ (argsort_Permutation a)) in H.
  apply in_seq in H. lia.
Qed.

Lemma argsort_sorted a :
  StronglySorted (fun i j => (nth i a 0 <= nth j a 0)%Q) (argsort a).
Proof. apply (sorted_by_sorted (fun i => nth i a 0%Q)). Qed.

(** ** The vectorizer *)

Lemma str_eqb_eq a b : str_eqb a b = true <-> a = b.
Proof.
  revert b. induction a as [|x a IH]; intros [|y b]; simpl; split;
    try discriminate; try reflexivity; intros H.
  - apply andb_true_iff in H. destruct H as [Hx Ha].
    apply N.eqb_eq in Hx. apply IH in Ha. congruence.
  - injection H as -> ->. rewrite N.eqb_refl. now apply IH.
Qed.

Lemma str_eqb_refl a : str_eqb a a = true.
Proof. now apply str_eqb_eq. Qed.

Lemma distinct_In {A} (eqb : A -> A -> bool) l :
  forall seen x, In x (distinct eqb seen l) -> In x l.
Proof.
  induction l as [|y l IH]; intros seen x; simpl; [trivial |].
  destruct (existsb (eqb y) seen); [right; eauto |].
  intros [-> | H]; [now left | right; eauto].
Qed.

Lemma length_filter_map {A B} (f : B -> bool) (g : A -> B) l :
  length (filter f (map g l)) = length (filter (fun x => f (g x)) l).
Proof.
  induction l as [|x l IH]; simpl; [reflexivity |].
  destruct (f (g x)); simpl; now rewrite IH.
Qed.

Lemma mem_count t d : mem t d = negb (count t d =? 0)%Z.
Proof.
  unfold mem, count. induction d as [|x d IH]; simpl; [reflexivity |].
  destruct (str_eqb t x); simpl; [| exact IH].
  now destruct (length (filter (str_eqb t) d)).
Qed.

Section VectorizerFacts.
Context {U : UnicodeExt}.

Lemma document_frequency_counts v t texts :
  document_frequency (map (count t) (map (analyze v) texts))
  = documents_containing v t texts.
Proof.
  unfold document_frequency, documents_containing.
  rewrite map_map, length_filter_map. f_equal. f_equal.
  apply filter_ext. intros d. now rewrite mem_count.
Qed.

Lemma count_vocab_In vocabulary docs t col :
  In (t, col) (count_vocab vocabulary docs) ->
  In t vocabulary /\ col = map (count t) docs.
Proof.
  unfold count_vocab. rewrite in_map_iff.
  intros (t' & E & Hin). injection E as -> <-. now split.
Qed.

Lemma select_In {A} keep (l : list A) x : In x (select keep l) -> In x l.
Proof.
  unfold select. rewrite in_map_iff. intros ([i y] & E & Hin). simpl in E. subst y.
  apply filter_In in Hin. destruct Hin as [Hin _]. now apply in_combine_r in Hin.
Qed.

Lemma limit_features_spec X high low limit K :
  limit_features X high low limit = Ok K ->
  K <> [] /\
  forall col, In col K ->
    In col X /\
    (low <= inject_Z (document_frequency (snd col)) <= high)%Q.
Proof.
  unfold limit_features.
  set (masked := filter _ X).
  assert (Hmasked : forall col, In col masked ->
            In col X /\ (low <= inject_Z (document_frequency (snd col)) <= high)%Q).
  { intros col H. apply filter_In in H. destruct H as [Hin Hb].
    apply andb_true_iff in Hb. destruct Hb as [Hh Hl].
    apply Qle_bool_iff in Hh, Hl. auto. }
  set (kept := match limit with Some _ => _ | None => _ end).
  assert (Hkept : forall col, In col kept -> In col masked).
  { subst kept. destruct limit as [n|]; [| trivial].
    destruct (n <? length masked); [| trivial].
    intros col. apply select_In. }
  destruct kept as [|c kept'] eqn:E; [discriminate |].
  intros H. injection H as <-. split; [discriminate |].
  intros col Hin. apply Hmasked, Hkept. exact Hin.
Qed.

Lemma sort_features_In X col : In col (sort_features X) <-> In col X.
Proof.
  split; apply Permutation_in;
    [| symmetry]; apply sort_Permutation.
Qed.

(** What [fit_transform] returns when it returns: at least one column; each
    column belongs to a term of the analyzed documents, holds its counts,
    and its document frequency lies within [min_df] and [max_df]. *)
Lemma fit_transform_spec v texts X :
  fit_transform v texts = Ok X ->
  X <> [] /\
  forall t col, In (t, col) X ->
    In t (concat (map (analyze v) texts)) /\
    col = map (count t) (map (analyze v) texts) /\
    (doc_count (min_df v) (length texts)
     <= inject_Z (documents_containing v t texts)
     <= doc_count (max_df v) (length texts))%Q.
Proof.
  unfold fit_transform.
  set (docs := map (analyze v) texts).
  set (vocabulary := distinct str_eqb [] (concat docs)).
  assert (Hvoc : forall t col, In (t, col) (count_vocab vocabulary docs) ->
            In t (concat docs) /\ col = map (count t) docs).
  { intros t col H. apply count_vocab_In in H. destruct H as [H ->].
    split; [now apply distinct_In in H | reflexivity]. }
  destruct vocabulary as [|t0 voc] eqn:Evoc; [discriminate |].
  rewrite <- Evoc in *. clear Evoc.
  destruct (Qlt_bool _ _); [discriminate |].
  assert (Hfin : forall K,
            K <> [] /\
            (forall col, In col K ->
               In col (count_vocab vocabulary docs) /\
               (doc_count (min_df v) (length texts)
                <= inject_Z (document_frequency (snd col))
                <= doc_count (max_df v) (length texts))%Q) ->
            K <> [] /\
            forall t col, In (t, col) K ->
              In t (concat docs) /\ col = map (count t) docs /\
              (doc_count (min_df v) (length texts)
               <= inject_Z (documents_containing v t texts)
               <= doc_count (max_df v) (length texts))%Q).
  { intros K [Hne HK]. split; [assumption |]. intros t col Hin.
    destruct (HK _ Hin) as [Hc Hdf]. destruct (Hvoc _ _ Hc) as [Ht ->].
    repeat split; try assumption;
      simpl in Hdf; unfold docs in Hdf;
      rewrite document_frequency_counts in Hdf; apply Hdf. }
  destruct (max_features v) as [limit|].
  - intros H. apply limit_features_spec in H. apply Hfin.
    destruct H as [Hne HK]. split; [assumption |].
    intros col Hin. destruct (HK _ Hin) as [Hc Hdf].
    split; [now apply sort_features_In | assumption].
  - unfold bind.
    destruct (limit_features _ _ _ None) as [X'|e] eqn:E; [| discriminate].
    intros H. injection H as <-.
    apply limit_features_spec in E. apply Hfin.
    destruct E as [Hne HK]. split.
    + intros Hs. apply Hne.
      destruct X' as [|c X'']; [reflexivity |].
      assert (Hin : In c (sort_features (c :: X''))) by (apply sort_features_In; now left).
      rewrite Hs in Hin. destruct Hin.
    + intros col Hin. apply (proj1 (sort_features_In _ _)) in Hin. auto.
Qed.

End VectorizerFacts.

Lemma nth_map_in {A B} (f : A -> B) l i d d' :
  i < length l -> nth i (map f l) d' = f (nth i l d).
Proof.
  intros H. rewrite (nth_indep _ d' (f d)); [apply map_nth | now rewrite length_map].
Qed.

(** ** TF-IDF ranking *)

Section TfidfClaims.
Context {U : UnicodeExt} {F : FloatOps}.

Lemma tfidf_transform_terms n X : map fst (tfidf_transform n X) = map fst X.
Proof. unfold tfidf_transform. now rewrite !map_map. Qed.

Lemma get_tfidf_by_period_cases articles top_n :
  get_tfidf_by_period articles top_n =
  match articles with
  | [] => Ok []
  | _ :: _ =>
      match fit_transform tfidf_vectorizer (map clean_text articles) with
      | Ok X => Ok (tfidf_rows (tfidf_transform (length articles) X) top_n)
      | Raise _ => Ok []
      end
  end.
Proof.
  destruct articles as [|a articles]; [reflexivity |].
  unfold get_tfidf_by_period, tfidf_fit_transform.
  change (length (a :: articles) =? 0) with false. cbv iota.
  destruct (fit_transform _ _) as [X|e]; [| reflexivity].
  simpl bind. unfold try_except, tfidf_rows. now rewrite length_map.
Qed.

Lemma tfidf_rows_terms M top_n row :
  In row (tfidf_rows M top_n) ->
  exists col, In (Tfidf.term row, col) M /\ Tfidf.tfidf_score row = mean col.
Proof.
  unfold tfidf_rows. rewrite in_map_iff. intros (i & <- & Hi). simpl.
  apply in_rev, slice_from_In, argsort_bound in Hi. rewrite length_map in Hi.
  exists (snd (nth i M ([], []))). split.
  - rewrite (nth_map_in fst M i ([], [])) by assumption.
    rewrite <- surjective_pairing. now apply nth_In.
  - now rewrite (nth_map_in (fun col => mean (snd col)) M i ([], [])).
Qed.

(** C10: with [top_n = 0] the slice [[-top_n:]] is [[0:]], the whole array:
    when the vectorizer keeps a vocabulary, every one of its terms is
    returned, in descending order of its average weight. *)
Theorem tfidf_top_zero_ranks_whole_vocabulary articles X :
  articles <> [] ->
  fit_transform tfidf_vectorizer (map clean_text articles) = Ok X ->
  exists rows,
    get_tfidf_by_period articles 0 = Ok rows /\
    rows <> [] /\
    Permutation (map Tfidf.term rows) (map fst X) /\
    StronglySorted
      (fun a b => (Tfidf.tfidf_score b <= Tfidf.tfidf_score a)%Q) rows /\
    forall row, In row rows ->
      exists col,
        In (Tfidf.term row, col) (tfidf_transform (length articles) X) /\
        Tfidf.tfidf_score row = mean col.
Proof.
  intros Hne Hfit. rewrite get_tfidf_by_period_cases.
  destruct articles as [|a articles]; [contradiction |]. rewrite Hfit.
  set (M := tfidf_transform _ X). exists (tfidf_rows M 0).
  assert (Hperm : Permutation (map Tfidf.term (tfidf_rows M 0)) (map fst X)).
  { unfold tfidf_rows. rewrite slice_from_minus_zero, map_map. simpl.
    rewrite <- (tfidf_transform_terms (length (a :: articles)) X). fold M.
    apply Permutation_trans
      with (map (fun i => nth i (map fst M) []) (seq 0 (length (map fst M))));
      [| now rewrite map_nth_seq].
    apply Permutation_map. rewrite <- Permutation_rev.
    rewrite length_map, <- (length_map (fun col => mean (snd col)) M).
    apply argsort_Permutation. }
  split; [reflexivity |]. split; [| split; [exact Hperm |]].
  - intros E. rewrite E in Hperm. simpl in Hperm.
    apply Permutation_nil in Hperm.
    apply fit_transform_spec in Hfit. destruct Hfit as [HX _].
    destruct X; [now apply HX | discriminate].
  - split; [| apply tfidf_rows_terms].
    unfold tfidf_rows. rewrite slice_from_minus_zero.
    apply StronglySorted_map. simpl.
    apply (StronglySorted_rev _ _ (argsort_sorted _)).
Qed.

(** C8, as amended: a term that occurs in fewer than 5 documents
    ([min_df]) or in more than 70 % of the documents ([max_df]) is in no
    row of the ranking. *)
Theorem tfidf_rank_respects_document_frequency articles top_n rows t :
  get_tfidf_by_period articles top_n = Ok rows ->
  (documents_containing tfidf_vectorizer t (map clean_text articles) < 5)%Z \/
  (0.7 * inject_Z (Z.of_nat (length articles))
   < inject_Z (documents_containing tfidf_vectorizer t (map clean_text articles)))%Q ->
  ~ In t (map Tfidf.term rows).
Proof.
  rewrite get_tfidf_by_period_cases. intros Hrows Hdf Hin.
  destruct articles as [|a articles]; [injection Hrows as <-; destruct Hin |].
  destruct (fit_transform _ _) as [X|e] eqn:Hfit;
    [| injection Hrows as <-; destruct Hin].
  injection Hrows as <-.
  apply in_map_iff in Hin. destruct Hin as (row & <- & Hrow).
  apply tfidf_rows_terms in Hrow. destruct Hrow as (col & Hcol & _).
  assert (Ht : In (Tfidf.term row) (map fst X)).
  { rewrite <- (tfidf_transform_terms (length (a :: articles)) X).
    apply in_map_iff. now exists (Tfidf.term row, col). }
  apply in_map_iff in Ht. destruct Ht as ([t' col'] & E & Hx). simpl in E. subst t'.
  apply fit_transform_spec in Hfit. destruct Hfit as [_ Hfit].
  destruct (Hfit _ _ Hx) as (_ & _ & Hlow & Hhigh).
  rewrite length_map in Hlow, Hhigh. simpl doc_count in Hlow, Hhigh.
  destruct Hdf as [Hdf | Hdf].
  - rewrite <- Zle_Qle in Hlow. lia.
  - now apply Qle_not_lt in Hhigh.
Qed.

End TfidfClaims.

(** C8, counterexample: on the synthetic corpus the ranking is the single
    term ["veracruz"]. ["clima"] (one document) is absent, and so is
    ["duarte"]: eight documents of ten are more than [max_df = 0.7]. A
    vectorizer with [min_df = 2] and the other settings unchanged keeps
    the same single term. *)
Lemma tfidf_synthetic_corpus_drops_duarte :
  let texts := map clean_text synthetic_corpus in
  length synthetic_corpus = 10 /\
  documents_containing tfidf_vectorizer (str_of "duarte") texts = 8%Z /\
  documents_containing tfidf_vectorizer (str_of "clima") texts = 1%Z /\
  map Tfidf.term (ranked (get_tfidf_by_period synthetic_corpus 20))
  = [str_of "veracruz"] /\
  ~ In (str_of "duarte")
      (map Tfidf.term (ranked (get_tfidf_by_period synthetic_corpus 20))) /\
  match fit_transform {| max_features := Some 1000; stop_words := STOPWORDS_ES;
                         min_df := Docs 2; max_df := Share 0.7;
                         ngram_range := (1, 2) |} texts with
  | Ok X => map fst X = [str_of "veracruz"]
  | Raise _ => False
  end.
Proof.
  vm_compute. repeat split; try reflexivity.
  intros [H | []]. discriminate H.
Qed.

(** C8, witness: ["clima"] on the synthetic corpus. *)
Lemma tfidf_rank_respects_document_frequency_witness :
  ~ In (str_of "clima")
      (map Tfidf.term (ranked (get_tfidf_by_period synthetic_corpus 20))).
Proof.
  apply (tfidf_rank_respects_document_frequency synthetic_corpus 20).
  - vm_compute. reflexivity.
  - left. vm_compute. reflexivity.
Defined.

(** C10, witness: a corpus with a vocabulary of three terms. *)
Lemma tfidf_top_zero_witness :
  exists rows,
    get_tfidf_by_period port_corpus 0 = Ok rows /\
    rows <> [] /\
    Permutation (map Tfidf.term rows) (map fst port_fitted) /\
    StronglySorted
      (fun a b => (Tfidf.tfidf_score b <= Tfidf.tfidf_score a)%Q) rows /\
    forall row, In row rows ->
      exists col,
        In (Tfidf.term row, col)
          (tfidf_transform (length port_corpus) port_fitted) /\
        Tfidf.tfidf_score row = mean col.
Proof.
  apply (tfidf_top_zero_ranks_whole_vocabulary port_corpus port_fitted).
  - discriminate.
  - vm_compute. reflexivity.
Defined.

(** With [top_n = 0] the three terms come back; with [top_n = 2], two.
    (The order is that of the weights computed with [identity_floats].) *)
Example tfidf_top_zero_and_two :
  map Tfidf.term (ranked (get_tfidf_by_period port_corpus 0))
  = map str_of ["veracruz"; "puerto veracruz"; "puerto"]%string /\
  map Tfidf.term (ranked (get_tfidf_by_period port_corpus 2))
  = map str_of ["veracruz"; "puerto veracruz"]%string.
Proof. vm_compute. split; reflexivity. Qed.

(** ** Emergence detection *)

Lemma zip_with_nth {A B C} (f : A -> B -> C) a b i da db dc :
  i < length a -> i < length b ->
  nth i (zip_with f a b) dc = f (nth i a da) (nth i b db).
Proof.
  revert b i. induction a as [|x a IH]; intros [|y b] [|i]; simpl; intros Ha Hb;
    try lia; [reflexivity | apply IH; lia].
Qed.

Lemma zip_with_length {A B C} (f : A -> B -> C) a b :
  length a = length b -> length (zip_with f a b) = length a.
Proof.
  revert b. induction a as [|x a IH]; intros [|y b]; simpl; intros H;
    try discriminate; [reflexivity | f_equal; apply IH; lia].
Qed.

Lemma Qlt_bool_lt x y : Qlt_bool x y = true -> (x < y)%Q.
Proof.
  unfold Qlt_bool. intros H. apply negb_true_iff in H.
  apply Qnot_le_lt. intros Hle. apply Qle_bool_iff in Hle. congruence.
Qed.

Lemma count_nonneg t d : (0 <= count t d)%Z.
Proof. unfold count. lia. Qed.

Lemma sum_Z_nonneg l : Forall (fun c => 0 <= c)%Z l -> (0 <= sum_Z l)%Z.
Proof. induction 1; simpl; lia. Qed.

Lemma Qdiv_nonneg a b : (0 <= a)%Z -> (0 < b)%Z -> (0 <= inject_Z a / inject_Z b)%Q.
Proof.
  intros Ha Hb. apply Qle_shift_div_l.
  - change (inject_Z 0 < inject_Z b)%Q. now rewrite <- Zlt_Qlt.
  - rewrite Qmult_0_l. change (inject_Z 0 <= inject_Z a)%Q. now rewrite <- Zle_Qle.
Qed.

Lemma smoothed_positive q : (0 <= q)%Q -> (0 < q + 0.001)%Q.
Proof.
  intros H. apply Qlt_le_trans with (0 + 0.001)%Q; [reflexivity |].
  now apply Qplus_le_l.
Qed.

Section EmergingClaims.
Context {U : UnicodeExt}.

Lemma total_count_nonneg v t texts : (0 <= total_count v t texts)%Z.
Proof.
  unfold total_count. apply sum_Z_nonneg, Forall_map, Forall_forall.
  intros d _. apply count_nonneg.
Qed.

Lemma frequencies_per_document_length X n :
  length (frequencies_per_document X n) = length X.
Proof. apply length_map. Qed.

Lemma transform_length v names texts : length (transform v names texts) = length names.
Proof. apply length_map. Qed.

(** Entry [i] of a frequency array: the occurrences of term [i] in the
    corpus, divided by the number of documents. *)
Lemma frequencies_per_document_nth v names texts i :
  i < length names ->
  nth i (frequencies_per_document (transform v names texts) (length texts)) 0%Q
  = (inject_Z (total_count v (nth i names []) texts)
     / inject_Z (Z.of_nat (length texts)))%Q.
Proof.
  intros Hi. unfold frequencies_per_document, transform, count_vocab.
  rewrite map_map. simpl.
  rewrite (nth_map_in _ names i []) by assumption.
  unfold total_count. now rewrite map_map.
Qed.

Lemma find_emerging_terms_cases target_articles comparison_articles top_n :
  find_emerging_terms target_articles comparison_articles top_n =
  match target_articles, comparison_articles with
  | [], _ | _, [] => Ok []
  | _ :: _, _ :: _ =>
      let target_texts := map clean_text target_articles in
      let comparison_texts := map clean_text comparison_articles in
      match fit_transform emerging_vectorizer (target_texts ++ comparison_texts) with
      | Ok X =>
          let names := map fst X in
          Ok (emerging_rows names
                (frequencies_per_document
                   (transform emerging_vectorizer names target_texts)
                   (length target_texts))
                (frequencies_per_document
                   (transform emerging_vectorizer names comparison_texts)
                   (length comparison_texts))
                top_n)
      | Raise _ => Ok []
      end
  end.
Proof.
  destruct target_articles as [|a T]; [reflexivity |].
  destruct comparison_articles as [|b C]; [reflexivity |].
  unfold find_emerging_terms.
  change ((length (a :: T) =? 0) || (length (b :: C) =? 0)) with false. cbv iota.
  cbv zeta. destruct (fit_transform _ _) as [X|e]; reflexivity.
Qed.

End EmergingClaims.

Section EmergingRows.
Context {U : UnicodeExt}.

Lemma emerging_rows_spec names tf cf top_n :
  let rows := emerging_rows names tf cf top_n in
  Forall (fun row => (0.01 < Emerging.target_freq row)%Q) rows /\
  StronglySorted
    (fun a b => (Emerging.emergence_score b <= Emerging.emergence_score a)%Q) rows /\
  ((0 <= top_n)%Z -> (Z.of_nat (length rows) <= top_n)%Z) /\
  Forall (fun row => exists i,
            i < length tf /\
            Emerging.term row = nth i names [] /\
            Emerging.emergence_score row = nth i (emergence_scores tf cf) 0%Q /\
            Emerging.target_freq row = nth i tf 0%Q /\
            Emerging.baseline_freq row = nth i cf 0%Q) rows.
Proof.
  unfold emerging_rows.
  set (es := emergence_scores tf cf).
  set (valid := filter _ (seq 0 (length tf))).
  set (keys := map (fun i => nth i es 0%Q) valid).
  set (ks := rev (argsort keys)).
  assert (Hks : Forall (fun k => k < length valid) ks).
  { apply Forall_forall. intros k Hk. apply in_rev, argsort_bound in Hk.
    unfold keys in Hk. now rewrite length_map in Hk. }
  assert (Hvalid : forall i, In i (slice_to top_n (map (fun k => nth k valid 0) ks)) ->
                             In i valid).
  { intros i Hi. apply slice_to_In, in_map_iff in Hi. destruct Hi as (k & <- & Hk).
    rewrite Forall_forall in Hks. apply nth_In. auto. }
  cbv zeta. repeat split.
  - apply Forall_map, Forall_forall. intros i Hi. simpl.
    apply Hvalid, filter_In in Hi. now apply Qlt_bool_lt.
  - apply StronglySorted_map. simpl. apply slice_to_sorted, StronglySorted_map.
    apply StronglySorted_within
      with (P := fun k => k < length valid)
           (R := fun k k' => (nth k' keys 0 <= nth k keys 0)%Q);
      [| assumption | apply (StronglySorted_rev _ _ (argsort_sorted keys))].
    intros k k' Hk Hk' H. unfold keys in H.
    now rewrite !(nth_map_in (fun i => nth i es 0%Q) valid _ 0) in H.
  - intros Hn. rewrite length_map. now apply slice_to_length.
  - apply Forall_map, Forall_forall. intros i Hi. simpl. exists i.
    apply Hvalid, filter_In in Hi. destruct Hi as [Hi _]. apply in_seq in Hi.
    repeat split; try reflexivity. lia.
Qed.

(** C7: every returned row has a target frequency above 0.01; the rows are
    in descending order of emergence score; there are at most [top_n] of
    them (for a [top_n] that is not negative); each row carries the term
    and the entries of the three arrays at one index of the vocabulary. *)
Theorem emerging_terms_filtered_and_sorted target_articles comparison_articles top_n rows :
  find_emerging_terms target_articles comparison_articles top_n = Ok rows ->
  Forall (fun row => (0.01 < Emerging.target_freq row)%Q) rows /\
  StronglySorted
    (fun a b => (Emerging.emergence_score b <= Emerging.emergence_score a)%Q) rows /\
  ((0 <= top_n)%Z -> (Z.of_nat (length rows) <= top_n)%Z) /\
  Forall (fun row =>
            (Emerging.emergence_score row
             = (Emerging.target_freq row + 0.001) / (Emerging.baseline_freq row + 0.001))%Q /\
            Emerging.target_freq row
            = (inject_Z (total_count emerging_vectorizer (Emerging.term row)
                           (map clean_text target_articles))
               / inject_Z (Z.of_nat (length target_articles)))%Q /\
            Emerging.baseline_freq row
            = (inject_Z (total_count emerging_vectorizer (Emerging.term row)
                           (map clean_text comparison_articles))
               / inject_Z (Z.of_nat (length comparison_articles)))%Q) rows.
Proof.
  rewrite find_emerging_terms_cases.
  assert (Hnil : Forall (fun row => (0.01 < Emerging.target_freq row)%Q) [] /\
                 StronglySorted
                   (fun a b => (Emerging.emergence_score b
                                <= Emerging.emergence_score a)%Q) [] /\
                 ((0 <= top_n)%Z -> (Z.of_nat (@length Emerging.row []) <= top_n)%Z))
    by (repeat split; try constructor; trivial).
  destruct target_articles as [|a T];
    [intros H; injection H as <-; repeat split; try apply Hnil; constructor |].
  destruct comparison_articles as [|b C];
    [intros H; injection H as <-; repeat split; try apply Hnil; constructor |].
  cbv zeta.
  destruct (fit_transform _ _) as [X|e];
    [| intros H; injection H as <-; repeat split; try apply Hnil; constructor].
  intros H. injection H as <-.
  match goal with
  | |- context [emerging_rows ?n ?tf ?cf top_n] =>
      destruct (emerging_rows_spec n tf cf top_n) as (H1 & H2 & H3 & H4)
  end.
  cbv zeta in *. repeat split; try assumption.
  eapply Forall_impl; [| exact H4]. clear H1 H2 H3 H4.
  intros row (i & Hi & Et & Es & Etf & Ecf).
  rewrite frequencies_per_document_length, transform_length in Hi.
  rewrite Es, Etf, Ecf, Et, <- !(length_map clean_text).
  rewrite !frequencies_per_document_nth by assumption.
  repeat split.
  unfold emergence_scores.
  rewrite (zip_with_nth _ _ _ i 0%Q 0%Q 0%Q);
    rewrite ?frequencies_per_document_length, ?transform_length; try assumption.
  now rewrite !frequencies_per_document_nth by assumption.
Qed.

End EmergingRows.

Lemma zika_fit :
  fit_transform emerging_vectorizer
    (map clean_text zika_target ++ map clean_text zika_baseline) = Ok zika_fitted.
Proof. vm_compute. reflexivity. Qed.

(** The four rows, best first, with the scores as exact rationals:
    ["zika"] scores (2 + 0.001) / (0 + 0.001), and ["brote"], as frequent
    in both corpora, scores 1. *)
Example zika_emerges :
  match find_emerging_terms zika_target zika_baseline 15 with
  | Ok rows =>
      map (fun r => (Emerging.term r, Qred (Emerging.emergence_score r))) rows
      = [(str_of "zika", 2001%Q); (str_of "zika zika", 1001%Q);
         (str_of "zika brote", 1001%Q); (str_of "brote", 1%Q)]
  | Raise _ => False
  end.
Proof. vm_compute. reflexivity. Qed.

(** C7, witness: the zika corpora with [top_n = 2]; the two rows are
    those of ["zika"] and ["zika zika"]. *)
Lemma emerging_terms_filtered_and_sorted_witness :
  let rows := ranked (find_emerging_terms zika_target zika_baseline 2) in
  Forall (fun row => (0.01 < Emerging.target_freq row)%Q) rows /\
  StronglySorted
    (fun a b => (Emerging.emergence_score b <= Emerging.emergence_score a)%Q) rows /\
  ((0 <= 2)%Z -> (Z.of_nat (length rows) <= 2)%Z) /\
  Forall (fun row =>
            (Emerging.emergence_score row
             = (Emerging.target_freq row + 0.001) / (Emerging.baseline_freq row + 0.001))%Q /\
            Emerging.target_freq row
            = (inject_Z (total_count emerging_vectorizer (Emerging.term row)
                           (map clean_text zika_target))
               / inject_Z (Z.of_nat (length zika_target)))%Q /\
            Emerging.baseline_freq row
            = (inject_Z (total_count emerging_vectorizer (Emerging.term row)
                           (map clean_text zika_baseline))
               / inject_Z (Z.of_nat (length zika_baseline)))%Q) rows.
Proof.
  apply (emerging_terms_filtered_and_sorted zika_target zika_baseline 2).
  vm_compute. reflexivity.
Defined.

(** ** Co-occurrence ranking *)

Section ReFindall.
Context {G : Type} (p : pattern G).

(** What [findall] returns was captured by the pattern at some position
    of the subject. *)
Lemma re_findall_from_Forall (I : str -> Prop) (J : G -> Prop) :
  (forall c r, I (c :: r) -> I r) ->
  (forall before s n g, I s -> p before s = Some (n, g) -> J g) ->
  forall s before inside, I s -> Forall J (re_findall_from p before inside s).
Proof.
  intros Htail Hp. induction s as [|c s IH]; intros before inside Hs; simpl;
    [constructor |].
  pose proof (Htail _ _ Hs) as Hs'.
  destruct inside as [|k]; [| now apply IH].
  destruct (p before (c :: s)) as [[[|k] g]|] eqn:E; try now apply IH.
  constructor; [now apply (Hp before (c :: s) (S k)) | now apply IH].
Qed.

End ReFindall.


Lemma skipn_Forall {A} (P : A -> Prop) n (l : list A) :
  Forall P l -> Forall P (skipn n l).
Proof.
  revert l. induction n as [|n IH]; intros l H; simpl; [assumption |].
  destruct H; [constructor | auto].
Qed.


Section CooccurrenceClaims.
Context {U : UnicodeExt}.


Lemma find_cooccurrences_cases term articles top_n :
  find_cooccurrences term articles top_n =
  match articles with
  | [] => Ok []
  | _ :: _ =>
      match fit_transform cooccurrence_vectorizer (map clean_text articles) with
      | Ok X => Ok (cooccurrence_rows term X top_n)
      | Raise _ => Ok []
      end
  end.
Proof.
  destruct articles as [|a articles]; [reflexivity |].
  unfold find_cooccurrences.
  change (length (a :: articles) =? 0) with false. cbv iota zeta.
  destruct (fit_transform _ _) as [X|e]; reflexivity.
Qed.

Lemma cooccurrence_rows_spec term X top_n :
  let rows := cooccurrence_rows term X top_n in
  Forall (fun row => exists col,
            In (Cooccurrence.cooccurring_term row, col) X /\
            Cooccurrence.frequency row = sum_Z col /\
            contains (lower term) (Cooccurrence.cooccurring_term row) = false) rows /\
  StronglySorted
    (fun a b => (Cooccurrence.frequency b <= Cooccurrence.frequency a)%Z) rows /\
  ((0 <= top_n)%Z -> (Z.of_nat (length rows) <= top_n)%Z).
Proof.
  unfold cooccurrence_rows. cbv zeta.
  set (names := map fst X).
  set (freqs := map (fun col => sum_Z (snd col)) X).
  set (valid := filter _ (seq 0 (length names))).
  repeat split.
  - apply Forall_map, Forall_forall. intros i Hi. simpl.
    apply slice_to_In in Hi.
    apply (Permutation_in _ (sort_Permutation _ _)) in Hi.
    apply filter_In in Hi. destruct Hi as [Hi Hc].
    apply in_seq in Hi. unfold names in Hi. rewrite length_map in Hi.
    exists (snd (nth i X ([], []))). repeat split.
    + unfold names. rewrite (nth_map_in fst X i ([], [])) by lia.
      rewrite <- surjective_pairing. apply nth_In. lia.
    + unfold freqs. now rewrite (nth_map_in _ X i ([], [])) by lia.
    + now apply negb_true_iff in Hc.
  - apply StronglySorted_map. simpl. apply slice_to_sorted.
    eapply StronglySorted_weaken; [| apply sorted_by_reverse_sorted].
    intros i j H. simpl in H. now rewrite <- Zle_Qle in H.
  - intros Hn. rewrite length_map. now apply slice_to_length.
Qed.


End CooccurrenceClaims.


(** ** Empty corpora and failures of the vectorizer *)

Section Failures.
Context {U : UnicodeExt} {F : FloatOps}.

(** C2: on an empty frame both rankers return the empty frame, for every
    [top_n]; when the vectorizer raises, both return the empty frame; and
    neither ever raises. *)
Theorem rankers_return_empty_and_never_raise :
  (forall top_n, get_tfidf_by_period [] top_n = Ok []) /\
  (forall term top_n, find_cooccurrences term [] top_n = Ok []) /\
  (forall articles top_n e,
     tfidf_fit_transform tfidf_vectorizer (map clean_text articles) = Raise e ->
     get_tfidf_by_period articles top_n = Ok []) /\
  (forall term articles top_n e,
     fit_transform cooccurrence_vectorizer (map clean_text articles) = Raise e ->
     find_cooccurrences term articles top_n = Ok []) /\
  (forall articles top_n, exists rows, get_tfidf_by_period articles top_n = Ok rows) /\
  (forall term articles top_n,
     exists rows, find_cooccurrences term articles top_n = Ok rows).
Proof.
  split; [reflexivity |]. split; [reflexivity |].
  split; [| split; [| split]].
  - intros articles top_n e He. rewrite get_tfidf_by_period_cases.
    destruct articles; [reflexivity |].
    unfold tfidf_fit_transform, bind in He.
    destruct (fit_transform _ _); [discriminate | reflexivity].
  - intros term articles top_n e He. rewrite find_cooccurrences_cases.
    destruct articles; [reflexivity |]. now rewrite He.
  - intros articles top_n. rewrite get_tfidf_by_period_cases.
    destruct articles; [eauto |]. destruct (fit_transform _ _); eauto.
  - intros term articles top_n. rewrite find_cooccurrences_cases.
    destruct articles; [eauto |]. destruct (fit_transform _ _); eauto.
Qed.

End Failures.

(** C2, witness: the three ways in which the vectorizer fails. *)
Lemma rankers_return_empty_witness :
  tfidf_fit_transform tfidf_vectorizer (map clean_text stop_word_corpus)
  = Raise (ValueError
             "empty vocabulary; perhaps the documents only contain stop words") /\
  get_tfidf_by_period stop_word_corpus 20 = Ok [] /\
  tfidf_fit_transform tfidf_vectorizer (map clean_text short_corpus)
  = Raise (ValueError "max_df corresponds to < documents than min_df") /\
  get_tfidf_by_period short_corpus 20 = Ok [] /\
  fit_transform cooccurrence_vectorizer (map clean_text scattered_corpus)
  = Raise (ValueError
             "After pruning, no terms remain. Try a lower min_df or a higher max_df.") /\
  find_cooccurrences (str_of "duarte") scattered_corpus 20 = Ok [].
Proof.
  destruct rankers_return_empty_and_never_raise as (_ & _ & Htfidf & Hcooc & _).
  assert (H1 : tfidf_fit_transform tfidf_vectorizer (map clean_text stop_word_corpus)
               = Raise (ValueError
                   "empty vocabulary; perhaps the documents only contain stop words"))
    by (vm_compute; reflexivity).
  assert (H2 : tfidf_fit_transform tfidf_vectorizer (map clean_text short_corpus)
               = Raise (ValueError "max_df corresponds to < documents than min_df"))
    by (vm_compute; reflexivity).
  assert (H3 : fit_transform cooccurrence_vectorizer (map clean_text scattered_corpus)
               = Raise (ValueError
                   "After pruning, no terms remain. Try a lower min_df or a higher max_df."))
    by (vm_compute; reflexivity).
  split; [exact H1 |].
  split; [exact (Htfidf stop_word_corpus 20%Z _ H1) |].
  split; [exact H2 |].
  split; [exact (Htfidf short_corpus 20%Z _ H2) |].
  split; [exact H3 |].
  exact (Hcooc (str_of "duarte") scattered_corpus 20%Z _ H3).
Defined.

(** ** Candidate names *)

Lemma counter_get_add counts x key :
  counter_get (counter_add counts x) key
  = if str_eqb key x then (counter_get counts key + 1)%Z else counter_get counts key.
Proof.
  induction counts as [|[k n] rest IH]; simpl.
  - now destruct (str_eqb key x).
  - destruct (str_eqb x k) eqn:Exk; simpl.
    + apply str_eqb_eq in Exk. subst k.
      destruct (str_eqb key x); reflexivity.
    + destruct (str_eqb key k) eqn:Ekk; [| exact IH].
      apply str_eqb_eq in Ekk. subst k.
      destruct (str_eqb key x) eqn:E; [| reflexivity].
      apply str_eqb_eq in E. subst x. rewrite str_eqb_refl in Exk. discriminate.
Qed.

Lemma count_cons key x l :
  count key (x :: l) = ((if str_eqb key x then 1 else 0) + count key l)%Z.
Proof.
  unfold count. simpl. destruct (str_eqb key x); simpl length; lia.
Qed.

Lemma counter_get_fold names : forall counts key,
  counter_get (fold_left counter_add names counts) key
  = (counter_get counts key + count key names)%Z.
Proof.
  induction names as [|x names IH]; intros counts key; simpl.
  - unfold count. simpl. lia.
  - rewrite IH, counter_get_add, count_cons.
    destruct (str_eqb key x); lia.
Qed.

Lemma counter_add_keys counts x k :
  In k (map fst (counter_add counts x)) -> k = x \/ In k (map fst counts).
Proof.
  induction counts as [|[k' n] rest IH]; simpl.
  - intros [<- | []]. now left.
  - destruct (str_eqb x k'); simpl; [now right |].
    intros [<- | H]; [right; now left |].
    destruct (IH H); auto.
Qed.

Lemma counter_add_wf counts x : counter_wf counts -> counter_wf (counter_add counts x).
Proof.
  unfold counter_wf. induction counts as [|[k n] rest IH]; simpl; intros [Hnd Hpos].
  - split; repeat constructor; [intros [] | simpl; lia].
  - inversion_clear Hnd as [|? ? Hk Hrest]. inversion_clear Hpos as [|? ? Hn Hpos'].
    destruct (str_eqb x k) eqn:E; simpl.
    + split; constructor; simpl in *; try assumption; lia.
    + destruct (IH (conj Hrest Hpos')) as [Hnd' Hpos''].
      split; constructor; try assumption.
      intros Hin. apply counter_add_keys in Hin. destruct Hin as [-> | Hin]; [| auto].
      rewrite str_eqb_refl in E. discriminate.
Qed.

Lemma counter_fold_wf names : forall counts,
  counter_wf counts -> counter_wf (fold_left counter_add names counts).
Proof.
  induction names as [|x names IH]; intros counts H; simpl; [assumption |].
  now apply IH, counter_add_wf.
Qed.

Lemma counter_get_In counts k n :
  NoDup (map fst counts) -> In (k, n) counts -> counter_get counts k = n.
Proof.
  induction counts as [|[k' n'] rest IH]; simpl; intros Hnd Hin; [destruct Hin |].
  inversion_clear Hnd as [|? ? Hk Hrest].
  destruct Hin as [E | Hin].
  - injection E as -> ->. now rewrite str_eqb_refl.
  - destruct (str_eqb k k') eqn:E; [| auto].
    apply str_eqb_eq in E. subst k'. exfalso. apply Hk.
    apply in_map_iff. now exists (k, n).
Qed.

Lemma most_common_In n counts kv : In kv (most_common n counts) -> In kv counts.
Proof.
  unfold most_common. destruct (n <=? 0)%Z; [intros [] |].
  intros H.
  assert (H' : In kv (sorted_by_reverse (fun kv => inject_Z (snd kv)) counts))
    by (rewrite <- (firstn_skipn (Z.to_nat n)); apply in_or_app; now left).
  revert H'. apply Permutation_in, sort_Permutation.
Qed.

Lemma most_common_sorted n counts :
  StronglySorted (fun a b => (snd b <= snd a)%Z) (most_common n counts).
Proof.
  unfold most_common. destruct (n <=? 0)%Z; [constructor |].
  assert (H : StronglySorted (fun a b : str * Z => (snd b <= snd a)%Z)
                (sorted_by_reverse (fun kv => inject_Z (snd kv)) counts)).
  { eapply StronglySorted_weaken; [| apply sorted_by_reverse_sorted].
    intros a b H. simpl in H. now rewrite <- Zle_Qle in H. }
  rewrite <- (firstn_skipn (Z.to_nat n)) in H.
  now apply StronglySorted_app_inv in H.
Qed.

Section ActorsClaims.
Context {U : UnicodeExt}.

Lemma count_matches_fold false_positives matches : forall counts,
  fold_left
    (fun name_counts (m : str * str) =>
       let (first, last) := m in
       let name := first ++ str_of " " ++ last in
       if negb (mem name false_positives)
          && (2 <? length first) && (2 <? length last)
       then counter_add name_counts name
       else name_counts)
    matches counts
  = fold_left counter_add
      (map full_name (filter (accepted false_positives) matches)) counts.
Proof.
  induction matches as [|[first last] matches IH]; intros counts; [reflexivity |].
  cbn [fold_left filter]. rewrite IH. unfold accepted, full_name. cbn [fst snd].
  now destruct (negb _ && _ && _).
Qed.

Lemma count_names_fold false_positives articles :
  count_names false_positives articles
  = fold_left counter_add (candidate_names false_positives articles) [].
Proof.
  unfold count_names, candidate_names. generalize (@nil (str * Z)).
  induction articles as [|row articles IH]; intros counts; [reflexivity |].
  cbn [fold_left flat_map]. rewrite fold_left_app, IH. f_equal.
  apply count_matches_fold.
Qed.

(** Each returned row holds a candidate name and the number of times the
    loop met it; the rows are in descending order of that number. *)
Lemma key_actors_spec false_positives articles top_n :
  let rows := key_actors false_positives articles top_n in
  Forall (fun row =>
            Actors.mentions row
            = count (Actors.actor row) (candidate_names false_positives articles) /\
            (1 <= Actors.mentions row)%Z) rows /\
  StronglySorted (fun a b => (Actors.mentions b <= Actors.mentions a)%Z) rows /\
  NoDup (map Actors.actor rows).
Proof.
  unfold key_actors. cbv zeta. rewrite count_names_fold.
  set (names := candidate_names false_positives articles).
  assert (Hwf : counter_wf (fold_left counter_add names []))
    by (apply counter_fold_wf; split; constructor).
  destruct Hwf as [Hnd Hpos].
  repeat split.
  - apply Forall_map, Forall_forall. intros [k n] Hin. simpl.
    apply most_common_In in Hin. split.
    + rewrite <- (counter_get_In _ _ _ Hnd Hin). now rewrite counter_get_fold.
    + rewrite Forall_forall in Hpos. apply (Hpos _ Hin).
  - apply StronglySorted_map. simpl. apply most_common_sorted.
  - rewrite map_map. simpl.
    unfold most_common. destruct (top_n <=? 0)%Z; [constructor |].
    set (ordered := sorted_by_reverse _ _).
    assert (H : NoDup (map fst ordered)).
    { eapply Permutation_NoDup; [| exact Hnd].
      apply Permutation_map. symmetry. apply sort_Permutation. }
    rewrite <- (firstn_skipn (Z.to_nat top_n) ordered), map_app in H.
    now apply NoDup_app_remove_r in H.
Qed.

End ActorsClaims.

Lemma re_findall_from_occurrences {G} (p : pattern G) g s :
  forall before inside,
    In g (re_findall_from p before inside s) -> In g (re_occurrences_from p before s).
Proof.
  induction s as [|c s IH]; intros before inside; simpl; [trivial |].
  destruct inside as [|k].
  - destruct (p before (c :: s)) as [[[|k] g']|]; simpl; eauto.
    intros [-> | H]; [now left | right; eauto].
  - intros H. apply IH in H.
    destruct (p before (c :: s)) as [[[|k'] g']|]; simpl; auto.
Qed.

Section ActorsTheorems.
Context {U : UnicodeExt}.

(** C5, as amended: the frequency of a candidate is the number of
    accepted matches with its name among those that [findall] returns for
    the texts, scanning each from left to right and resuming after the end
    of a match (an occurrence that begins inside a match is not counted);
    each candidate has one row, and the rows are in descending order of
    frequency. In particular the text of the specification gives
    ["Javier Duarte"] twice, with an empty set of false positives as with
    the set of the module. *)
Theorem key_actors_count_findall_matches :
  (let doc := {| Actors.title := None;
                 Actors.body :=
                   Some (str_of "Javier Duarte fue acusado. Javier Duarte huyó.") |} in
   let expected := [{| Actors.actor := str_of "Javier Duarte";
                       Actors.mentions := 2 |}] in
   key_actors [] [doc] 30 = expected /\ extract_key_actors [doc] 30 = expected) /\
  forall articles top_n,
    Forall (fun row =>
              Actors.mentions row
              = count (Actors.actor row) (candidate_names false_positives articles) /\
              (1 <= Actors.mentions row)%Z /\
              In (Actors.actor row)
                (flat_map (fun a => map full_name
                                      (re_occurrences_from name_pattern []
                                         (scanned_text a))) articles))
      (extract_key_actors articles top_n) /\
    StronglySorted (fun a b => (Actors.mentions b <= Actors.mentions a)%Z)
      (extract_key_actors articles top_n) /\
    NoDup (map Actors.actor (extract_key_actors articles top_n)).
Proof.
  split; [split; vm_compute; reflexivity |].
  intros articles top_n. unfold extract_key_actors.
  destruct (key_actors_spec false_positives articles top_n) as (H1 & H2 & H3).
  repeat split; try assumption.
  eapply Forall_impl; [| exact H1]. intros row [Hc Hpos].
  repeat split; try assumption.
  assert (Hin : In (Actors.actor row) (candidate_names false_positives articles)).
  { rewrite Hc in Hpos. unfold count in Hpos.
    destruct (filter _ _) as [|x l] eqn:E; [simpl in Hpos; lia |].
    assert (Hx : In x (filter (str_eqb (Actors.actor row))
                         (candidate_names false_positives articles)))
      by (rewrite E; now left).
    apply filter_In in Hx. destruct Hx as [Hx Heq].
    apply str_eqb_eq in Heq. now subst x. }
  unfold candidate_names in Hin. apply in_flat_map in Hin.
  destruct Hin as (a & Ha & Hin). apply in_flat_map. exists a. split; [assumption |].
  apply in_map_iff in Hin. destruct Hin as (m & <- & Hm).
  apply in_map. apply filter_In in Hm. destruct Hm as [Hm _].
  now apply re_findall_from_occurrences in Hm.
Qed.

End ActorsTheorems.

(** C5, counterexample: in ["Juan Carlos Pérez"] the pattern occurs twice,
    at ["Juan Carlos"] and at ["Carlos Pérez"]; the second occurrence
    begins inside the first match, [findall] does not return it, and
    ["Carlos Pérez"] gets no row. *)
Lemma key_actors_miss_overlapping_occurrence :
  let doc := {| Actors.title := None;
                Actors.body := Some (str_of "Juan Carlos Pérez") |} in
  map full_name (re_occurrences_from name_pattern [] (scanned_text doc))
  = [str_of "Juan Carlos"; str_of "Carlos Pérez"] /\
  key_actors [] [doc] 30
  = [{| Actors.actor := str_of "Juan Carlos"; Actors.mentions := 1 |}] /\
  extract_key_actors [doc] 30
  = [{| Actors.actor := str_of "Juan Carlos"; Actors.mentions := 1 |}] /\
  ~ In (str_of "Carlos Pérez") (map Actors.actor (key_actors [] [doc] 30)).
Proof.
  vm_compute. repeat split; try reflexivity.
  intros [H | []]. discriminate H.
Qed.

(** ** Sentiment by year *)

Lemma year_eqb_eq a b : year_eqb a b = true <-> a = b.
Proof.
  destruct a as [x|], b as [y|]; simpl; split; try discriminate; try reflexivity.
  - intros H. apply Z.eqb_eq in H. now subst.
  - intros H. injection H as ->. apply Z.eqb_refl.
Qed.

Section DistinctFacts.
Context {A : Type} (eqb : A -> A -> bool).
Hypothesis eqb_eq : forall a b, eqb a b = true <-> a = b.

Lemma existsb_eqb_In x l : existsb (eqb x) l = true <-> In x l.
Proof.
  rewrite existsb_exists. split.
  - intros (y & Hy & E). apply eqb_eq in E. now subst.
  - intros H. exists x. split; [assumption | now apply eqb_eq].
Qed.

Lemma distinct_In_iff l : forall seen x,
  In x (distinct eqb seen l) <-> In x l /\ ~ In x seen.
Proof.
  induction l as [|y l IH]; intros seen x; simpl; [tauto |].
  destruct (existsb (eqb y) seen) eqn:E.
  - apply existsb_eqb_In in E. rewrite IH. split; [tauto |].
    intros [[-> | H] Hs]; tauto.
  - assert (Hy : ~ In y seen)
      by (intros H; apply existsb_eqb_In in H; congruence).
    simpl. rewrite IH. simpl. split.
    + intros [-> | [H Hs]]; [tauto |]. split; [tauto |]. tauto.
    + intros [[-> | H] Hs]; [tauto |].
      destruct (eqb y x) eqn:Eyx; [apply eqb_eq in Eyx; tauto |].
      right. split; [assumption |]. intros [-> | H']; [| tauto].
      assert (eqb x x = true) by now apply eqb_eq. congruence.
Qed.

Lemma distinct_NoDup l : forall seen, NoDup (distinct eqb seen l).
Proof.
  induction l as [|y l IH]; intros seen; simpl; [constructor |].
  destruct (existsb (eqb y) seen); [apply IH |].
  constructor; [| apply IH].
  rewrite distinct_In_iff. simpl. tauto.
Qed.

End DistinctFacts.

Section SentimentClaims.
Context {U : UnicodeExt}.

Lemma flagged_iff keywords a :
  flagged keywords a = true <->
  exists keyword b,
    In keyword keywords /\ Sentiment.body a = Some b /\
    contains (lower keyword) (lower b) = true.
Proof.
  unfold flagged, ilike. rewrite existsb_exists. split.
  - intros (kw & Hin & H). destruct (Sentiment.body a) as [b|]; [| discriminate].
    now exists kw, b.
  - intros (kw & b & Hin & -> & H). now exists kw.
Qed.

Lemma sentiment_years articles y :
  In y (sort year_leb (distinct year_eqb [] (map Sentiment.year articles)))
  <-> In y (map Sentiment.year articles).
Proof.
  split.
  - intros H. apply (Permutation_in _ (sort_Permutation _ _)) in H.
    now apply (distinct_In_iff year_eqb year_eqb_eq) in H.
  - intros H. apply (Permutation_in _ (Permutation_sym (sort_Permutation _ _))).
    apply (distinct_In_iff year_eqb year_eqb_eq). split; [assumption | intros []].
Qed.

Lemma analyze_sentiment_years articles :
  map Sentiment.año (analyze_sentiment_by_year articles)
  = sort year_leb (distinct year_eqb [] (map Sentiment.year articles)).
Proof.
  unfold analyze_sentiment_by_year, sentiment_query. rewrite !map_map. simpl.
  apply map_id.
Qed.

(** C9: each row of the result belongs to a year that has at least one
    article; its three counts are the number of articles of that year, of
    those flagged positive and of those flagged negative (an article is
    flagged by a keyword set when its body contains one of the keywords,
    whatever the case; nothing prevents both flags); the three percentages
    are [positive / total * 100], [negative / total * 100] and
    [(positive - negative) / total * 100]. There is one row per year with
    articles and none for any other year, so no division by zero. *)
Theorem sentiment_ratios_over_nonempty_partitions articles :
  Forall (fun row =>
            let docs := partition_of (Sentiment.año row) articles in
            let total := Sentiment.total_articulos row in
            let positive := Sentiment.articulos_positivos row in
            let negative := Sentiment.articulos_negativos row in
            total = Z.of_nat (length docs) /\
            (0 < total)%Z /\
            positive = Z.of_nat (length (filter (flagged positive_keywords) docs)) /\
            negative = Z.of_nat (length (filter (flagged negative_keywords) docs)) /\
            Sentiment.pct_positivo row
            = (inject_Z positive / inject_Z total * 100)%Q /\
            Sentiment.pct_negativo row
            = (inject_Z negative / inject_Z total * 100)%Q /\
            Sentiment.balance_sentimiento row
            = (inject_Z (positive - negative) / inject_Z total * 100)%Q)
    (analyze_sentiment_by_year articles) /\
  (forall y, In y (map Sentiment.año (analyze_sentiment_by_year articles))
             <-> In y (map Sentiment.year articles)) /\
  NoDup (map Sentiment.año (analyze_sentiment_by_year articles)) /\
  (forall keywords a,
     flagged keywords a = true <->
     exists keyword b,
       In keyword keywords /\ Sentiment.body a = Some b /\
       contains (lower keyword) (lower b) = true).
Proof.
  split; [| split; [| split]].
  - unfold analyze_sentiment_by_year, sentiment_query.
    apply Forall_map, Forall_map, Forall_forall. intros y Hy. simpl.
    fold (partition_of y articles).
    repeat split; try reflexivity.
    apply sentiment_years, in_map_iff in Hy. destruct Hy as (a & Ha & Hin).
    assert (Hmem : In a (partition_of y articles)).
    { apply filter_In. split; [assumption | now apply year_eqb_eq]. }
    unfold count_rows. destruct (partition_of y articles); [destruct Hmem |].
    simpl length. lia.
  - intros y. rewrite analyze_sentiment_years. apply sentiment_years.
  - rewrite analyze_sentiment_years.
    eapply Permutation_NoDup; [symmetry; apply sort_Permutation |].
    apply (distinct_NoDup year_eqb year_eqb_eq).
  - apply flagged_iff.
Qed.

End SentimentClaims.

(** The keywords of the query are not the lexicon of the module:
    ["lograr"] is one of [POSITIVE_WORDS], and an article that says only
    ["lograr"] is not flagged. *)
Example query_keywords_are_not_the_lexicon :
  mem (str_of "lograr") POSITIVE_WORDS = true /\
  flagged positive_keywords
    {| Sentiment.year := None; Sentiment.body := Some (str_of "lograr") |} = false.
Proof. vm_compute. split; reflexivity. Qed.

(** The test of the specification: three articles of one year, one
    flagged positive, one flagged negative; and a partition whose only
    article carries both flags. *)
Example sentiment_of_three_articles :
  let article y text :=
    {| Sentiment.year := Some y; Sentiment.body := Some (str_of text) |} in
  map (fun row => (Sentiment.año row, Sentiment.total_articulos row,
                   Sentiment.articulos_positivos row,
                   Sentiment.articulos_negativos row,
                   Qred (Sentiment.pct_positivo row),
                   Qred (Sentiment.pct_negativo row),
                   Qred (Sentiment.balance_sentimiento row)))
    (analyze_sentiment_by_year
       [article 2016%Z "hubo un éxito y logro"%string;
        article 2016%Z "hubo un crimen y fraude"%string;
        article 2016%Z "día normal"%string;
        article 2017%Z "Éxito contra la CRISIS"%string])
  = [(Some 2016%Z, 3%Z, 1%Z, 1%Z, (100 # 3)%Q, (100 # 3)%Q, 0%Q);
     (Some 2017%Z, 1%Z, 1%Z, 1%Z, 100%Q, 100%Q, 0%Q)].
Proof. vm_compute. reflexivity. Qed.

(** ** The model against the interpreter

    What CPython 3.11 returns for the same calls. *)

Example clean_text_examples :
  map (fun text => clean_text (Some (str_of text))) [
    "  Hola,   Mundo 123 ñandú!  "; "HTTP://x.y/z fin"; "x a@b.c y";
    "a@@"; "@ab"; "a@"; "http x"; "ww1wx"
  ]%string
  = map str_of [
    "hola mundo ñandú"; "fin"; "x y"; ""; "ab"; "a"; "http x"; "wwwx"
  ]%string.
Proof. vm_compute. reflexivity. Qed.

Example name_pattern_examples :
  map (fun text => map full_name (re_findall name_pattern (str_of text))) [
    "Juan Carlos Pérez Gómez"; "xJuan Carlos"; "Juan CarlosX Pepe Luis";
    "Juan Carlos1"; "Jo Ab"; "Güero Pérez"; "Juan Carlosü"
  ]%string
  = map (map str_of) [
    ["Juan Carlos"; "Pérez Gómez"]; []; ["Pepe Luis"]; []; ["Jo Ab"]; []; []
  ]%string.
Proof. vm_compute. reflexivity. Qed.

(** A line break between the two words is white space like any other. *)
Example name_pattern_across_lines :
  re_findall name_pattern (str_of "Juan  " ++ [10%N] ++ str_of " Carlos")
  = [(str_of "Juan", str_of "Carlos")].
Proof. vm_compute. reflexivity. Qed.

Example most_common_examples :
  let counts :=
    fold_left counter_add (map str_of ["b"; "a"; "b"; "a"; "c"]%string) [] in
  most_common 2 counts = [(str_of "b", 2%Z); (str_of "a", 2%Z)] /\
  most_common 0 counts = [] /\
  most_common (-1) counts = [] /\
  most_common 10 counts = [(str_of "b", 2%Z); (str_of "a", 2%Z); (str_of "c", 1%Z)].
Proof. vm_compute. repeat split; reflexivity. Qed.

Example slice_examples :
  slice_from (- 0) [1; 2; 3] = [1; 2; 3] /\
  slice_from (- 2) [1; 2; 3] = [2; 3] /\
  slice_from (- 5) [1; 2; 3] = [1; 2; 3] /\
  slice_from 2 [1; 2; 3] = [3] /\
  slice_to (- 1) [1; 2; 3] = [1; 2] /\
  slice_to (- 5) [1; 2; 3] = [] /\
  slice_to 2 [1; 2; 3] = [1; 2].
Proof. repeat split; reflexivity. Qed.

(* ================================================================= *)
(** * Further properties *)

(** ** Percentages of the two keyword counters *)

Lemma year_leb_total a b : year_leb a b = false -> year_leb b a = true.
Proof.
  destruct a as [x|], b as [y|]; simpl; try reflexivity; try discriminate.
  intros H. apply Z.leb_gt in H. apply Z.leb_le. lia.
Qed.

Lemma year_leb_trans a b c :
  year_leb a b = true -> year_leb b c = true -> year_leb a c = true.
Proof.
  destruct a as [x|], b as [y|], c as [z|]; simpl; try reflexivity; try discriminate.
  rewrite !Z.leb_le. lia.
Qed.

Lemma filter_length_le {A} (f : A -> bool) l : length (filter f l) <= length l.
Proof.
  induction l as [|x l IH]; simpl; [lia |]. destruct (f x); simpl; lia.
Qed.

(** A part of a positive total, as a percentage, lies between 0 and 100. *)
Lemma percent_bounds part total :
  (0 <= part <= total)%Z -> (0 < total)%Z -> (0 <= percent part total <= 100)%Q.
Proof.
  intros [H0 H1] Ht. unfold percent.
  assert (Hq : (0 < inject_Z total)%Q)
    by (change (inject_Z 0 < inject_Z total)%Q; now rewrite <- Zlt_Qlt).
  assert (Hlo : (0 <= inject_Z part / inject_Z total)%Q)
    by now apply Qdiv_nonneg.
  assert (Hhi : (inject_Z part / inject_Z total <= 1)%Q).
  { apply Qle_shift_div_r; [assumption |]. rewrite Qmult_1_l.
    now rewrite <- Zle_Qle. }
  split.
  - apply Qmult_le_0_compat; [assumption | discriminate].
  - setoid_replace 100%Q with (1 * 100)%Q at 2 by reflexivity.
    apply Qmult_le_compat_r; [assumption | discriminate].
Qed.


(** ** Rows of a [GROUP BY] *)

(** The keys of a [GROUP BY ... ORDER BY]: the values of the grouping
    expression, each once. *)
Lemma group_keys_In keys y :
  In y (sort year_leb (distinct year_eqb [] keys)) <-> In y keys.
Proof.
  split.
  - intros H. apply (Permutation_in _ (sort_Permutation _ _)) in H.
    now apply (distinct_In_iff year_eqb year_eqb_eq) in H.
  - intros H. apply (Permutation_in _ (Permutation_sym (sort_Permutation _ _))).
    apply (distinct_In_iff year_eqb year_eqb_eq). split; [assumption | intros []].
Qed.

Lemma group_keys_NoDup keys : NoDup (sort year_leb (distinct year_eqb [] keys)).
Proof.
  apply (Permutation_NoDup (Permutation_sym (sort_Permutation _ _))).
  apply (distinct_NoDup year_eqb year_eqb_eq).
Qed.

Lemma sum_Z_indicator (k : option Z) keys :
  NoDup keys -> In k keys ->
  sum_Z (map (fun m => if year_eqb k m then 1%Z else 0%Z) keys) = 1%Z.
Proof.
  induction 1 as [|m keys Hm Hnd IH]; intros Hin; [destruct Hin |].
  simpl. destruct (year_eqb k m) eqn:E.
  - apply year_eqb_eq in E. subst m.
    assert (Hz : forall l, ~ In k l ->
                 sum_Z (map (fun m => if year_eqb k m then 1%Z else 0%Z) l) = 0%Z).
    { induction l as [|x l IHl]; intros Hx; [reflexivity |]. simpl.
      destruct (year_eqb k x) eqn:Ex.
      - apply year_eqb_eq in Ex. subst x. exfalso. apply Hx. now left.
      - rewrite IHl; [reflexivity |]. intros H. apply Hx. now right. }
    rewrite Hz by assumption. reflexivity.
  - destruct Hin as [-> | Hin].
    + rewrite (proj2 (year_eqb_eq k k) eq_refl) in E. discriminate.
    + rewrite IH by assumption. reflexivity.
Qed.

(** The groups partition the rows: the group sizes add up to the number
    of rows. *)
Lemma group_totals {A} (key : A -> option Z) (rows : list A) keys :
  NoDup keys -> (forall a, In a rows -> In (key a) keys) ->
  sum_Z (map (fun m => count_rows (filter (fun a => year_eqb (key a) m) rows)) keys)
  = count_rows rows.
Proof.
  intros Hnd. unfold count_rows.
  induction rows as [|a rows IH]; intros Hin.
  - simpl. induction keys as [|m keys IHk]; [reflexivity |].
    simpl. rewrite IHk; [reflexivity | now inversion Hnd | intros ? []].
  - transitivity
      (sum_Z (map (fun m => if year_eqb (key a) m then 1%Z else 0%Z) keys)
       + sum_Z (map (fun m => Z.of_nat (length (filter (fun a => year_eqb (key a) m) rows)))
                    keys))%Z.
    + clear. induction keys as [|m keys IHk]; [reflexivity |].
      rewrite !map_cons. unfold sum_Z in *. cbn [fold_right]. rewrite IHk.
      cbn [filter]. destruct (year_eqb (key a) m); cbn [length]; lia.
    + rewrite sum_Z_indicator, IH.
      * cbn [length]. lia.
      * intros b Hb. apply Hin. now right.
      * assumption.
      * apply Hin. now left.
Qed.

(** ** Percentages by year and by month *)

(** A difference of two parts of a positive total, as a percentage, lies
    between -100 and 100 and has the sign of the difference. *)
Lemma percent_signed_bounds d total :
  (- total <= d <= total)%Z -> (0 < total)%Z -> (-100 <= percent d total <= 100)%Q.
Proof.
  intros Hd Ht. destruct total as [|p|p]; try lia.
  unfold percent, Qle, Qdiv, Qmult, Qinv, inject_Z. simpl. lia.
Qed.

Lemma percent_sign d total :
  (0 < total)%Z ->
  ((0 < percent d total)%Q <-> (0 < d)%Z) /\ ((percent d total < 0)%Q <-> (d < 0)%Z).
Proof.
  intros Ht. destruct total as [|p|p]; try lia.
  unfold percent, Qlt, Qdiv, Qmult, Qinv, inject_Z. simpl. lia.
Qed.

Section SentimentBounds.
Context {U : UnicodeExt}.

(** X1: in every row of [analyze_sentiment_by_year] the two counts lie between
    0 and the total, the two percentages between 0 and 100 and the balance
    between -100 and 100; the balance is above zero exactly when more
    articles are counted positive than negative, and below zero exactly
    when fewer are. The rows are in ascending order of year, a NULL year
    last, no year has two rows, and the totals of the rows add up to the
    number of articles. *)
Theorem sentiment_percentages_are_bounded articles :
  Forall (fun row =>
            (0 <= Sentiment.articulos_positivos row <= Sentiment.total_articulos row)%Z /\
            (0 <= Sentiment.articulos_negativos row <= Sentiment.total_articulos row)%Z /\
            (0 <= Sentiment.pct_positivo row <= 100)%Q /\
            (0 <= Sentiment.pct_negativo row <= 100)%Q /\
            (-100 <= Sentiment.balance_sentimiento row <= 100)%Q /\
            ((0 < Sentiment.balance_sentimiento row)%Q <->
             (Sentiment.articulos_negativos row < Sentiment.articulos_positivos row)%Z) /\
            ((Sentiment.balance_sentimiento row < 0)%Q <->
             (Sentiment.articulos_positivos row < Sentiment.articulos_negativos row)%Z))
    (analyze_sentiment_by_year articles) /\
  StronglySorted
    (fun a b => year_leb (Sentiment.año a) (Sentiment.año b) = true)
    (analyze_sentiment_by_year articles) /\
  NoDup (map Sentiment.año (analyze_sentiment_by_year articles)) /\
  sum_Z (map Sentiment.total_articulos (analyze_sentiment_by_year articles))
  = count_rows articles.
Proof.
  split; [| split; [| split]].
  - unfold analyze_sentiment_by_year, sentiment_query.
    apply Forall_map, Forall_map, Forall_forall. intros y Hy. simpl.
    set (group := filter _ articles).
    assert (Hgroup : (0 < count_rows group)%Z).
    { apply sentiment_years, in_map_iff in Hy. destruct Hy as (a & Ha & Hin).
      assert (Hmem : In a group)
        by (apply filter_In; split; [assumption | now apply year_eqb_eq]).
      unfold count_rows. destruct group; [destruct Hmem | simpl length; lia]. }
    assert (Hpart : forall f, (0 <= count_rows (filter f group) <= count_rows group)%Z).
    { intros f. unfold count_rows. pose proof (filter_length_le f group). lia. }
    pose proof (Hpart (flagged positive_keywords)) as Hp.
    pose proof (Hpart (flagged negative_keywords)) as Hn.
    set (positivos := count_rows (filter (flagged positive_keywords) group)) in *.
    set (negativos := count_rows (filter (flagged negative_keywords) group)) in *.
    fold (percent positivos (count_rows group)).
    fold (percent negativos (count_rows group)).
    fold (percent (positivos - negativos) (count_rows group)).
    destruct (percent_sign (positivos - negativos) (count_rows group) Hgroup)
      as [Hpos Hneg].
    split; [exact Hp |]. split; [exact Hn |].
    split; [now apply percent_bounds |]. split; [now apply percent_bounds |].
    split; [apply percent_signed_bounds; [lia | assumption] |].
    split.
    + rewrite Hpos. lia.
    + rewrite Hneg. lia.
  - unfold analyze_sentiment_by_year, sentiment_query.
    apply StronglySorted_map, StronglySorted_map. simpl.
    apply sort_sorted; [apply year_leb_total | apply year_leb_trans].
  - rewrite analyze_sentiment_years. apply group_keys_NoDup.
  - unfold analyze_sentiment_by_year, sentiment_query. rewrite !map_map. simpl.
    apply group_totals; [apply group_keys_NoDup |].
    intros a Ha. apply group_keys_In. now apply in_map.
Qed.

End SentimentBounds.

Section CoverageFacts.
Context {U : UnicodeExt}.

Lemma coverage_months articles :
  map Coverage.mes (detect_anomalies_in_coverage articles)
  = sort year_leb (distinct year_eqb [] (map Coverage.month articles)).
Proof.
  unfold detect_anomalies_in_coverage, coverage_query. rewrite !map_map. simpl.
  apply map_id.
Qed.

(** X2: [detect_anomalies_in_coverage] returns one row per month that has
    an article, in ascending order of month (a NULL month last). In every
    row the total is the number of articles of the month and is positive,
    each of the five topic counts lies between 0 and the total, and each
    percentage is the count over the total times 100, between 0 and 100.
    The totals add up to the number of articles. *)
Theorem coverage_rows_per_month articles :
  (forall m, In m (map Coverage.mes (detect_anomalies_in_coverage articles))
             <-> In m (map Coverage.month articles)) /\
  NoDup (map Coverage.mes (detect_anomalies_in_coverage articles)) /\
  StronglySorted
    (fun a b => year_leb (Coverage.mes a) (Coverage.mes b) = true)
    (detect_anomalies_in_coverage articles) /\
  Forall (fun row =>
            Coverage.total row
            = count_rows (filter (fun a => year_eqb (Coverage.month a) (Coverage.mes row))
                                 articles) /\
            (0 < Coverage.total row)%Z /\
            Forall (fun topic : Z * Q =>
                      (0 <= fst topic <= Coverage.total row)%Z /\
                      snd topic = percent (fst topic) (Coverage.total row) /\
                      (0 <= snd topic <= 100)%Q)
              [(Coverage.violencia row, Coverage.pct_violencia row);
               (Coverage.corrupcion row, Coverage.pct_corrupcion row);
               (Coverage.economia row, Coverage.pct_economia row);
               (Coverage.salud row, Coverage.pct_salud row);
               (Coverage.educacion row, Coverage.pct_educacion row)])
    (detect_anomalies_in_coverage articles) /\
  sum_Z (map Coverage.total (detect_anomalies_in_coverage articles))
  = count_rows articles.
Proof.
  split; [| split; [| split; [| split]]].
  - intros m. rewrite coverage_months. apply group_keys_In.
  - rewrite coverage_months. apply group_keys_NoDup.
  - unfold detect_anomalies_in_coverage, coverage_query.
    apply StronglySorted_map, StronglySorted_map, StronglySorted_map. simpl.
    apply sort_sorted; [apply year_leb_total | apply year_leb_trans].
  - unfold detect_anomalies_in_coverage, coverage_query.
    apply Forall_map, Forall_map, Forall_map, Forall_forall. intros m Hm. simpl.
    set (group := filter _ articles).
    assert (Hgroup : (0 < count_rows group)%Z).
    { apply group_keys_In, in_map_iff in Hm. destruct Hm as (a & Ha & Hin).
      assert (Hmem : In a group)
        by (apply filter_In; split; [assumption | now apply year_eqb_eq]).
      unfold count_rows. destruct group; [destruct Hmem | simpl length; lia]. }
    assert (Hpart : forall f, (0 <= count_rows (filter f group) <= count_rows group)%Z).
    { intros f. unfold count_rows. pose proof (filter_length_le f group). lia. }
    split; [reflexivity |]. split; [assumption |].
    repeat constructor; simpl; try apply Hpart;
      apply percent_bounds; solve [apply Hpart | assumption].
  - unfold detect_anomalies_in_coverage, coverage_query. rewrite !map_map. simpl.
    apply group_totals; [apply group_keys_NoDup |].
    intros a Ha. apply group_keys_In. now apply in_map.
Qed.

End CoverageFacts.

(** ** Fixed points of [clean_text] *)

Lemma run_length_first_token s :
  run_length non_space s = length (first_token s).
Proof.
  induction s as [|c s IH]; simpl; [reflexivity |].
  change (non_space c) with (negb (is_space c)).
  destruct (is_space c); simpl; [reflexivity | now rewrite IH].
Qed.

Lemma starts_with_first_token lit s :
  forallb non_space lit = true ->
  starts_with lit s = starts_with lit (first_token s).
Proof.
  revert s. induction lit as [|a lit IH]; intros s Hlit; [reflexivity |].
  simpl in Hlit. apply andb_true_iff in Hlit. destruct Hlit as [Ha Hlit].
  destruct s as [|c s]; [reflexivity |]. simpl.
  destruct (is_space c) eqn:Ec.
  - destruct (N.eqb_spec a c) as [-> |]; [| reflexivity].
    unfold non_space in Ha. now rewrite Ec in Ha.
  - simpl. now rewrite (IH s Hlit).
Qed.

Lemma first_token_skipn n s :
  n <= length (first_token s) ->
  length (first_token (skipn n s)) = length (first_token s) - n.
Proof.
  revert s. induction n as [|n IH]; intros s H; [simpl; lia |].
  destruct s as [|c s]; [reflexivity |]. simpl in *.
  destruct (is_space c); simpl in *; [lia |]. apply IH. lia.
Qed.

Lemma starts_with_length lit s : starts_with lit s = true -> length lit <= length s.
Proof.
  revert s. induction lit as [|a lit IH]; intros s H; simpl; [lia |].
  destruct s as [|c s]; [discriminate |]. simpl in *.
  apply andb_true_iff in H. destruct H as [_ H]. apply IH in H. lia.
Qed.

Lemma literal_non_spaces_token lit s :
  forallb non_space lit = true ->
  literal_non_spaces lit s =
  if starts_with lit (first_token s) && (length lit <? length (first_token s))
  then Some (length (first_token s), tt) else None.
Proof.
  intros Hlit. unfold literal_non_spaces.
  rewrite (starts_with_first_token lit s Hlit).
  destruct (starts_with lit (first_token s)) eqn:E; [| reflexivity].
  apply starts_with_length in E. rewrite run_length_first_token.
  rewrite first_token_skipn by assumption. simpl.
  destruct (Nat.ltb_spec (length lit) (length (first_token s))) as [Hlt | Hge].
  - destruct (length (first_token s) - length lit) as [|n] eqn:En; [lia |].
    f_equal. f_equal. lia.
  - replace (length (first_token s) - length lit) with 0 by lia. reflexivity.
Qed.

(** [url_pattern] looks at nothing but the run of non-space characters at
    the position, and a match covers the whole run. *)
Lemma url_pattern_token before s :
  url_pattern before s =
  if url_token (first_token s) then Some (length (first_token s), tt) else None.
Proof.
  unfold url_pattern, url_token.
  rewrite !literal_non_spaces_token by reflexivity.
  change (length (str_of "http")) with 4. change (length (str_of "www")) with 3.
  destruct (starts_with (str_of "http") (first_token s) && (4 <? length (first_token s)));
    [reflexivity |].
  now destruct (starts_with (str_of "www") (first_token s) && (3 <? length (first_token s))).
Qed.

Lemma url_token_nonempty w : url_token w = true -> w <> [].
Proof. intros H ->. discriminate H. Qed.

Lemma re_search_url_free s before :
  re_search_from url_pattern before s = negb (url_free s).
Proof.
  revert before. induction s as [|c s IH]; intros before; [reflexivity |].
  cbn [re_search_from url_free]. rewrite url_pattern_token.
  destruct (url_token (first_token (c :: s))) eqn:E.
  - destruct (first_token (c :: s)) eqn:Et; [discriminate E | reflexivity].
  - simpl. apply IH.
Qed.

Lemma starts_with_app lit w rest :
  starts_with lit w = true -> starts_with lit (w ++ rest) = true.
Proof.
  revert w. induction lit as [|a lit IH]; intros w H; [reflexivity |].
  destruct w as [|c w]; [discriminate |]. simpl in *.
  apply andb_true_iff in H. destruct H as [-> H]. simpl. now apply IH.
Qed.

(** A run that begins with a URL-like run is one. *)
Lemma url_token_app w rest : url_token w = true -> url_token (w ++ rest) = true.
Proof.
  unfold url_token. intros H. apply orb_true_iff in H. apply orb_true_iff.
  destruct H as [H | H]; [left | right];
    apply andb_true_iff in H; destruct H as [Hs Hl]; apply andb_true_iff; split;
    try (now apply starts_with_app);
    apply Nat.ltb_lt in Hl; apply Nat.ltb_lt; rewrite length_app; lia.
Qed.

(** What [re.sub(r'http\S+|www\S+', '', text)] leaves holds no match of
    the pattern: removing a match removes the rest of its run, and the
    part of the run before it was too short to match. *)
Lemma url_sub_free s :
  forall before k,
    k = 0 \/ k = length (first_token s) ->
    let out := re_sub_from url_pattern [] before k s in
    url_free out = true /\
    (exists rest, first_token s = first_token out ++ rest) /\
    (k = length (first_token s) -> first_token out = []).
Proof.
  induction s as [|c s IH]; intros before k Hk; cbn zeta.
  - simpl. repeat split; trivial. now exists [].
  - cbn [re_sub_from]. destruct k as [|k].
    + rewrite url_pattern_token.
      destruct (url_token (first_token (c :: s))) eqn:E.
      * assert (Hc : is_space c = false).
        { destruct (is_space c) eqn:Ec; [| reflexivity]. simpl in E.
          rewrite Ec in E. discriminate E. }
        simpl first_token in *. rewrite Hc in *. cbn [length app].
        destruct (IH (c :: before) (length (first_token s)) (or_intror eq_refl))
          as (Hfree & _ & Hempty).
        split; [assumption |]. rewrite (Hempty eq_refl).
        split; [now exists (c :: first_token s) | reflexivity].
      * destruct (IH (c :: before) 0 (or_introl eq_refl)) as (Hfree & [rest Hrest] & _).
        assert (Hpre : exists rest',
                   first_token (c :: s)
                   = first_token (c :: re_sub_from url_pattern [] (c :: before) 0 s) ++ rest').
        { simpl. destruct (is_space c); [now exists [] |].
          exists rest. simpl. now rewrite <- Hrest. }
        split; [| split; [exact Hpre |]].
        -- cbn [url_free]. rewrite Hfree, andb_true_r. apply negb_true_iff.
           destruct Hpre as [rest' Hrest'].
           destruct (url_token (first_token (c :: re_sub_from url_pattern [] (c :: before) 0 s)))
             eqn:E'; [| reflexivity].
           apply (url_token_app _ rest') in E'. rewrite <- Hrest' in E'. congruence.
        -- intros H0. simpl in *. destruct (is_space c); [reflexivity | discriminate H0].
    + destruct Hk as [Hk | Hk]; [discriminate |].
      simpl in Hk. destruct (is_space c) eqn:Ec; [discriminate |].
      simpl in Hk. injection Hk as Hk.
      destruct (IH (c :: before) k (or_intror Hk)) as (Hfree & _ & Hempty).
      split; [assumption |]. rewrite (Hempty Hk).
      split; [| reflexivity]. simpl. rewrite Ec. now exists (c :: first_token s).
Qed.

Lemma url_free_tail c s : url_free (c :: s) = true -> url_free s = true.
Proof. cbn [url_free]. intros H. now apply andb_true_iff in H. Qed.

(** Collapsing white space keeps the runs of other characters as they
    are, so it creates no match of [url_pattern]. *)
Lemma spaces_sub_url_free s :
  forall before k,
    url_free s = true ->
    let out := re_sub_from spaces_pattern (str_of " ") before k s in
    url_free out = true /\ (k = 0 -> first_token out = first_token s).
Proof.
  change (str_of " ") with [32%N].
  induction s as [|c s IH]; intros before k Hs; cbn zeta; [now split |].
  cbn [re_sub_from]. pose proof (url_free_tail _ _ Hs) as Hs'.
  destruct k as [|k].
  - rewrite spaces_pattern_head. destruct (is_space c) eqn:Ec.
    + destruct (IH (c :: before) (run_length is_space s) Hs') as [Hfree _].
      cbn [app url_free first_token]. rewrite Ec.
      change (is_space 32%N) with true. split; [exact Hfree | reflexivity].
    + destruct (IH (c :: before) 0 Hs') as [Hfree Htok].
      specialize (Htok eq_refl).
      assert (Hsame : first_token (c :: re_sub_from spaces_pattern [32%N] (c :: before) 0 s)
                      = first_token (c :: s))
        by (simpl; rewrite Ec; now rewrite Htok).
      split; [| intros _; exact Hsame].
      cbn [url_free] in *. rewrite Hsame, Hfree.
      apply andb_true_iff in Hs. now rewrite (proj1 Hs).
  - destruct (IH (c :: before) k Hs') as [Hfree _].
    split; [assumption | discriminate].
Qed.

Lemma lstrip_url_free s : url_free s = true -> url_free (lstrip s) = true.
Proof.
  induction s as [|c s IH]; [trivial |]. intros H. simpl lstrip.
  destruct (is_space c); [apply IH; now apply url_free_tail in H | assumption].
Qed.

Lemma rstrip_first_token s : first_token (rstrip s) = first_token s.
Proof.
  induction s as [|c s IH]; [reflexivity |]. simpl rstrip.
  destruct (rstrip s) as [|d r] eqn:E.
  - simpl in IH. simpl. destruct (is_space c) eqn:Ec; simpl; [reflexivity |].
    now rewrite Ec, <- IH.
  - cbn [first_token] in *. now rewrite IH.
Qed.

Lemma rstrip_url_free s : url_free s = true -> url_free (rstrip s) = true.
Proof.
  induction s as [|c s IH]; [trivial |]. intros H.
  pose proof (rstrip_first_token (c :: s)) as Htok.
  pose proof (IH (url_free_tail _ _ H)) as IH'.
  simpl rstrip in *. destruct (rstrip s) as [|d r] eqn:E.
  - destruct (is_space c) eqn:Ec; [reflexivity |].
    cbn [url_free] in *. rewrite Htok. apply andb_true_iff in H.
    now rewrite (proj1 H).
  - cbn [url_free] in H |- *. rewrite Htok. apply andb_true_iff in H.
    rewrite (proj1 H). exact IH'.
Qed.

(** Removing a match shortens the text. *)
Lemma re_sub_from_shorter {G} (p : pattern G) s :
  forall before,
    re_search_from p before s = true ->
    length (re_sub_from p [] before 0 s) < length s.
Proof.
  induction s as [|c s IH]; intros before H; [discriminate |].
  cbn [re_sub_from re_search_from] in *.
  destruct (p before (c :: s)) as [[[|k] g]|].
  - simpl. apply IH in H. lia.
  - simpl. pose proof (re_sub_from_length p [] (Nat.le_0_l 1) s (c :: before) k). lia.
  - simpl. apply IH in H. lia.
Qed.

Section CleanTextFixedPoints.
Context {U : UnicodeExt}.

(** The result of [clean_text] has the normalized shape. *)
Lemma clean_text_normalized text : normalized (clean_text text).
Proof.
  split; [apply clean_text_chars |].
  destruct text as [[|c s]|]; try (split; reflexivity).
  rewrite clean_text_steps.
  set (x := re_sub special_pattern _ _).
  destruct (spaces_sub_isolated x [] 0 (or_introl eq_refl)) as [Hiso _].
  fold (re_sub spaces_pattern (str_of " ") x) in Hiso.
  destruct (lstrip_isolated _ Hiso) as [Hiso' Hhead].
  split; [apply rstrip_head_non_space, Hhead | apply rstrip_spaced, Hiso'].
Qed.

(** The four steps after the removal of URLs change nothing in a text of
    the normalized shape. *)
Lemma clean_text_later_steps t :
  normalized t ->
  strip (re_sub spaces_pattern (str_of " ")
           (re_sub special_pattern (str_of " ")
              (re_sub digits_pattern [] (re_sub email_pattern [] t)))) = t.
Proof.
  intros (Hchars & Hhead & Hsp).
  rewrite (re_sub_clean email_pattern [] t email_pattern_clean Hchars),
    (re_sub_clean digits_pattern [] t digits_pattern_clean Hchars),
    (re_sub_clean special_pattern _ t special_pattern_clean Hchars).
  unfold re_sub. rewrite (spaces_sub_spaced t Hsp).
  unfold strip. now rewrite (lstrip_fixed t Hhead), (rstrip_fixed t Hsp).
Qed.

Lemma lower_normalized t : normalized t -> lower t = t.
Proof.
  intros (Hchars & _). apply lower_from_fixed.
  eapply Forall_impl; [| exact Hchars]. now intros c [H _].
Qed.

Lemma clean_text_fixed t :
  normalized t -> re_search url_pattern t = false -> clean_text (Some t) = t.
Proof.
  intros Hn Hurl. destruct t as [|c t]; [reflexivity |].
  rewrite clean_text_steps, (lower_normalized _ Hn).
  unfold re_sub at 5. rewrite (re_sub_from_not_found _ _ _ _ Hurl).
  now apply clean_text_later_steps.
Qed.

End CleanTextFixedPoints.

Lemma spaced_spaces t :
  spaced t = true -> Forall (fun c => is_space c = true -> c = 32%N) t.
Proof.
  induction t as [|c t IH]; [constructor |]. cbn [spaced].
  intros H. apply andb_true_iff in H. destruct H as [Hc Ht].
  constructor; [| now apply IH].
  intros Ec. rewrite Ec in Hc. apply andb_true_iff in Hc.
  now apply N.eqb_eq.
Qed.

Section CleanTextShape.
Context {U : UnicodeExt}.

(** The accented letters that [special_pattern] names are word characters
    already. *)
Lemma accented_is_word c : char_in (str_of "áéíóúüñ") c = true -> is_word c = true.
Proof.
  unfold char_in. intros H. apply existsb_exists in H.
  destruct H as (x & Hin & E). apply N.eqb_eq in E. subst x.
  simpl in Hin.
  repeat (destruct Hin as [<- | Hin]; [reflexivity |]). destruct Hin.
Qed.

Lemma kept_is_word c : kept c = true -> is_space c = false -> is_word c = true.
Proof.
  unfold kept. intros H Hs. rewrite Hs, orb_false_r in H.
  apply orb_true_iff in H. destruct H as [H | H]; [assumption |].
  now apply accented_is_word.
Qed.

(** The second pass only removes URL-like tokens and the white space they
    leave behind. *)
Lemma clean_text_second_pass t :
  normalized t ->
  clean_text (Some t)
  = strip (re_sub spaces_pattern (str_of " ") (re_sub url_pattern [] t)).
Proof.
  intros Hn. destruct t as [|c t]; [reflexivity |].
  rewrite clean_text_steps, (lower_normalized _ Hn).
  destruct Hn as (Hchars & _).
  assert (Hu : Forall clean_char (re_sub url_pattern [] (c :: t)))
    by (apply re_sub_from_Forall; [constructor | assumption]).
  now rewrite (re_sub_clean email_pattern [] _ email_pattern_clean Hu),
    (re_sub_clean digits_pattern [] _ digits_pattern_clean Hu),
    (re_sub_clean special_pattern _ _ special_pattern_clean Hu).
Qed.

(** X3: the shape of every result of [clean_text]. Each character is
    U+0020 or a word character that is neither a digit nor white space;
    the text neither begins nor ends with white space and every U+0020 is
    followed by a character that is not white space; lowercasing and
    stripping it again change nothing, and it holds no match of the e-mail,
    digit and special-character patterns. *)
Theorem clean_text_normal_form (text : option str) :
  Forall (fun c => c = 32%N \/
                   (is_word c = true /\ is_digit c = false /\ is_space c = false))
    (clean_text text) /\
  head_non_space (clean_text text) = true /\
  spaced (clean_text text) = true /\
  lower (clean_text text) = clean_text text /\
  strip (clean_text text) = clean_text text /\
  re_search email_pattern (clean_text text) = false /\
  re_search digits_pattern (clean_text text) = false /\
  re_search special_pattern (clean_text text) = false.
Proof.
  pose proof (clean_text_normalized text) as Hn.
  pose proof (lower_normalized _ Hn) as Hlow.
  destruct Hn as (Hchars & Hhead & Hsp).
  repeat split; try assumption.
  - pose proof (spaced_spaces _ Hsp) as Hspaces.
    pose proof (Forall_and Hchars Hspaces) as H.
    eapply Forall_impl; [| exact H]. cbn beta.
    intros c [(_ & Hd & Hk) H32].
    destruct (is_space c) eqn:Ec; [left; now apply H32 | right].
    split; [now apply kept_is_word | now split].
  - unfold strip. now rewrite (lstrip_fixed _ Hhead), (rstrip_fixed _ Hsp).
  - apply re_search_from_none with (I := Forall clean_char);
      [apply clean_tail | intros; now apply email_pattern_clean | assumption].
  - apply re_search_from_none with (I := Forall clean_char);
      [apply clean_tail | intros; now apply digits_pattern_clean | assumption].
  - apply re_search_from_none with (I := Forall clean_char);
      [apply clean_tail | intros; now apply special_pattern_clean | assumption].
Qed.

(** X4: the texts that [clean_text] returns unchanged are exactly the
    texts of the normalized shape (characters that the lowercasing, digit
    and special-character steps leave alone, single U+0020 between words,
    no white space at either end) in which [url_pattern] finds nothing. *)
Theorem clean_text_fixed_points (t : str) :
  clean_text (Some t) = t <->
  normalized t /\ re_search url_pattern t = false.
Proof.
  split; [| intros [Hn Hurl]; now apply clean_text_fixed].
  intros Hfix.
  assert (Hn : normalized t) by (rewrite <- Hfix; apply clean_text_normalized).
  split; [assumption |].
  destruct (re_search url_pattern t) eqn:Hurl; [exfalso | reflexivity].
  rewrite (clean_text_second_pass _ Hn) in Hfix.
  apply (re_sub_from_shorter url_pattern) in Hurl.
  fold (re_sub url_pattern [] t) in Hurl.
  pose proof (strip_length (re_sub spaces_pattern (str_of " ") (re_sub url_pattern [] t)))
    as H1.
  pose proof (re_sub_from_length spaces_pattern (str_of " ") (Nat.le_refl 1)
                (re_sub url_pattern [] t) [] 0) as H2.
  fold (re_sub spaces_pattern (str_of " ") (re_sub url_pattern [] t)) in H2.
  rewrite Hfix in H1. lia.
Qed.

(** X5: [clean_text] is stable from its second pass on: applying it a
    third time changes nothing, for every text. (One pass is not enough:
    removing the digit of ["ht1tpx"] leaves ["httpx"], which the second
    pass removes as a URL.) *)
Theorem clean_text_stable_after_two_passes (text : option str) :
  clean_text (Some (clean_text (Some (clean_text text))))
  = clean_text (Some (clean_text text)).
Proof.
  pose proof (clean_text_normalized text) as Hn.
  apply clean_text_fixed; [apply clean_text_normalized |].
  rewrite (clean_text_second_pass _ Hn).
  unfold re_search. rewrite re_search_url_free. apply negb_false_iff.
  unfold strip. apply rstrip_url_free, lstrip_url_free.
  apply spaces_sub_url_free.
  apply (url_sub_free (clean_text text) [] 0). now left.
Qed.

End CleanTextShape.

(* ================================================================= *)
(** ** The fitted vocabulary *)

Lemma sublist_refl {A} (l : list A) : sublist l l.
Proof. induction l; now constructor. Qed.

Lemma sublist_In {A} (l l' : list A) x : sublist l l' -> In x l -> In x l'.
Proof.
  induction 1 as [|y l l' _ IH|y l l' _ IH]; simpl; [trivial | auto |].
  intros [-> | H]; auto.
Qed.

Lemma sublist_length {A} (l l' : list A) : sublist l l' -> length l <= length l'.
Proof. induction 1; simpl; lia. Qed.

Lemma sublist_map {A B} (f : A -> B) l l' :
  sublist l l' -> sublist (map f l) (map f l').
Proof. induction 1; simpl; now constructor. Qed.

Lemma sublist_trans {A} (l1 l2 l3 : list A) :
  sublist l1 l2 -> sublist l2 l3 -> sublist l1 l3.
Proof.
  intros H12 H23. revert l1 H12.
  induction H23 as [|x l2 l3 _ IH|x l2 l3 _ IH]; intros l1 H12.
  - assumption.
  - constructor. now apply IH.
  - inversion H12; subst; constructor; now apply IH.
Qed.

Lemma sublist_NoDup {A} (l l' : list A) : sublist l l' -> NoDup l' -> NoDup l.
Proof.
  induction 1 as [|x l l' Hs IH|x l l' Hs IH]; intros Hnd; [assumption | |];
    inversion_clear Hnd as [|? ? Hx Hl]; [now apply IH |].
  constructor; [| now apply IH].
  intros Hin. apply Hx. eapply sublist_In; eassumption.
Qed.

Lemma sublist_Forall {A} (P : A -> Prop) l l' :
  sublist l l' -> Forall P l' -> Forall P l.
Proof.
  intros Hs H. rewrite Forall_forall in *. intros x Hx.
  apply H. eapply sublist_In; eassumption.
Qed.

Lemma sublist_sorted {A} (R : A -> A -> Prop) l l' :
  sublist l l' -> StronglySorted R l' -> StronglySorted R l.
Proof.
  induction 1 as [|x l l' Hs IH|x l l' Hs IH]; intros H; [assumption | |];
    inversion_clear H as [|? ? Hl Hx]; [now apply IH |].
  constructor; [now apply IH |]. eapply sublist_Forall; eassumption.
Qed.

Lemma sublist_filter {A} (f : A -> bool) l : sublist (filter f l) l.
Proof.
  induction l as [|x l IH]; simpl; [constructor |].
  destruct (f x); now constructor.
Qed.

Lemma sublist_firstn {A} n (l : list A) : sublist (firstn n l) l.
Proof.
  revert n. induction l as [|x l IH]; intros [|n]; simpl.
  - constructor.
  - constructor.
  - apply sublist_skip, (IH 0).
  - apply sublist_keep, IH.
Qed.

Lemma sublist_skipn {A} n (l : list A) : sublist (skipn n l) l.
Proof.
  revert n. induction l as [|x l IH]; intros [|n]; simpl.
  - constructor.
  - constructor.
  - apply sublist_refl.
  - apply sublist_skip, IH.
Qed.

Lemma select_sublist {A} keep (l : list A) : sublist (select keep l) l.
Proof.
  unfold select. generalize 0.
  induction l as [|x l IH]; intros s; simpl; [constructor |].
  destruct (keep s); simpl; constructor; apply IH.
Qed.

Lemma select_indices {A} keep (l : list A) :
  length (select keep l) = length (filter keep (seq 0 (length l))).
Proof.
  unfold select. rewrite length_map. generalize 0.
  induction l as [|x l IH]; intros s; simpl; [reflexivity |].
  destruct (keep s); simpl; now rewrite IH.
Qed.

Lemma select_length_le {A} inds (l : list A) :
  length (select (fun i => existsb (Nat.eqb i) inds) l) <= length inds.
Proof.
  rewrite select_indices. apply NoDup_incl_length.
  - apply NoDup_filter, seq_NoDup.
  - intros i Hi. apply filter_In in Hi. destruct Hi as [_ H].
    apply existsb_exists in H. destruct H as (j & Hj & E).
    apply Nat.eqb_eq in E. now subst.
Qed.

Section VocabularyFacts.
Context {U : UnicodeExt}.

(** What [_limit_features] keeps is a selection of the columns, in their
    order, and no more of them than [max_features]. *)
Lemma limit_features_sublist X high low limit K :
  limit_features X high low limit = Ok K ->
  sublist K X /\ forall n, limit = Some n -> length K <= n.
Proof.
  unfold limit_features.
  set (masked := filter _ X).
  assert (Hmasked : sublist masked X) by apply sublist_filter.
  set (kept := match limit with Some _ => _ | None => _ end).
  assert (Hkept : sublist kept masked /\ forall n, limit = Some n -> length kept <= n).
  { subst kept. destruct limit as [n|].
    - destruct (Nat.ltb_spec n (length masked)) as [Hlt | Hge].
      + split; [apply select_sublist |]. intros n' E. injection E as <-.
        etransitivity; [apply select_length_le |]. apply firstn_le_length.
      + split; [apply sublist_refl |]. intros n' E. injection E as <-. assumption.
    - split; [apply sublist_refl | discriminate]. }
  destruct kept as [|c kept'] eqn:E; [discriminate |].
  intros H. injection H as <-. destruct Hkept as [Hs Hl].
  split; [eapply sublist_trans; eassumption | assumption].
Qed.

End VocabularyFacts.

Lemma str_leb_refl a : str_leb a a = true.
Proof.
  induction a as [|x a IH]; simpl; [reflexivity |].
  now rewrite N.ltb_irrefl.
Qed.

Lemma str_leb_total a b : str_leb a b = false -> str_leb b a = true.
Proof.
  revert b. induction a as [|x a IH]; intros [|y b]; simpl; try discriminate;
    [reflexivity |].
  destruct (N.ltb_spec x y); [discriminate |].
  destruct (N.ltb_spec y x); [reflexivity |]. apply IH.
Qed.

Lemma str_leb_trans a b c :
  str_leb a b = true -> str_leb b c = true -> str_leb a c = true.
Proof.
  revert b c. induction a as [|x a IH]; intros [|y b] [|z c]; simpl;
    try discriminate; try reflexivity.
  destruct (N.ltb_spec x y), (N.ltb_spec y z), (N.ltb_spec x z);
    try reflexivity; try lia;
    destruct (N.ltb_spec y x), (N.ltb_spec z y), (N.ltb_spec z x);
    try discriminate; try lia; try reflexivity.
  apply IH.
Qed.

Lemma str_leb_antisym a b : str_leb a b = true -> str_leb b a = true -> a = b.
Proof.
  revert b. induction a as [|x a IH]; intros [|y b]; simpl;
    try discriminate; [reflexivity |].
  destruct (N.ltb_spec x y), (N.ltb_spec y x); try discriminate; try lia.
  intros H1 H2. f_equal; [lia | now apply IH].
Qed.

Lemma sort_features_sorted X :
  StronglySorted (fun a b => str_leb a b = true) (map fst (sort_features X)).
Proof.
  apply StronglySorted_map. unfold sort_features.
  apply (sort_sorted (fun a b : str * list Z => str_leb (fst a) (fst b))).
  - intros a b. apply str_leb_total.
  - intros a b c. apply str_leb_trans.
Qed.

Section FittedVocabulary.
Context {U : UnicodeExt}.

(** The vocabulary that [fit_transform] returns holds no term twice, is in
    alphabetical order and is no longer than [max_features]. *)
Lemma fit_transform_vocabulary v texts X :
  fit_transform v texts = Ok X ->
  NoDup (map fst X) /\
  StronglySorted (fun a b => str_leb a b = true) (map fst X) /\
  forall n, max_features v = Some n -> length X <= n.
Proof.
  unfold fit_transform.
  set (docs := map (analyze v) texts).
  set (vocabulary := distinct str_eqb [] (concat docs)).
  assert (Hnd : NoDup (map fst (count_vocab vocabulary docs))).
  { unfold count_vocab. rewrite map_map. simpl. rewrite map_id.
    apply (distinct_NoDup str_eqb str_eqb_eq). }
  destruct vocabulary as [|t0 voc] eqn:Evoc; [discriminate |].
  rewrite <- Evoc in *. clear Evoc.
  destruct (Qlt_bool _ _); [discriminate |].
  destruct (max_features v) as [limit|].
  - intros H. apply limit_features_sublist in H. destruct H as [Hs Hl].
    pose proof (sublist_map fst _ _ Hs) as Hs'.
    split; [| split].
    + apply (sublist_NoDup _ _ Hs').
      apply (Permutation_NoDup (l := map fst (count_vocab vocabulary docs)));
        [| assumption].
      apply Permutation_map, Permutation_sym, sort_Permutation.
    + apply (sublist_sorted _ _ _ Hs'), sort_features_sorted.
    + exact Hl.
  - unfold bind.
    destruct (limit_features _ _ _ None) as [X'|e] eqn:E; [| discriminate].
    intros H. injection H as <-.
    apply limit_features_sublist in E. destruct E as [Hs _].
    split; [| split; [apply sort_features_sorted | discriminate]].
    apply (Permutation_NoDup (l := map fst X')).
    + apply Permutation_map, Permutation_sym, sort_Permutation.
    + apply (sublist_NoDup _ _ (sublist_map fst _ _ Hs)). assumption.
Qed.

End FittedVocabulary.

(* ================================================================= *)
(** ** Corpora too small for the vectorizers *)

Section SmallCorpora.
Context {U : UnicodeExt}.

Lemma documents_containing_le v t texts :
  (documents_containing v t texts <= Z.of_nat (length texts))%Z.
Proof.
  unfold documents_containing. pose proof (filter_length_le (fun d => mem t (analyze v d)) texts).
  lia.
Qed.

(** A vectorizer that returns a vocabulary has found a term whose number
    of documents lies within its two bounds. *)
Lemma fit_transform_some_term v texts X :
  fit_transform v texts = Ok X ->
  exists t,
    (doc_count (min_df v) (length texts)
     <= inject_Z (documents_containing v t texts)
     <= doc_count (max_df v) (length texts))%Q.
Proof.
  intros H. apply fit_transform_spec in H. destruct H as [Hne H].
  destruct X as [|[t col] X]; [contradiction |].
  exists t. apply (H t col). now left.
Qed.

Lemma tfidf_vectorizer_needs_eight texts X :
  fit_transform tfidf_vectorizer texts = Ok X -> 8 <= length texts.
Proof.
  intros H. apply fit_transform_some_term in H. destruct H as (t & Hlow & Hhigh).
  pose proof (Qle_trans _ _ _ Hlow Hhigh) as Hb. simpl doc_count in Hb.
  unfold Qle, Qmult, inject_Z in Hb. cbn [Qnum Qden] in Hb. lia.
Qed.

Lemma min_three_needs_three v texts X :
  min_df v = Docs 3 ->
  fit_transform v texts = Ok X -> 3 <= length texts.
Proof.
  intros Hmin H. apply fit_transform_some_term in H. destruct H as (t & Hlow & _).
  rewrite Hmin in Hlow. simpl doc_count in Hlow. rewrite <- Zle_Qle in Hlow.
  pose proof (documents_containing_le v t texts). lia.
Qed.

Context {F : FloatOps}.

(** X6: the rankers need a minimum of documents. [get_tfidf_by_period]
    returns no row for seven articles or fewer (its vectorizer wants a term
    in at least 5 documents and in at most 70 % of them);
    [find_emerging_terms] returns no row when the two frames hold fewer
    than three articles together, and [find_cooccurrences] when fewer than
    three articles mention the term (a term must be in 3 documents). *)
Theorem rankers_need_enough_documents
    (articles target_articles comparison_articles mentioning : list (option str))
    (term : str) (top_n : Z) :
  length articles <= 7 ->
  length target_articles + length comparison_articles <= 2 ->
  length mentioning <= 2 ->
  get_tfidf_by_period articles top_n = Ok [] /\
  find_emerging_terms target_articles comparison_articles top_n = Ok [] /\
  find_cooccurrences term mentioning top_n = Ok [].
Proof.
  intros Ha Ht Hm. split; [| split].
  - rewrite get_tfidf_by_period_cases. destruct articles as [|a articles]; [reflexivity |].
    destruct (fit_transform _ _) as [X|e] eqn:E; [| reflexivity].
    apply tfidf_vectorizer_needs_eight in E. rewrite length_map in E. lia.
  - rewrite find_emerging_terms_cases.
    destruct target_articles as [|a T]; [reflexivity |].
    destruct comparison_articles as [|b C]; [reflexivity |]. cbv zeta.
    destruct (fit_transform _ _) as [X|e] eqn:E; [| reflexivity].
    apply (min_three_needs_three emerging_vectorizer _ _ eq_refl) in E.
    rewrite length_app, !length_map in E. simpl in Ht, E. lia.
  - rewrite find_cooccurrences_cases. destruct mentioning as [|a M]; [reflexivity |].
    destruct (fit_transform _ _) as [X|e] eqn:E; [| reflexivity].
    apply (min_three_needs_three cooccurrence_vectorizer _ _ eq_refl) in E.
    rewrite length_map in E. lia.
Qed.

End SmallCorpora.

(** X6, witness: seven articles for the TF-IDF ranking, one and one for
    the emergence test, two for the co-occurrences. *)
Lemma rankers_need_enough_documents_witness :
  get_tfidf_by_period (U := dotted_I_ext) (F := identity_floats) seven_articles 20 = Ok [] /\
  find_emerging_terms (U := dotted_I_ext)
    [Some (str_of "zika brote")] [Some (str_of "brote")] 15 = Ok [] /\
  find_cooccurrences (U := dotted_I_ext) (str_of "duarte") two_articles 20 = Ok [].
Proof.
  apply (rankers_need_enough_documents (U := dotted_I_ext) (F := identity_floats)
           seven_articles [Some (str_of "zika brote")] [Some (str_of "brote")]
           two_articles (str_of "duarte") 20);
    simpl; lia.
Defined.

(* ================================================================= *)
(** ** The head and the tail of a ranking *)

Lemma StronglySorted_app_cross {A} (R : A -> A -> Prop) a b :
  StronglySorted R (a ++ b) -> forall x y, In x a -> In y b -> R x y.
Proof.
  induction a as [|z a IH]; simpl; intros H x y Hx Hy; [destruct Hx |].
  apply StronglySorted_inv in H. destruct H as [H Hz].
  destruct Hx as [-> | Hx]; [| now apply IH].
  rewrite Forall_forall in Hz. apply Hz, in_or_app. now right.
Qed.

Lemma slice_from_skipn {A} k (l : list A) : exists n, slice_from k l = skipn n l.
Proof. unfold slice_from. destruct (0 <=? k)%Z; eauto. Qed.

Lemma slice_to_firstn {A} k (l : list A) : exists n, slice_to k l = firstn n l.
Proof. unfold slice_to. destruct (0 <=? k)%Z; eauto. Qed.

Lemma slice_from_sublist {A} k (l : list A) : sublist (slice_from k l) l.
Proof. destruct (slice_from_skipn k l) as [n ->]. apply sublist_skipn. Qed.

Lemma slice_to_sublist {A} k (l : list A) : sublist (slice_to k l) l.
Proof. destruct (slice_to_firstn k l) as [n ->]. apply sublist_firstn. Qed.

(** In an ascending list, what [l[k:]] leaves out is below what it keeps. *)
Lemma slice_from_top {A} (R : A -> A -> Prop) k l x y :
  StronglySorted R l ->
  In x l -> ~ In x (slice_from k l) -> In y (slice_from k l) -> R x y.
Proof.
  destruct (slice_from_skipn k l) as [n ->]. intros Hs Hx Hnx Hy.
  rewrite <- (firstn_skipn n l) in Hs, Hx.
  apply in_app_or in Hx. destruct Hx as [Hx | Hx]; [| contradiction].
  now apply (StronglySorted_app_cross R _ _ Hs).
Qed.

(** In a descending list, what [l[:k]] keeps is above what it leaves out. *)
Lemma slice_to_top {A} (R : A -> A -> Prop) k l x y :
  StronglySorted R l ->
  In x (slice_to k l) -> In y l -> ~ In y (slice_to k l) -> R x y.
Proof.
  destruct (slice_to_firstn k l) as [n ->]. intros Hs Hx Hy Hny.
  rewrite <- (firstn_skipn n l) in Hs, Hy.
  apply in_app_or in Hy. destruct Hy as [Hy | Hy]; [contradiction |].
  now apply (StronglySorted_app_cross R _ _ Hs).
Qed.

(** The lengths of [l[k:]] and [l[:k]], for every integer [k]. *)
Lemma slice_from_length_eq {A} k (l : list A) :
  Z.of_nat (length (slice_from k l))
  = if (0 <=? k)%Z then Z.max 0 (Z.of_nat (length l) - k)
    else Z.min (- k) (Z.of_nat (length l)).
Proof.
  unfold slice_from. destruct (Z.leb_spec 0 k); rewrite length_skipn; lia.
Qed.

Lemma slice_to_length_eq {A} k (l : list A) :
  Z.of_nat (length (slice_to k l))
  = if (0 <=? k)%Z then Z.min k (Z.of_nat (length l))
    else Z.max 0 (Z.of_nat (length l) + k).
Proof.
  unfold slice_to. destruct (Z.leb_spec 0 k); rewrite length_firstn; lia.
Qed.

(** Distinct positions of a list without repetition hold distinct
    elements. *)
Lemma nth_NoDup_map {A} (names : list A) d inds :
  NoDup names -> NoDup inds -> Forall (fun i => i < length names) inds ->
  NoDup (map (fun i => nth i names d) inds).
Proof.
  intros Hn Hi Hb. apply NoDup_map_NoDup_ForallPairs; [| assumption].
  intros i j Hi' Hj' E. rewrite Forall_forall in Hb.
  apply (proj1 (NoDup_nth names d) Hn); auto.
Qed.

Lemma argsort_NoDup a : NoDup (argsort a).
Proof.
  apply (Permutation_NoDup (Permutation_sym (argsort_Permutation a))), seq_NoDup.
Qed.

Lemma NoDup_rev_list {A} (l : list A) : NoDup l -> NoDup (rev l).
Proof. apply Permutation_NoDup, Permutation_rev. Qed.

Section TfidfRanking.
Context {U : UnicodeExt} {F : FloatOps}.

Lemma tfidf_rows_ranking (M : matrix Q) top_n :
  NoDup (map fst M) ->
  let rows := tfidf_rows M top_n in
  Z.of_nat (length rows)
  = (if (0 <? top_n)%Z then Z.min top_n (Z.of_nat (length M))
     else Z.max 0 (Z.of_nat (length M) + top_n)) /\
  NoDup (map Tfidf.term rows) /\
  StronglySorted (fun a b => (Tfidf.tfidf_score b <= Tfidf.tfidf_score a)%Q) rows /\
  (forall t col, In (t, col) M -> ~ In t (map Tfidf.term rows) ->
   forall row, In row rows -> (mean col <= Tfidf.tfidf_score row)%Q).
Proof.
  intros Hnd. unfold tfidf_rows. cbv zeta.
  set (names := map fst M).
  set (avg := map (fun col => mean (snd col)) M).
  assert (Hlen : length (argsort avg) = length M).
  { rewrite (Permutation_length (argsort_Permutation avg)), length_seq.
    unfold avg. apply length_map. }
  split; [| split; [| split]].
  - rewrite length_map, length_rev, slice_from_length_eq, Hlen.
    destruct (Z.leb_spec 0 (- top_n)), (Z.ltb_spec 0 top_n); lia.
  - rewrite map_map. simpl. apply nth_NoDup_map; [assumption | |].
    + apply NoDup_rev_list, (sublist_NoDup _ _ (slice_from_sublist _ _)), argsort_NoDup.
    + apply Forall_forall. intros i Hi.
      apply in_rev, slice_from_In, argsort_bound in Hi.
      unfold avg in Hi. unfold names. now rewrite length_map in *.
  - apply StronglySorted_map. simpl.
    apply (StronglySorted_rev _ _ (slice_from_sorted _ _ _ (argsort_sorted _))).
  - intros t col Hin Hnot row Hrow.
    apply in_map_iff in Hrow. destruct Hrow as (j & <- & Hj). simpl.
    apply in_rev in Hj.
    destruct (In_nth _ _ ([], []) Hin) as (i & Hi & Ei).
    assert (Ea : nth i avg 0%Q = mean col).
    { unfold avg. rewrite (nth_map_in _ M i ([], [])) by assumption.
      exact (f_equal (fun c => mean (snd c)) Ei). }
    rewrite <- Ea.
    apply (slice_from_top (fun i j => (nth i avg 0 <= nth j avg 0)%Q) (- top_n) (argsort avg));
      [apply argsort_sorted | | | assumption].
    + apply (Permutation_in _ (Permutation_sym (argsort_Permutation avg))).
      apply in_seq. unfold avg. rewrite length_map.
      split; [apply Nat.le_0_l | exact Hi].
    + intros Hi'. apply Hnot. rewrite map_map. simpl.
      apply in_map_iff. exists i. split; [| now apply in_rev in Hi' || apply -> in_rev].
      unfold names. rewrite (nth_map_in fst M i ([], [])) by assumption.
      exact (f_equal fst Ei).
Qed.

(** X7: when the vectorizer keeps a vocabulary, [get_tfidf_by_period]
    returns its best terms. For a positive [top_n] there are
    [min(top_n, vocabulary size)] rows; for [top_n <= 0] the slice
    [[-top_n:]] drops the [-top_n] lowest terms instead and the rest of the
    vocabulary is returned. The vocabulary has at most 1000 terms. No term
    is in two rows, the rows are in descending order of average weight,
    each carries the average of the term's column, and every term of the
    vocabulary that is left out weighs no more than any returned term. *)
Theorem tfidf_rank_is_top_n articles top_n X :
  articles <> [] ->
  fit_transform tfidf_vectorizer (map clean_text articles) = Ok X ->
  exists rows,
    get_tfidf_by_period articles top_n = Ok rows /\
    Z.of_nat (length rows)
    = (if (0 <? top_n)%Z then Z.min top_n (Z.of_nat (length X))
       else Z.max 0 (Z.of_nat (length X) + top_n)) /\
    length X <= 1000 /\
    NoDup (map Tfidf.term rows) /\
    StronglySorted (fun a b => (Tfidf.tfidf_score b <= Tfidf.tfidf_score a)%Q) rows /\
    (forall row, In row rows ->
       exists col,
         In (Tfidf.term row, col) (tfidf_transform (length articles) X) /\
         Tfidf.tfidf_score row = mean col) /\
    (forall t col,
       In (t, col) (tfidf_transform (length articles) X) ->
       ~ In t (map Tfidf.term rows) ->
       forall row, In row rows -> (mean col <= Tfidf.tfidf_score row)%Q).
Proof.
  intros Hne Hfit. rewrite get_tfidf_by_period_cases.
  destruct articles as [|a articles]; [contradiction |]. rewrite Hfit.
  destruct (fit_transform_vocabulary _ _ _ Hfit) as (Hnd & _ & Hmax).
  set (M := tfidf_transform _ X). exists (tfidf_rows M top_n).
  assert (HM : NoDup (map fst M))
    by (unfold M; now rewrite tfidf_transform_terms).
  destruct (tfidf_rows_ranking M top_n HM) as (Hlen & Hnd' & Hsorted & Htop).
  assert (HlenM : length M = length X).
  { rewrite <- (length_map fst M), <- (length_map fst X). unfold M.
    now rewrite tfidf_transform_terms. }
  rewrite HlenM in Hlen.
  split; [reflexivity |]. split; [exact Hlen |].
  split; [now apply Hmax |]. split; [exact Hnd' |]. split; [exact Hsorted |].
  split; [apply tfidf_rows_terms | exact Htop].
Qed.

End TfidfRanking.

(** X7, witness: the two best of the three terms of [port_corpus]. *)
Lemma tfidf_rank_is_top_n_witness :
  exists rows,
    get_tfidf_by_period port_corpus 2 = Ok rows /\
    Z.of_nat (length rows) = 2%Z /\
    length port_fitted <= 1000 /\
    NoDup (map Tfidf.term rows) /\
    StronglySorted (fun a b => (Tfidf.tfidf_score b <= Tfidf.tfidf_score a)%Q) rows /\
    (forall row, In row rows ->
       exists col,
         In (Tfidf.term row, col) (tfidf_transform (length port_corpus) port_fitted) /\
         Tfidf.tfidf_score row = mean col) /\
    (forall t col,
       In (t, col) (tfidf_transform (length port_corpus) port_fitted) ->
       ~ In t (map Tfidf.term rows) ->
       forall row, In row rows -> (mean col <= Tfidf.tfidf_score row)%Q).
Proof.
  apply (tfidf_rank_is_top_n port_corpus 2 port_fitted).
  - discriminate.
  - vm_compute. reflexivity.
Defined.

(* ================================================================= *)
(** ** Stability of [sorted] *)

Section StableSort.
Context {A : Type} (leb : A -> A -> bool) (R : A -> A -> Prop).
Hypothesis leb_total : forall a b, leb a b = false -> leb b a = true.
Hypothesis leb_trans : forall a b c, leb a b = true -> leb b c = true -> leb a c = true.



End StableSort.




Lemma filter_map_indices {A} (f : A -> bool) (l : list A) d :
  map (fun i => nth i l d) (filter (fun i => f (nth i l d)) (seq 0 (length l)))
  = filter f l.
Proof.
  transitivity (filter f (map (fun i => nth i l d) (seq 0 (length l))));
    [| now rewrite map_nth_seq].
  induction (seq 0 (length l)) as [|i rest IH]; simpl; [reflexivity |].
  destruct (f (nth i l d)); simpl; now rewrite IH.
Qed.

Lemma filter_none {A} (f : A -> bool) l : (forall x, f x = false) -> filter f l = [].
Proof.
  intros H. induction l as [|x l IH]; simpl; [reflexivity |]. now rewrite H.
Qed.

Section CooccurrenceRanking.
Context {U : UnicodeExt}.




(** X9: for the empty query every word contains the query, so that
    [find_cooccurrences] returns no row whatever the articles are. *)
Theorem cooccurrences_of_empty_term articles top_n :
  find_cooccurrences [] articles top_n = Ok [].
Proof.
  rewrite find_cooccurrences_cases. destruct articles as [|a articles]; [reflexivity |].
  destruct (fit_transform _ _) as [X|e]; [| reflexivity].
  unfold cooccurrence_rows. cbv zeta.
  replace (filter _ (seq 0 (length (map fst X)))) with (@nil nat).
  - unfold sorted_by_reverse. simpl sort. unfold slice_to.
    destruct (0 <=? top_n)%Z; now rewrite firstn_nil.
  - symmetry. apply filter_none. intros i.
    now destruct (nth i (map fst X) []).
Qed.

End CooccurrenceRanking.


(** The rows of that ranking. *)
Example cooccurrences_tie_order :
  ranked (find_cooccurrences (str_of "Duarte") tie_corpus 2)
  = [{| Cooccurrence.cooccurring_term := str_of "puerto"; Cooccurrence.frequency := 4 |};
     {| Cooccurrence.cooccurring_term := str_of "clima"; Cooccurrence.frequency := 3 |}].
Proof. vm_compute. reflexivity. Qed.

(* ================================================================= *)
(** ** The ranking of emerging terms *)

(** A smoothed ratio is above 1 exactly when its numerator is above its
    denominator. *)
Lemma smoothed_ratio_above_one (a b : Q) :
  (0 <= b)%Q -> (1 < (a + 0.001) / (b + 0.001))%Q <-> (b < a)%Q.
Proof.
  intros Hb. pose proof (smoothed_positive b Hb) as Hpos.
  rewrite <- (Qmult_lt_r _ _ (b + 0.001) Hpos).
  rewrite Qmult_1_l.
  setoid_replace ((a + 0.001) / (b + 0.001) * (b + 0.001))%Q with (a + 0.001)%Q
    by (field; intros E; rewrite E in Hpos; discriminate).
  apply Qplus_lt_l.
Qed.

(** With a denominator that is not negative, a smoothed ratio is at most
    what the numerator gives over the smoothing constant alone. *)
Lemma smoothed_ratio_bound (a b : Q) :
  (0 <= a)%Q -> (0 <= b)%Q ->
  ((a + 0.001) / (b + 0.001) <= (a + 0.001) / 0.001)%Q.
Proof.
  intros Ha Hb. apply Qle_shift_div_r; [now apply smoothed_positive |].
  setoid_replace ((a + 0.001) / 0.001 * (b + 0.001))%Q
    with ((a + 0.001) + 1000 * (a + 0.001) * b)%Q by field.
  rewrite <- (Qplus_0_r (a + 0.001)) at 1.
  apply Qplus_le_r. apply Qmult_le_0_compat; [| assumption].
  apply Qmult_le_0_compat; [discriminate |].
  apply Qlt_le_weak. now apply smoothed_positive.
Qed.

Lemma Qlt_bool_true x y : (x < y)%Q -> Qlt_bool x y = true.
Proof.
  intros H. unfold Qlt_bool. apply negb_true_iff.
  destruct (Qle_bool y x) eqn:E; [| reflexivity].
  apply Qle_bool_iff in E. now apply Qle_not_lt in E.
Qed.

Section EmergingRanking.
Context {U : UnicodeExt}.

Lemma emerging_rows_ranking names tf cf top_n :
  NoDup names -> length tf = length names ->
  let rows := emerging_rows names tf cf top_n in
  let valid :=
    filter (fun i => Qlt_bool 0.01 (nth i tf 0%Q)) (seq 0 (length tf)) in
  Z.of_nat (length rows)
  = (if (0 <=? top_n)%Z then Z.min top_n (Z.of_nat (length valid))
     else Z.max 0 (Z.of_nat (length valid) + top_n)) /\
  NoDup (map Emerging.term rows) /\
  (forall i, In i valid -> ~ In (nth i names []) (map Emerging.term rows) ->
   forall row, In row rows ->
     (nth i (emergence_scores tf cf) 0 <= Emerging.emergence_score row)%Q).
Proof.
  intros Hnd Hlen. unfold emerging_rows. cbv zeta.
  set (es := emergence_scores tf cf).
  set (valid := filter _ (seq 0 (length tf))).
  set (keys := map (fun i => nth i es 0%Q) valid).
  set (ks := rev (argsort keys)).
  set (ordered := map (fun k => nth k valid 0) ks).
  assert (Hks : Forall (fun k => k < length valid) ks).
  { apply Forall_forall. intros k Hk. apply in_rev, argsort_bound in Hk.
    unfold keys in Hk. now rewrite length_map in Hk. }
  assert (Hperm : Permutation ordered valid).
  { apply Permutation_trans
      with (map (fun k => nth k valid 0) (seq 0 (length valid)));
      [| now rewrite map_nth_seq].
    apply Permutation_map. unfold ks. rewrite <- Permutation_rev.
    rewrite <- (length_map (fun i => nth i es 0%Q) valid). apply argsort_Permutation. }
  assert (Hsorted : StronglySorted (fun i j => (nth j es 0 <= nth i es 0)%Q) ordered).
  { apply StronglySorted_map.
    apply StronglySorted_within
      with (P := fun k => k < length valid)
           (R := fun k k' => (nth k' keys 0 <= nth k keys 0)%Q);
      [| assumption | apply (StronglySorted_rev _ _ (argsort_sorted keys))].
    intros k k' Hk Hk' H. unfold keys in H.
    now rewrite !(nth_map_in (fun i => nth i es 0%Q) valid _ 0) in H. }
  assert (Hvalid : forall i, In i valid -> i < length names).
  { intros i Hi. apply filter_In in Hi. destruct Hi as [Hi _].
    apply in_seq in Hi. lia. }
  split; [| split].
  - now rewrite length_map, slice_to_length_eq, (Permutation_length Hperm).
  - rewrite map_map. simpl. apply nth_NoDup_map; [assumption | |].
    + apply (sublist_NoDup _ _ (slice_to_sublist _ _)).
      apply (Permutation_NoDup (Permutation_sym Hperm)).
      apply NoDup_filter, seq_NoDup.
    + apply Forall_forall. intros i Hi. apply slice_to_In in Hi.
      apply Hvalid. now apply (Permutation_in _ Hperm).
  - intros i Hi Hnot row Hrow.
    apply in_map_iff in Hrow. destruct Hrow as (j & <- & Hj). simpl.
    apply (slice_to_top (fun a b => (nth b es 0 <= nth a es 0)%Q) top_n ordered j i);
      [assumption | assumption | |].
    + now apply (Permutation_in _ (Permutation_sym Hperm)).
    + intros Hi'. apply Hnot. rewrite map_map. simpl.
      apply in_map_iff. now exists i.
Qed.

(** The three arrays of [find_emerging_terms], entry by entry: the two
    frequencies are the occurrences of the term in the texts over the
    number of texts, and the score is the smoothed ratio of the two. *)
Lemma emerging_arrays target_texts comparison_texts names i :
  i < length names ->
  let tf := frequencies_per_document
              (transform emerging_vectorizer names target_texts) (length target_texts) in
  let cf := frequencies_per_document
              (transform emerging_vectorizer names comparison_texts)
              (length comparison_texts) in
  length tf = length names /\
  nth i tf 0%Q
  = (inject_Z (total_count emerging_vectorizer (nth i names []) target_texts)
     / inject_Z (Z.of_nat (length target_texts)))%Q /\
  nth i cf 0%Q
  = (inject_Z (total_count emerging_vectorizer (nth i names []) comparison_texts)
     / inject_Z (Z.of_nat (length comparison_texts)))%Q /\
  nth i (emergence_scores tf cf) 0%Q
  = ((nth i tf 0 + 0.001) / (nth i cf 0 + 0.001))%Q.
Proof.
  intros Hi tf cf.
  assert (Ltf : length tf = length names)
    by (unfold tf; now rewrite frequencies_per_document_length, transform_length).
  assert (Lcf : length cf = length names)
    by (unfold cf; now rewrite frequencies_per_document_length, transform_length).
  split; [exact Ltf |].
  split; [now apply frequencies_per_document_nth |].
  split; [now apply frequencies_per_document_nth |].
  unfold emergence_scores.
  apply (zip_with_nth (fun t c : Q => ((t + 0.001) / (c + 0.001))%Q) tf cf i 0%Q 0%Q 0%Q);
    lia.
Qed.

(** C1: what [find_emerging_terms] returns as the score of a term is
    [(target_freq + 0.001) / (baseline_freq + 0.001)], where the two
    frequencies are the occurrences of the term in the target (baseline)
    texts over the number of those texts. For every term the divisor is
    positive, so that nothing is divided by zero, and the score lies
    between 0 and [(target_freq + 0.001) / 0.001], which it reaches for a
    term with no occurrence in the baseline. Every row of the result
    carries a term of the fitted vocabulary with these three values, and
    every term of the vocabulary whose target frequency is above 0.01 has
    its row when [top_n] is not below the number of such terms. *)
Theorem emergence_score_formula target_articles comparison_articles top_n X :
  target_articles <> [] -> comparison_articles <> [] ->
  fit_transform emerging_vectorizer
    (map clean_text target_articles ++ map clean_text comparison_articles) = Ok X ->
  let target_freq t :=
    (inject_Z (total_count emerging_vectorizer t (map clean_text target_articles))
     / inject_Z (Z.of_nat (length target_articles)))%Q in
  let baseline_freq t :=
    (inject_Z (total_count emerging_vectorizer t (map clean_text comparison_articles))
     / inject_Z (Z.of_nat (length comparison_articles)))%Q in
  let score t := ((target_freq t + 0.001) / (baseline_freq t + 0.001))%Q in
  (forall t,
     (0 < baseline_freq t + 0.001)%Q /\
     (0 <= score t <= (target_freq t + 0.001) / 0.001)%Q /\
     (total_count emerging_vectorizer t (map clean_text comparison_articles) = 0%Z ->
      (score t == (target_freq t + 0.001) / 0.001)%Q)) /\
  exists rows,
    find_emerging_terms target_articles comparison_articles top_n = Ok rows /\
    Forall (fun row =>
              In (Emerging.term row) (map fst X) /\
              Emerging.target_freq row = target_freq (Emerging.term row) /\
              Emerging.baseline_freq row = baseline_freq (Emerging.term row) /\
              Emerging.emergence_score row = score (Emerging.term row)) rows /\
    (forall t,
       In t (map fst X) -> (0.01 < target_freq t)%Q ->
       (Z.of_nat (length (filter (fun t => Qlt_bool 0.01 (target_freq t)) (map fst X)))
        <= top_n)%Z ->
       exists row,
         In row rows /\ Emerging.term row = t /\
         Emerging.emergence_score row = score t).
Proof.
  intros HT HC Hfit target_freq baseline_freq score.
  assert (Htarget : forall t, (0 <= target_freq t)%Q).
  { intros t. unfold target_freq. apply Qdiv_nonneg; [apply total_count_nonneg |].
    destruct target_articles; [contradiction | simpl length; lia]. }
  assert (Hbase : forall t, (0 <= baseline_freq t)%Q).
  { intros t. unfold baseline_freq. apply Qdiv_nonneg; [apply total_count_nonneg |].
    destruct comparison_articles; [contradiction | simpl length; lia]. }
  split.
  { intros t. pose proof (smoothed_positive _ (Hbase t)) as Hpos.
    split; [exact Hpos |]. split; [split |].
    - unfold score. apply Qle_shift_div_l; [exact Hpos |].
      rewrite Qmult_0_l. apply Qlt_le_weak, smoothed_positive, Htarget.
    - apply smoothed_ratio_bound; [apply Htarget | apply Hbase].
    - intros Hzero. unfold score, baseline_freq. rewrite Hzero.
      unfold Qdiv at 2. now rewrite Qmult_0_l, Qplus_0_l. }
  rewrite find_emerging_terms_cases.
  destruct target_articles as [|a T]; [contradiction |].
  destruct comparison_articles as [|b C]; [contradiction |].
  cbv zeta. rewrite Hfit.
  destruct (fit_transform_vocabulary _ _ _ Hfit) as (Hnd & _ & _).
  set (names := map fst X) in *.
  set (target_texts := map clean_text (a :: T)) in *.
  set (comparison_texts := map clean_text (b :: C)) in *.
  set (tf := frequencies_per_document
               (transform emerging_vectorizer names target_texts) (length target_texts)).
  set (cf := frequencies_per_document
               (transform emerging_vectorizer names comparison_texts)
               (length comparison_texts)).
  assert (Harr : forall i, i < length names ->
            length tf = length names /\
            nth i tf 0%Q = target_freq (nth i names []) /\
            nth i cf 0%Q = baseline_freq (nth i names []) /\
            nth i (emergence_scores tf cf) 0%Q = score (nth i names [])).
  { intros i Hi.
    destruct (emerging_arrays target_texts comparison_texts names i Hi)
      as (L & Etf & Ecf & Ees).
    fold tf cf in L, Etf, Ecf, Ees.
    unfold target_texts, comparison_texts in Etf, Ecf.
    rewrite length_map in Etf, Ecf.
    split; [exact L |]. split; [exact Etf |]. split; [exact Ecf |].
    rewrite Ees, Etf, Ecf. reflexivity. }
  assert (Ltf : length tf = length names)
    by (unfold tf; now rewrite frequencies_per_document_length, transform_length).
  exists (emerging_rows names tf cf top_n).
  destruct (emerging_rows_spec names tf cf top_n) as (_ & _ & _ & Hrows).
  destruct (emerging_rows_ranking names tf cf top_n Hnd Ltf) as (Hlen & Hnd' & _).
  cbv zeta in Hrows, Hlen, Hnd'.
  assert (Hcarried : Forall (fun row =>
              In (Emerging.term row) names /\
              Emerging.target_freq row = target_freq (Emerging.term row) /\
              Emerging.baseline_freq row = baseline_freq (Emerging.term row) /\
              Emerging.emergence_score row = score (Emerging.term row))
            (emerging_rows names tf cf top_n)).
  { eapply Forall_impl; [| exact Hrows]. cbn beta.
    intros row (i & Hi & Eterm & Escore & Etarget & Ebase).
    rewrite Ltf in Hi. destruct (Harr i Hi) as (_ & Etf & Ecf & Ees).
    rewrite Eterm, Escore, Etarget, Ebase, Etf, Ecf, Ees.
    split; [now apply nth_In | now repeat split]. }
  split; [reflexivity |]. split; [exact Hcarried |].
  intros t Ht Hfreq Htop.
  set (eligible := filter (fun t => Qlt_bool 0.01 (target_freq t)) names) in *.
  set (valid := filter (fun i => Qlt_bool 0.01 (nth i tf 0%Q)) (seq 0 (length tf))) in *.
  assert (Hvalid : map (fun i => nth i names []) valid = eligible).
  { unfold eligible. rewrite <- (filter_map_indices _ names []). f_equal.
    unfold valid. rewrite Ltf. apply filter_ext_in.
    intros i Hi. apply in_seq in Hi.
    destruct (Harr i) as (_ & Etf & _); [lia |]. now rewrite Etf. }
  assert (Hall : incl eligible (map Emerging.term (emerging_rows names tf cf top_n))).
  { apply NoDup_length_incl; [exact Hnd' | |].
    - rewrite length_map. apply Nat2Z.inj_le. rewrite Hlen.
      rewrite <- Hvalid in Htop |- *. rewrite length_map in Htop |- *.
      destruct (Z.leb_spec 0 top_n); lia.
    - intros name Hname. apply in_map_iff in Hname.
      destruct Hname as (row & <- & Hrow).
      rewrite Forall_forall in Hrows.
      destruct (Hrows row Hrow) as (i & Hi & Eterm & _ & Etarget & _).
      pose proof (emerging_rows_spec names tf cf top_n) as (Hmin & _).
      cbv zeta in Hmin. rewrite Forall_forall in Hmin. specialize (Hmin row Hrow).
      rewrite <- Hvalid, Eterm. apply (in_map (fun i => nth i names []) valid i).
      unfold valid. apply filter_In. split; [apply in_seq; lia |].
      apply Qlt_bool_true. now rewrite <- Etarget. }
  assert (Hin : In t (map Emerging.term (emerging_rows names tf cf top_n))).
  { apply Hall. unfold eligible. apply filter_In. split; [assumption |].
    now apply Qlt_bool_true. }
  apply in_map_iff in Hin. destruct Hin as (row & Eterm & Hrow).
  exists row. split; [assumption |]. split; [assumption |].
  rewrite Forall_forall in Hcarried. destruct (Hcarried row Hrow) as (_ & _ & _ & Es).
  now rewrite Es, Eterm.
Qed.

(** X10: when the vectorizer keeps a vocabulary (of at most 2000 terms),
    [find_emerging_terms] returns the best-scoring terms among those with
    more than 0.01 occurrences per target article. For [top_n >= 0] there
    are [min(top_n, eligible terms)] rows (a negative [top_n] drops that
    many from the end instead). No term is in two rows; a row scores above
    1 exactly when the term is more frequent per article in the target
    year than in the baseline; an eligible term that is left out scores no
    more than any returned term. *)
Theorem emerging_terms_are_top_n target_articles comparison_articles top_n X :
  target_articles <> [] -> comparison_articles <> [] ->
  fit_transform emerging_vectorizer
    (map clean_text target_articles ++ map clean_text comparison_articles) = Ok X ->
  let target_freq t :=
    (inject_Z (total_count emerging_vectorizer t (map clean_text target_articles))
     / inject_Z (Z.of_nat (length target_articles)))%Q in
  let baseline_freq t :=
    (inject_Z (total_count emerging_vectorizer t (map clean_text comparison_articles))
     / inject_Z (Z.of_nat (length comparison_articles)))%Q in
  let score t := ((target_freq t + 0.001) / (baseline_freq t + 0.001))%Q in
  let eligible := filter (fun t => Qlt_bool 0.01 (target_freq t)) (map fst X) in
  exists rows,
    find_emerging_terms target_articles comparison_articles top_n = Ok rows /\
    Z.of_nat (length rows)
    = (if (0 <=? top_n)%Z then Z.min top_n (Z.of_nat (length eligible))
       else Z.max 0 (Z.of_nat (length eligible) + top_n)) /\
    length X <= 2000 /\
    NoDup (map Emerging.term rows) /\
    Forall (fun row =>
              In (Emerging.term row) eligible /\
              Emerging.emergence_score row = score (Emerging.term row) /\
              ((1 < Emerging.emergence_score row)%Q <->
               (Emerging.baseline_freq row < Emerging.target_freq row)%Q)) rows /\
    (forall t, In t eligible -> ~ In t (map Emerging.term rows) ->
     forall row, In row rows -> (score t <= Emerging.emergence_score row)%Q).
Proof.
  intros HT HC Hfit target_freq baseline_freq score eligible.
  rewrite find_emerging_terms_cases.
  destruct target_articles as [|a T]; [contradiction |].
  destruct comparison_articles as [|b C]; [contradiction |].
  cbv zeta. rewrite Hfit.
  destruct (fit_transform_vocabulary _ _ _ Hfit) as (Hnd & _ & Hmax).
  set (names := map fst X) in *.
  set (target_texts := map clean_text (a :: T)) in *.
  set (comparison_texts := map clean_text (b :: C)) in *.
  set (tf := frequencies_per_document
               (transform emerging_vectorizer names target_texts) (length target_texts)).
  set (cf := frequencies_per_document
               (transform emerging_vectorizer names comparison_texts)
               (length comparison_texts)).
  assert (Ltf : length tf = length names)
    by (unfold tf; now rewrite frequencies_per_document_length, transform_length).
  assert (Lcf : length cf = length names)
    by (unfold cf; now rewrite frequencies_per_document_length, transform_length).
  assert (Etf : forall i, i < length names -> nth i tf 0%Q = target_freq (nth i names [])).
  { intros i Hi. unfold tf. rewrite frequencies_per_document_nth by assumption.
    unfold target_freq, target_texts. now rewrite length_map. }
  assert (Ecf : forall i, i < length names -> nth i cf 0%Q = baseline_freq (nth i names [])).
  { intros i Hi. unfold cf. rewrite frequencies_per_document_nth by assumption.
    unfold baseline_freq, comparison_texts. now rewrite length_map. }
  assert (Ees : forall i, i < length names ->
                nth i (emergence_scores tf cf) 0%Q = score (nth i names [])).
  { intros i Hi. unfold emergence_scores.
    rewrite (zip_with_nth (fun t c : Q => ((t + 0.001) / (c + 0.001))%Q)
               tf cf i 0%Q 0%Q 0%Q) by lia.
    unfold score. now rewrite Etf, Ecf. }
  assert (Hbase : forall t, (0 <= baseline_freq t)%Q).
  { intros t. unfold baseline_freq. apply Qdiv_nonneg; [apply total_count_nonneg |].
    simpl length. lia. }
  exists (emerging_rows names tf cf top_n).
  destruct (emerging_rows_ranking names tf cf top_n Hnd Ltf) as (Hlen & Hnd' & Htop).
  destruct (emerging_rows_spec names tf cf top_n) as (Hmin & _ & _ & Hrows).
  set (valid := filter (fun i => Qlt_bool 0.01 (nth i tf 0%Q)) (seq 0 (length tf))) in *.
  assert (Hvalid : map (fun i => nth i names []) valid = eligible).
  { unfold eligible. rewrite <- (filter_map_indices _ names []). f_equal.
    unfold valid. rewrite Ltf. apply filter_ext_in.
    intros i Hi. apply in_seq in Hi. rewrite Etf by lia. reflexivity. }
  split; [reflexivity |]. split; [| split; [now apply Hmax | split; [exact Hnd' |]]].
  - rewrite Hlen, <- Hvalid. now rewrite length_map.
  - split.
    + apply Forall_forall. intros row Hrow.
      rewrite Forall_forall in Hrows, Hmin.
      destruct (Hrows row Hrow) as (i & Hi & Eterm & Escore & Etarget & Ebase).
      rewrite Ltf in Hi. specialize (Hmin row Hrow).
      rewrite Eterm, Escore, Etarget, Ebase, Ees, Etf, Ecf by assumption.
      split; [| split; [reflexivity |]].
      * unfold eligible. apply filter_In. split; [now apply nth_In |].
        rewrite Etarget, Etf in Hmin by assumption.
        unfold Qlt_bool. apply negb_true_iff.
        destruct (Qle_bool (target_freq (nth i names [])) 0.01) eqn:E; [| reflexivity].
        apply Qle_bool_iff in E. now apply Qle_not_lt in E.
      * apply smoothed_ratio_above_one, Hbase.
    + intros t Ht Hnot row Hrow.
      rewrite <- Hvalid in Ht. apply in_map_iff in Ht. destruct Ht as (i & <- & Hi).
      assert (Hi' : i < length names).
      { unfold valid in Hi. apply filter_In in Hi. destruct Hi as [Hi _].
        apply in_seq in Hi. lia. }
      rewrite <- Ees by assumption. now apply (Htop i).
Qed.

End EmergingRanking.

(** C1, witness: the zika corpora with [top_n = 15]; the four terms of the
    vocabulary are above the threshold and have their rows. *)
Lemma emergence_score_formula_witness :
  let target_freq t :=
    (inject_Z (total_count emerging_vectorizer t (map clean_text zika_target))
     / inject_Z (Z.of_nat (length zika_target)))%Q in
  let baseline_freq t :=
    (inject_Z (total_count emerging_vectorizer t (map clean_text zika_baseline))
     / inject_Z (Z.of_nat (length zika_baseline)))%Q in
  let score t := ((target_freq t + 0.001) / (baseline_freq t + 0.001))%Q in
  (forall t,
     (0 < baseline_freq t + 0.001)%Q /\
     (0 <= score t <= (target_freq t + 0.001) / 0.001)%Q /\
     (total_count emerging_vectorizer t (map clean_text zika_baseline) = 0%Z ->
      (score t == (target_freq t + 0.001) / 0.001)%Q)) /\
  exists rows,
    find_emerging_terms zika_target zika_baseline 15 = Ok rows /\
    Forall (fun row =>
              In (Emerging.term row) (map fst zika_fitted) /\
              Emerging.target_freq row = target_freq (Emerging.term row) /\
              Emerging.baseline_freq row = baseline_freq (Emerging.term row) /\
              Emerging.emergence_score row = score (Emerging.term row)) rows /\
    (forall t,
       In t (map fst zika_fitted) -> (0.01 < target_freq t)%Q ->
       (Z.of_nat (length (filter (fun t => Qlt_bool 0.01 (target_freq t))
                            (map fst zika_fitted)))
        <= 15)%Z ->
       exists row,
         In row rows /\ Emerging.term row = t /\
         Emerging.emergence_score row = score t).
Proof.
  apply (emergence_score_formula zika_target zika_baseline 15 zika_fitted).
  - discriminate.
  - discriminate.
  - exact zika_fit.
Defined.

(** X10, witness: the best two of the three eligible terms of the zika
    corpora. *)
Lemma emerging_terms_are_top_n_witness :
  let target_freq t :=
    (inject_Z (total_count emerging_vectorizer t (map clean_text zika_target))
     / inject_Z (Z.of_nat (length zika_target)))%Q in
  let baseline_freq t :=
    (inject_Z (total_count emerging_vectorizer t (map clean_text zika_baseline))
     / inject_Z (Z.of_nat (length zika_baseline)))%Q in
  let score t := ((target_freq t + 0.001) / (baseline_freq t + 0.001))%Q in
  let eligible := filter (fun t => Qlt_bool 0.01 (target_freq t)) (map fst zika_fitted) in
  exists rows,
    find_emerging_terms zika_target zika_baseline 2 = Ok rows /\
    Z.of_nat (length rows)
    = (if (0 <=? 2)%Z then Z.min 2 (Z.of_nat (length eligible))
       else Z.max 0 (Z.of_nat (length eligible) + 2)) /\
    length zika_fitted <= 2000 /\
    NoDup (map Emerging.term rows) /\
    Forall (fun row =>
              In (Emerging.term row) eligible /\
              Emerging.emergence_score row = score (Emerging.term row) /\
              ((1 < Emerging.emergence_score row)%Q <->
               (Emerging.baseline_freq row < Emerging.target_freq row)%Q)) rows /\
    (forall t, In t eligible -> ~ In t (map Emerging.term rows) ->
     forall row, In row rows -> (score t <= Emerging.emergence_score row)%Q).
Proof.
  apply (emerging_terms_are_top_n zika_target zika_baseline 2 zika_fitted).
  - discriminate.
  - discriminate.
  - exact zika_fit.
Defined.

(* ================================================================= *)
(** ** The shape of the ranked terms *)

Lemma run_length_le f s : run_length f s <= length s.
Proof.
  induction s as [|c s IH]; simpl; [lia |]. destruct (f c); simpl; lia.
Qed.

Lemma firstn_run_length f s :
  Forall (fun c => f c = true) (firstn (run_length f s) s).
Proof.
  induction s as [|c s IH]; simpl; [constructor |].
  destruct (f c) eqn:E; simpl; [now constructor | constructor].
Qed.

Section TermShape.
Context {U : UnicodeExt}.

(** The tokens of a normalized text. *)
Lemma tokens_of_clean_text text :
  Forall (fun g => 2 <= length g /\
                   Forall (fun c => is_word c = true /\ is_digit c = false) g)
    (re_findall token_pattern (lower (clean_text text))).
Proof.
  rewrite (lower_normalized _ (clean_text_normalized text)).
  apply re_findall_from_Forall with (I := Forall (fun c => is_digit c = false)).
  - intros c r H. now inversion H.
  - intros before s n g Hs. unfold token_pattern.
    destruct (_ && _) eqn:E; [| discriminate].
    apply andb_true_iff in E. destruct E as [_ E]. apply Nat.leb_le in E.
    intros H. injection H as _ <-. split.
    + rewrite length_firstn. pose proof (run_length_le is_word s). lia.
    + apply Forall_and; [apply firstn_run_length | now apply firstn_Forall].
  - eapply Forall_impl; [| apply clean_text_chars]. now intros c (_ & H & _).
Qed.

(** With [ngram_range = (1, n)], the terms that the analyzer finds in a
    normalized text are phrases of one to [n] kept words. *)
Lemma analyze_clean_text_phrases v n text :
  ngram_range v = (1, n) -> 1 <= n ->
  Forall (phrase (stop_words v) n) (analyze v (clean_text text)).
Proof.
  intros Hrange Hn. unfold analyze, word_ngrams. rewrite Hrange.
  set (tokens := filter _ _).
  assert (Ht : Forall (kept_word (stop_words v)) tokens).
  { apply Forall_forall. intros w Hw. apply filter_In in Hw. destruct Hw as [Hw Hs].
    pose proof (tokens_of_clean_text text) as H. rewrite Forall_forall in H.
    destruct (H w Hw) as [Hl Hc]. apply negb_true_iff in Hs. now repeat split. }
  assert (Hone : Forall (phrase (stop_words v) n) tokens).
  { eapply Forall_impl; [| exact Ht]. intros w Hw. exists [w].
    split; [reflexivity |]. split; [simpl; lia | now constructor]. }
  destruct (n =? 1); [assumption |].
  change (1 =? 1) with true. cbv iota.
  apply Forall_app. split; [assumption |].
  apply Forall_flat_map, Forall_forall. intros k Hk. apply in_seq in Hk.
  unfold ngrams. apply Forall_map, Forall_forall. intros i Hi. apply in_seq in Hi.
  exists (firstn k (skipn i tokens)). split; [reflexivity |]. split.
  - rewrite length_firstn, length_skipn. lia.
  - now apply firstn_Forall, skipn_Forall.
Qed.

(** The terms of a fitted vocabulary are such phrases. *)
Lemma fit_transform_phrases v n articles X :
  ngram_range v = (1, n) -> 1 <= n ->
  fit_transform v (map clean_text articles) = Ok X ->
  Forall (phrase (stop_words v) n) (map fst X).
Proof.
  intros Hrange Hn Hfit. apply fit_transform_spec in Hfit. destruct Hfit as [_ Hfit].
  apply Forall_forall. intros t Ht. apply in_map_iff in Ht.
  destruct Ht as ([t' col] & E & Hin). simpl in E. subst t'.
  destruct (Hfit t col Hin) as (Hdoc & _).
  apply in_concat in Hdoc. destruct Hdoc as (d & Hd & Htd).
  rewrite map_map in Hd. apply in_map_iff in Hd. destruct Hd as (a & <- & _).
  pose proof (analyze_clean_text_phrases v n a Hrange Hn) as H.
  rewrite Forall_forall in H. now apply H.
Qed.

Lemma fit_transform_phrases_append v n target comparison X :
  ngram_range v = (1, n) -> 1 <= n ->
  fit_transform v (map clean_text target ++ map clean_text comparison) = Ok X ->
  Forall (phrase (stop_words v) n) (map fst X).
Proof.
  rewrite <- map_app. apply fit_transform_phrases.
Qed.

Context {F : FloatOps}.

(** X11: the shape of every term in a frame that one of the three rankers
    returns. A term of [get_tfidf_by_period] or [find_emerging_terms] is
    one word or two words joined by one U+0020; a term of
    [find_cooccurrences] is one word. Each word has two or more word
    characters (letters or underscores: no digit, no white space, no
    punctuation) and is not a stop word. *)
Theorem ranked_terms_are_phrases
    (articles target_articles comparison_articles mentioning : list (option str))
    (term : str) (top_n : Z)
    (tfidf_terms : list Tfidf.row) (emerging_terms : list Emerging.row)
    (cooccurring_terms : list Cooccurrence.row) :
  get_tfidf_by_period articles top_n = Ok tfidf_terms ->
  find_emerging_terms target_articles comparison_articles top_n = Ok emerging_terms ->
  find_cooccurrences term mentioning top_n = Ok cooccurring_terms ->
  Forall (fun row => phrase STOPWORDS_ES 2 (Tfidf.term row)) tfidf_terms /\
  Forall (fun row => phrase STOPWORDS_ES 2 (Emerging.term row)) emerging_terms /\
  Forall (fun row => kept_word STOPWORDS_ES (Cooccurrence.cooccurring_term row))
    cooccurring_terms.
Proof.
  intros Htfidf Hemerging Hcooccurrence. split; [| split].
  - rewrite get_tfidf_by_period_cases in Htfidf.
    destruct articles as [|a articles]; [injection Htfidf as <-; constructor |].
    destruct (fit_transform _ _) as [X|e] eqn:Hfit;
      [| injection Htfidf as <-; constructor].
    injection Htfidf as <-.
    pose proof (fit_transform_phrases tfidf_vectorizer 2 _ _ eq_refl (Nat.le_succ_diag_r 1) Hfit)
      as Hx.
    rewrite <- (tfidf_transform_terms (length (a :: articles)) X) in Hx.
    rewrite Forall_forall in Hx.
    apply Forall_forall. intros row Hrow.
    apply tfidf_rows_terms in Hrow. destruct Hrow as (col & Hcol & _).
    apply Hx. apply in_map_iff. now exists (Tfidf.term row, col).
  - rewrite find_emerging_terms_cases in Hemerging.
    destruct target_articles as [|a T]; [injection Hemerging as <-; constructor |].
    destruct comparison_articles as [|b C]; [injection Hemerging as <-; constructor |].
    cbv zeta in Hemerging.
    destruct (fit_transform _ _) as [X|e] eqn:Hfit;
      [| injection Hemerging as <-; constructor].
    injection Hemerging as <-.
    pose proof (fit_transform_phrases_append emerging_vectorizer 2 _ _ _ eq_refl
                  (Nat.le_succ_diag_r 1) Hfit) as Hx.
    rewrite Forall_forall in Hx.
    match goal with
    | |- context [emerging_rows ?n ?tf ?cf top_n] =>
        destruct (emerging_rows_spec n tf cf top_n) as (_ & _ & _ & Hrows)
    end.
    eapply Forall_impl; [| exact Hrows]. cbn beta.
    intros row (i & Hi & -> & _). apply Hx, nth_In.
    now rewrite frequencies_per_document_length, transform_length in Hi.
  - rewrite find_cooccurrences_cases in Hcooccurrence.
    destruct mentioning as [|a M]; [injection Hcooccurrence as <-; constructor |].
    destruct (fit_transform _ _) as [X|e] eqn:Hfit;
      [| injection Hcooccurrence as <-; constructor].
    injection Hcooccurrence as <-.
    pose proof (fit_transform_phrases cooccurrence_vectorizer 1 _ _ eq_refl (Nat.le_refl 1) Hfit)
      as Hx.
    rewrite Forall_forall in Hx.
    destruct (cooccurrence_rows_spec term X top_n) as (Hrows & _ & _).
    eapply Forall_impl; [| exact Hrows]. cbn beta.
    intros row (col & Hin & _).
    destruct (Hx (Cooccurrence.cooccurring_term row)) as (words & E & Hlen & Hwords).
    + apply in_map_iff. now exists (Cooccurrence.cooccurring_term row, col).
    + destruct words as [|w [|w' words]]; simpl in Hlen; try lia.
      rewrite E. simpl. now inversion Hwords.
Qed.

End TermShape.

(** X11, witness: the terms of the three sample rankings. *)
Lemma ranked_terms_are_phrases_witness :
  Forall (fun row => phrase STOPWORDS_ES 2 (Tfidf.term row))
    (ranked (get_tfidf_by_period port_corpus 2)) /\
  Forall (fun row => phrase STOPWORDS_ES 2 (Emerging.term row))
    (ranked (find_emerging_terms zika_target zika_baseline 2)) /\
  Forall (fun row => kept_word STOPWORDS_ES (Cooccurrence.cooccurring_term row))
    (ranked (find_cooccurrences (str_of "Duarte") tie_corpus 2)).
Proof.
  apply (ranked_terms_are_phrases port_corpus zika_target zika_baseline tie_corpus
           (str_of "Duarte") 2);
    vm_compute; reflexivity.
Defined.

(* ================================================================= *)
(** ** The rows of [extract_key_actors] *)

Lemma count_pos_In key names : (1 <= count key names)%Z -> In key names.
Proof.
  unfold count. intros H.
  destruct (filter (str_eqb key) names) as [|x l] eqn:E; [simpl in H; lia |].
  assert (Hx : In x (filter (str_eqb key) names)) by (rewrite E; now left).
  apply filter_In in Hx. destruct Hx as [Hx Heq].
  apply str_eqb_eq in Heq. now subst x.
Qed.

Lemma In_count_pos key names : In key names -> (1 <= count key names)%Z.
Proof.
  unfold count. intros H.
  assert (Hx : In key (filter (str_eqb key) names))
    by (apply filter_In; split; [assumption | apply str_eqb_refl]).
  destruct (filter (str_eqb key) names); [destruct Hx | simpl length; lia].
Qed.

Lemma counter_add_In counts x : In x (map fst (counter_add counts x)).
Proof.
  induction counts as [|[k n] rest IH]; simpl; [now left |].
  destruct (str_eqb x k) eqn:E; simpl; [| now right].
  apply str_eqb_eq in E. now left.
Qed.

Lemma counter_add_keeps counts x k :
  In k (map fst counts) -> In k (map fst (counter_add counts x)).
Proof.
  induction counts as [|[k' n] rest IH]; simpl; [intros [] |].
  destruct (str_eqb x k'); simpl; intros [<- | H]; auto.
Qed.

Lemma counter_fold_keys names : forall counts k,
  In k (map fst (fold_left counter_add names counts))
  <-> In k names \/ In k (map fst counts).
Proof.
  induction names as [|x names IH]; intros counts k; simpl; [tauto |].
  rewrite IH. split.
  - intros [H | H]; [tauto |]. apply counter_add_keys in H. destruct H; auto.
  - intros [[<- | H] | H]; [right; apply counter_add_In | tauto |].
    right. now apply counter_add_keeps.
Qed.

Lemma capitalized_word s w rest :
  capitalized s = Some (w, rest) ->
  exists c tail,
    w = c :: tail /\ upper_es c = true /\ Forall (fun c => lower_es c = true) tail.
Proof.
  unfold capitalized. destruct s as [|c r]; [discriminate |].
  destruct (upper_es c) eqn:Ec; [| discriminate].
  destruct (run_length lower_es r) as [|n] eqn:En; [discriminate |].
  intros H. injection H as <- _. exists c, (firstn (S n) r).
  repeat split; try assumption. rewrite <- En. apply firstn_run_length.
Qed.

Section ActorsRanking.
Context {U : UnicodeExt}.

(** The two groups of a match of [name_pattern] are capitalized words. *)
Lemma name_pattern_groups before s n first last :
  name_pattern before s = Some (n, (first, last)) ->
  (exists c tail, first = c :: tail /\ upper_es c = true /\
                  Forall (fun c => lower_es c = true) tail) /\
  (exists c tail, last = c :: tail /\ upper_es c = true /\
                  Forall (fun c => lower_es c = true) tail).
Proof.
  unfold name_pattern.
  destruct (match before with [] => true | b :: _ => negb (is_word b) end);
    [| discriminate].
  destruct (capitalized s) as [[w1 after_first]|] eqn:E1; [| discriminate].
  destruct (run_length is_space after_first) as [|k]; [discriminate |].
  destruct (capitalized (skipn (S k) after_first)) as [[w2 after_last]|] eqn:E2;
    [| discriminate].
  destruct (match after_last with [] => true | c :: _ => negb (is_word c) end);
    [| discriminate].
  intros H. injection H as _ <- <-.
  split; eapply capitalized_word; eassumption.
Qed.

(** The names that the loop counts. *)
Lemma candidate_names_shape fp articles name :
  In name (candidate_names fp articles) ->
  exists first last,
    name = first ++ str_of " " ++ last /\
    name_word first /\ name_word last /\ mem name fp = false.
Proof.
  unfold candidate_names. intros Hin. apply in_flat_map in Hin.
  destruct Hin as (a & _ & Hin). apply in_map_iff in Hin.
  destruct Hin as ([first last] & <- & Hm). apply filter_In in Hm.
  destruct Hm as [Hm Hacc].
  assert (Hshape : Forall (fun g : str * str =>
                             exists before s n, name_pattern before s = Some (n, g))
                     (re_findall name_pattern (scanned_text a))).
  { apply re_findall_from_Forall with (I := fun _ => True); trivial.
    intros before s n g _ H. now exists before, s, n. }
  rewrite Forall_forall in Hshape. destruct (Hshape _ Hm) as (before & s & n & Hp).
  apply name_pattern_groups in Hp.
  destruct Hp as [(c1 & t1 & E1 & Hu1 & Hl1) (c2 & t2 & E2 & Hu2 & Hl2)].
  unfold accepted in Hacc. cbn [fst snd] in Hacc.
  apply andb_true_iff in Hacc. destruct Hacc as [Hacc H2].
  apply andb_true_iff in Hacc. destruct Hacc as [Hfp H1].
  apply Nat.ltb_lt in H1, H2. apply negb_true_iff in Hfp.
  exists first, last. split; [reflexivity |].
  split; [| split; [| exact Hfp]].
  - exists c1, t1. subst first. simpl in H1. repeat split; try assumption. lia.
  - exists c2, t2. subst last. simpl in H2. repeat split; try assumption. lia.
Qed.

(** X12: the rows of [extract_key_actors]. There are none for
    [top_n <= 0], and otherwise [min(top_n, distinct candidate names)].
    Every actor is two words joined by one U+0020, each a capital followed
    by two or more lowercase letters, and is none of the false positives
    of the module. A candidate name that is left out is mentioned no more
    often than any returned actor. *)
Theorem key_actors_are_top_names articles top_n :
  Z.of_nat (length (extract_key_actors articles top_n))
  = (if (top_n <=? 0)%Z then 0%Z
     else Z.min top_n
            (Z.of_nat (length (distinct str_eqb []
                                 (candidate_names false_positives articles))))) /\
  Forall (fun row =>
            exists first last,
              Actors.actor row = first ++ str_of " " ++ last /\
              name_word first /\ name_word last /\
              mem (Actors.actor row) false_positives = false)
    (extract_key_actors articles top_n) /\
  (forall name,
     In name (candidate_names false_positives articles) ->
     ~ In name (map Actors.actor (extract_key_actors articles top_n)) ->
     forall row, In row (extract_key_actors articles top_n) ->
       (count name (candidate_names false_positives articles) <= Actors.mentions row)%Z).
Proof.
  unfold extract_key_actors.
  destruct (key_actors_spec false_positives articles top_n) as (Hrows & _ & _).
  unfold key_actors in *. cbv zeta in *. rewrite count_names_fold in *.
  set (names := candidate_names false_positives articles) in *.
  set (counts := fold_left counter_add names []) in *.
  assert (Hwf : counter_wf counts) by (apply counter_fold_wf; split; constructor).
  destruct Hwf as [Hnd _].
  assert (Hkeys : forall k, In k (map fst counts) <-> In k names).
  { intros k. unfold counts. rewrite counter_fold_keys. simpl. tauto. }
  split; [| split].
  - rewrite length_map. unfold most_common.
    destruct (Z.leb_spec top_n 0) as [Hle | Hgt]; [reflexivity |].
    rewrite length_firstn. unfold sorted_by_reverse.
    rewrite (Permutation_length (sort_Permutation _ counts)).
    rewrite <- (length_map fst counts).
    assert (Hsame : forall k, In k (map fst counts) <-> In k (distinct str_eqb [] names)).
    { intros k. rewrite Hkeys, (distinct_In_iff str_eqb str_eqb_eq). simpl. tauto. }
    rewrite (Permutation_length
               (NoDup_Permutation Hnd (distinct_NoDup str_eqb str_eqb_eq names []) Hsame)).
    lia.
  - eapply Forall_impl; [| exact Hrows]. cbn beta. intros row [Hc Hpos].
    apply (candidate_names_shape false_positives articles).
    apply count_pos_In. fold names. now rewrite <- Hc.
  - intros name Hname Hnot row Hrow.
    apply Hkeys, in_map_iff in Hname. destruct Hname as ([k n] & E & Hkn).
    simpl in E. subst k.
    assert (En : n = count name names).
    { rewrite <- (counter_get_In _ _ _ Hnd Hkn). unfold counts.
      now rewrite counter_get_fold. }
    rewrite <- En.
    apply in_map_iff in Hrow. destruct Hrow as ([k' n'] & <- & Hrow). simpl.
    unfold most_common in *. destruct (top_n <=? 0)%Z; [destruct Hrow |].
    set (ordered := sorted_by_reverse (fun kv : str * Z => inject_Z (snd kv)) counts) in *.
    assert (Hs : StronglySorted (fun a b : str * Z => (snd b <= snd a)%Z) ordered).
    { eapply StronglySorted_weaken; [| apply sorted_by_reverse_sorted].
      intros a b H. simpl in H. now rewrite <- Zle_Qle in H. }
    rewrite <- (firstn_skipn (Z.to_nat top_n) ordered) in Hs.
    apply (StronglySorted_app_cross _ _ _ Hs (k', n') (name, n)); [assumption |].
    assert (Hin : In (name, n) ordered)
      by (apply (Permutation_in _ (Permutation_sym (sort_Permutation _ counts))); assumption).
    rewrite <- (firstn_skipn (Z.to_nat top_n) ordered) in Hin.
    apply in_app_or in Hin. destruct Hin as [Hin | Hin]; [| assumption].
    exfalso. apply Hnot. rewrite map_map. simpl.
    apply in_map_iff. now exists (name, n).
Qed.

End ActorsRanking.

(* ================================================================= *)
(** ** The first rows of a ranking *)

Lemma firstn_slice_to {A} k n (l : list A) :
  (Z.of_nat k <= n)%Z -> firstn k (slice_to n l) = slice_to (Z.of_nat k) l.
Proof.
  intros H. unfold slice_to.
  rewrite (proj2 (Z.leb_le 0 n)), (proj2 (Z.leb_le 0 (Z.of_nat k))) by lia.
  rewrite firstn_firstn, Nat2Z.id. f_equal. lia.
Qed.

Lemma firstn_rev_slice_from {A} k n (l : list A) :
  0 < k -> (Z.of_nat k <= n)%Z ->
  firstn k (rev (slice_from (- n) l)) = rev (slice_from (- Z.of_nat k) l).
Proof.
  intros Hk H. unfold slice_from.
  rewrite (proj2 (Z.leb_gt 0 (- n))), (proj2 (Z.leb_gt 0 (- Z.of_nat k))) by lia.
  rewrite firstn_rev, skipn_skipn, length_skipn, !Z.opp_involutive, Nat2Z.id.
  f_equal. f_equal. lia.
Qed.

Section Heads.
Context {U : UnicodeExt} {F : FloatOps}.

(** X13: the first [k] rows of a ranking asked with [top_n = n] are the
    ranking asked with [top_n = k], for [0 < k <= n]: what the report shows
    with [head(8)] of [top_n = 10] (or [head(10)] of [top_n = 15]) is the
    top 8 (the top 10) of the function. *)
Theorem head_of_ranking_is_ranking (k : nat) (n : Z)
    (articles target_articles comparison_articles mentioning : list (option str))
    (term : str) (people : list Actors.article) :
  0 < k -> (Z.of_nat k <= n)%Z ->
  (exists rows,
     get_tfidf_by_period articles n = Ok rows /\
     get_tfidf_by_period articles (Z.of_nat k) = Ok (firstn k rows)) /\
  (exists rows,
     find_emerging_terms target_articles comparison_articles n = Ok rows /\
     find_emerging_terms target_articles comparison_articles (Z.of_nat k)
     = Ok (firstn k rows)) /\
  (exists rows,
     find_cooccurrences term mentioning n = Ok rows /\
     find_cooccurrences term mentioning (Z.of_nat k) = Ok (firstn k rows)) /\
  extract_key_actors people (Z.of_nat k) = firstn k (extract_key_actors people n).
Proof.
  intros Hk Hn. split; [| split; [| split]].
  - rewrite !get_tfidf_by_period_cases.
    destruct articles as [|a articles]; [exists []; now rewrite firstn_nil |].
    destruct (fit_transform _ _) as [X|e]; [| exists []; now rewrite firstn_nil].
    eexists. split; [reflexivity |]. f_equal. unfold tfidf_rows.
    now rewrite firstn_map, firstn_rev_slice_from.
  - rewrite !find_emerging_terms_cases.
    destruct target_articles as [|a T]; [exists []; now rewrite firstn_nil |].
    destruct comparison_articles as [|b C]; [exists []; now rewrite firstn_nil |].
    cbv zeta.
    destruct (fit_transform _ _) as [X|e]; [| exists []; now rewrite firstn_nil].
    eexists. split; [reflexivity |]. f_equal. unfold emerging_rows.
    now rewrite firstn_map, firstn_slice_to.
  - rewrite !find_cooccurrences_cases.
    destruct mentioning as [|a M]; [exists []; now rewrite firstn_nil |].
    destruct (fit_transform _ _) as [X|e]; [| exists []; now rewrite firstn_nil].
    eexists. split; [reflexivity |]. f_equal. unfold cooccurrence_rows.
    now rewrite firstn_map, firstn_slice_to.
  - unfold extract_key_actors, key_actors, most_common.
    rewrite (proj2 (Z.leb_gt (Z.of_nat k) 0)), (proj2 (Z.leb_gt n 0)) by lia.
    rewrite firstn_map, firstn_firstn, Nat2Z.id. f_equal. f_equal. lia.
Qed.

End Heads.

(** X13, witness: [head(2)] of the rankings with [top_n = 3]. *)
Lemma head_of_ranking_is_ranking_witness :
  (exists rows,
     get_tfidf_by_period port_corpus 3 = Ok rows /\
     get_tfidf_by_period port_corpus (Z.of_nat 2) = Ok (firstn 2 rows)) /\
  (exists rows,
     find_emerging_terms zika_target zika_baseline 3 = Ok rows /\
     find_emerging_terms zika_target zika_baseline (Z.of_nat 2) = Ok (firstn 2 rows)) /\
  (exists rows,
     find_cooccurrences (str_of "duarte") tie_corpus 3 = Ok rows /\
     find_cooccurrences (str_of "duarte") tie_corpus (Z.of_nat 2) = Ok (firstn 2 rows)) /\
  extract_key_actors
    [{| Actors.title := Some (str_of "Javier Duarte");
        Actors.body := Some (str_of "Miguel Yunes y Javier Duarte") |}] (Z.of_nat 2)
  = firstn 2
      (extract_key_actors
         [{| Actors.title := Some (str_of "Javier Duarte");
             Actors.body := Some (str_of "Miguel Yunes y Javier Duarte") |}] 3).
Proof.
  apply (head_of_ranking_is_ranking 2 3 port_corpus zika_target zika_baseline
           tie_corpus (str_of "duarte")
           [{| Actors.title := Some (str_of "Javier Duarte");
               Actors.body := Some (str_of "Miguel Yunes y Javier Duarte") |}]);
    lia.
Defined.
